(** * memory-lane: ordering, position repair and date-range maintenance

    A shallow embedding of [src/services/eventService.ts] and
    [src/services/memoryLaneService.ts].  The services are sequences of
    awaited Supabase requests; they are modelled in a state-and-exception
    monad over a [World] that holds the three tables, the stored procedures
    of the database, an oracle deciding which of the coming requests fail,
    the browser console and a ghost trace of committed writes.

    Conventions of the embedding
    - a JavaScript [number] holding a row position is the integer it
      holds, a [Z]; sums on it are rounded as the binary64 format rounds
      them ([Js.plus_one]);
    - [string | null | undefined] is [option string], [None] standing for
      both [null] and [undefined];
    - a [Date] object is its time value, [None] being [NaN] (Invalid Date);
    - a Supabase request never rejects: it resolves to [{ data, error }]
      (this is why the source writes [if (error) throw error]). *)

From Stdlib Require Import ZArith List String Ascii Bool Lia.
From Stdlib Require Import Permutation Sorted DecimalString.
Import ListNotations.

Local Open Scope string_scope.
Local Open Scope Z_scope.

Set Implicit Arguments.

(* ================================================================== *)
(** * The JavaScript runtime pieces the services rely on *)
(* ================================================================== *)

Module Js.

(** [!s] for a [string | null | undefined]. *)
Definition falsy_str (s : option string) : bool :=
  match s with
  | None => true
  | Some s => (s =? "")%string
  end.

(** [!n] for a [number | undefined] that holds an integer ([NaN], the
    other falsy number, is not an integer). *)
Definition falsy_num (n : option Z) : bool :=
  match n with
  | None => true
  | Some n => n =? 0
  end.

(** [a === b] on numbers, [None] being [NaN]: [NaN === NaN] is false. *)
Definition strict_eq (a b : option Z) : bool :=
  match a, b with
  | Some x, Some y => x =? y
  | _, _ => false
  end.

(** ** Numbers

    A JavaScript number is a binary64 float: it holds an integer exactly
    when the integer has at most 53 significant bits, and the result of
    an addition is the float nearest to the exact sum, a tie going to the
    float of even significand. *)

Definition MAX_SAFE_INTEGER : Z := 9007199254740991.

(** [Number.isSafeInteger(x)] on a number that holds an integer. *)
Definition isSafeInteger (x : Z) : bool :=
  (- MAX_SAFE_INTEGER <=? x) && (x <=? MAX_SAFE_INTEGER).

(** The float nearest to the integer [n]: the bits below the 53 leading
    ones are dropped, rounding to nearest, ties to even. *)
Definition nearest (n : Z) : Z :=
  let a := Z.abs n in
  if a <=? MAX_SAFE_INTEGER then n
  else
    let e := Z.log2 a - 52 in
    let q := Z.shiftr a e in
    let r := a - Z.shiftl q e in
    let half := Z.shiftl 1 (e - 1) in
    let q' := if (half <? r) || ((r =? half) && Z.odd q) then q + 1 else q in
    Z.sgn n * Z.shiftl q' e.

(** [x + 1] on a number [x] that holds an integer.  From 2^53 on the sum
    is no longer exact: [9007199254740992 + 1] is [9007199254740992]. *)
Definition plus_one (x : Z) : Z := nearest (x + 1).

(** ** Calendar arithmetic (proleptic Gregorian, as ECMAScript has it) *)

Definition msPerDay : Z := 86400000.

(** Day number (days since 1970-01-01) of a civil date; [m] is 1..12. *)
Definition days_from_civil (y m d : Z) : Z :=
  let y' := if m <=? 2 then y - 1 else y in
  let era := y' / 400 in
  let yoe := y' - era * 400 in
  let doy := (153 * (m + (if 2 <? m then -3 else 9)) + 2) / 5 + d - 1 in
  let doe := yoe * 365 + yoe / 4 - yoe / 100 + doy in
  era * 146097 + doe - 719468.

(** Civil date (year, month 1..12, day) of a day number. *)
Definition civil_from_days (z : Z) : Z * Z * Z :=
  let z := z + 719468 in
  let era := z / 146097 in
  let doe := z - era * 146097 in
  let yoe := (doe - doe / 1460 + doe / 36524 - doe / 146096) / 365 in
  let doy := doe - (365 * yoe + yoe / 4 - yoe / 100) in
  let mp := (5 * doy + 2) / 153 in
  let d := doy - (153 * mp + 2) / 5 + 1 in
  let m := if mp <? 10 then mp + 3 else mp - 9 in
  (yoe + era * 400 + (if m <=? 2 then 1 else 0), m, d).

Definition YearFromTime (t : Z) : Z :=
  let '(y, _, _) := civil_from_days (t / msPerDay) in y.

(** 0-based, as [getMonth] returns it. *)
Definition MonthFromTime (t : Z) : Z :=
  let '(_, m, _) := civil_from_days (t / msPerDay) in m - 1.

(** ** Printing *)

Definition dec (n : Z) : string :=
  NilZero.string_of_uint (N.to_uint (Z.to_N n)).

Fixpoint zeros (n : nat) : string :=
  match n with
  | O => ""
  | S n => String "0"%char (zeros n)
  end.

(** Decimal of a non-negative number, left-padded with zeros to [w]. *)
Definition pad (w : nat) (n : Z) : string :=
  let s := dec n in zeros (w - String.length s) ++ s.

(** A [Date]: its time value in milliseconds, [None] for Invalid Date. *)
Definition Date := option Z.

Definition getTime (d : Date) : option Z := d.

(** [Date.prototype.toISOString]; [None] is the [RangeError] thrown on
    an Invalid Date. *)
Definition toISOString (d : Date) : option string :=
  match d with
  | None => None
  | Some t =>
      let '(y, m, dd) := civil_from_days (t / msPerDay) in
      let r := t mod msPerDay in
      let year :=
        if (0 <=? y) && (y <=? 9999) then pad 4 y
        else (if y <? 0 then "-" else "+") ++ pad 6 (Z.abs y) in
      Some (year ++ "-" ++ pad 2 m ++ "-" ++ pad 2 dd ++ "T"
            ++ pad 2 (r / 3600000) ++ ":" ++ pad 2 (r / 60000 mod 60) ++ ":"
            ++ pad 2 (r / 1000 mod 60) ++ "." ++ pad 3 (r mod 1000) ++ "Z")
  end.

(** The comparator [(a, b) => a.getTime() - b.getTime()]; [None] is
    [NaN]. *)
Definition byTime (a b : Date) : option Z :=
  match getTime a, getTime b with
  | Some x, Some y => Some (x - y)
  | _, _ => None
  end.

(** [Array.prototype.sort(cmp)]: a stable sort.  [x] goes behind the
    elements the comparator puts strictly before it; a [NaN] result
    counts as [+0], as the language specifies.  For a comparator that
    is a total preorder every stable sort returns this list; that is the
    case of [byTime] on dates that are all valid (the order of the time
    values) or all invalid (every comparison is [NaN], nothing moves).
    On a list that mixes valid and invalid dates the comparator is
    inconsistent, the language leaves the resulting order to the engine,
    and the list returned here is one such order, not the one of a
    particular engine: the statements about sorted dates below assume the
    dates all valid or all invalid. *)
Section Sort.
Variable A : Type.
Variable cmp : A -> A -> option Z.

Definition after (x y : A) : bool :=
  match cmp x y with
  | Some v => 0 <? v
  | None => false
  end.

Fixpoint insert (x : A) (l : list A) : list A :=
  match l with
  | [] => [x]
  | y :: l' => if after x y then y :: insert x l' else x :: l
  end.

Fixpoint sort (l : list A) : list A :=
  match l with
  | [] => []
  | x :: l' => insert x (sort l')
  end.
End Sort.

(** ** Local time and [toLocaleDateString('en-US', ...)] *)

Definition monthLong (m : Z) : string :=
  match m with
  | 0 => "January" | 1 => "February" | 2 => "March" | 3 => "April"
  | 4 => "May" | 5 => "June" | 6 => "July" | 7 => "August"
  | 8 => "September" | 9 => "October" | 10 => "November"
  | _ => "December"
  end.

(** [year: 'numeric'] prints the year of the era: the astronomical year
    0 is the year 1 before the common era. *)
Definition yearNumeric (y : Z) : string :=
  dec (if 1 <=? y then y else 1 - y).

Section LocalTime.
(** Offset of local time from UTC, in minutes east, at a UTC instant
    (it depends on the instant where daylight saving applies). *)
Variable tz : Z -> Z.

Definition LocalTime (t : Z) : Z := t + tz t * 60000.

Definition getFullYear (d : Date) : option Z :=
  option_map (fun t => YearFromTime (LocalTime t)) d.

Definition getMonth (d : Date) : option Z :=
  option_map (fun t => MonthFromTime (LocalTime t)) d.

(** [{ month: 'long', year: 'numeric' }] when [withYear], else
    [{ month: 'long' }]. *)
Definition toLocaleDateString (withYear : bool) (d : Date) : string :=
  match d with
  | None => "Invalid Date"
  | Some t =>
      let lt := LocalTime t in
      if withYear
      then monthLong (MonthFromTime lt) ++ " " ++ yearNumeric (YearFromTime lt)
      else monthLong (MonthFromTime lt)
  end.
End LocalTime.

(** ** A parser for the ISO forms the application stores

    [new Date(s)] is implementation-defined outside the ISO format, so
    the services below take the parser as a parameter.  [parseISO] is
    the instance used for concrete runs: it reads [YYYY-MM-DD] (UTC
    midnight) and [YYYY-MM-DDTHH:mm:ss.sssZ]. *)

Definition digit (c : ascii) : option Z :=
  let n := Z.of_nat (nat_of_ascii c) in
  if (48 <=? n) && (n <=? 57) then Some (n - 48) else None.

Fixpoint number (acc : Z) (l : list ascii) : option Z :=
  match l with
  | [] => Some acc
  | c :: l' =>
      match digit c with
      | Some v => number (acc * 10 + v) l'
      | None => None
      end
  end.

Definition num (s : string) : option Z :=
  match list_ascii_of_string s with
  | [] => None
  | l => number 0 l
  end.

Definition daysInMonth (y m : Z) : Z :=
  days_from_civil (if m =? 12 then y + 1 else y) (if m =? 12 then 1 else m + 1) 1
  - days_from_civil y m 1.

Definition parseYMD (s : string) : option Z :=
  if negb (String.length s =? 10)%nat then None else
  if negb ((substring 4 1 s =? "-") && (substring 7 1 s =? "-"))%string then None else
  match num (substring 0 4 s), num (substring 5 2 s), num (substring 8 2 s) with
  | Some y, Some m, Some d =>
      if (1 <=? m) && (m <=? 12) && (1 <=? d) && (d <=? daysInMonth y m)
      then Some (days_from_civil y m d * msPerDay)
      else None
  | _, _, _ => None
  end.

Definition parseHMS (s : string) : option Z :=
  if negb (String.length s =? 14)%nat then None else
  if negb ((substring 0 1 s =? "T") && (substring 3 1 s =? ":")
           && (substring 6 1 s =? ":") && (substring 9 1 s =? ".")
           && (substring 13 1 s =? "Z"))%string then None else
  match num (substring 1 2 s), num (substring 4 2 s),
        num (substring 7 2 s), num (substring 10 3 s) with
  | Some h, Some mi, Some sec, Some ms =>
      if (h <=? 23) && (mi <=? 59) && (sec <=? 59)
      then Some (h * 3600000 + mi * 60000 + sec * 1000 + ms)
      else None
  | _, _, _, _ => None
  end.

Definition parseISO (s : string) : Date :=
  if (String.length s =? 10)%nat then parseYMD s
  else
    match parseYMD (substring 0 10 s),
          parseHMS (substring 10 (String.length s - 10) s) with
    | Some d, Some t => Some (d + t)
    | _, _ => None
    end.

End Js.

(** [o ?? a]-style reading of an optional value. *)
Definition dflt A (o : option A) (a : A) : A :=
  match o with Some x => x | None => a end.

(* ================================================================== *)
(** * Rows of the three tables (types/index.ts) *)
(* ================================================================== *)

Module Event.
Record t := mk {
  id : string;
  memory_lane_id : string;
  title : string;
  event_date : string;
  order_position : Z;
  description : option string;
  location : option string;
  created_at : option string;
  updated_at : option string;
  deleted_at : option string }.
End Event.

Module Image.
Record t := mk {
  id : string;
  event_id : string;
  url : string;
  thumbnail_url : option string;
  alt_text : option string;
  order_position : Z;
  created_at : option string }.

(** The virtual property [is_primary: img.order_position === 0]. *)
Definition is_primary (i : t) : bool := order_position i =? 0.

Definition at_position (p : Z) (i : t) : t :=
  mk (id i) (event_id i) (url i) (thumbnail_url i) (alt_text i) p (created_at i).
End Image.

Module MemoryLane.
Record t := mk {
  id : string;
  user_id : string;
  title : string;
  description : option string;
  cover_image_url : option string;
  is_public : bool;
  date_range_start : option string;
  date_range_end : option string;
  created_at : option string;
  updated_at : option string;
  deleted_at : option string }.
End MemoryLane.

(** The argument of [createEvent]:
    [Omit<Event, 'id' | 'created_at' | 'updated_at' | 'deleted_at'>];
    [order_position] is [None] when the caller leaves it undefined. *)
Module NewEvent.
Record t := mk {
  memory_lane_id : string;
  title : string;
  event_date : string;
  order_position : option Z;
  description : option string;
  location : option string }.
End NewEvent.

(** [Partial<Omit<Event, 'id' | 'created_at' | 'deleted_at'>>]; a field is
    [None] when the caller does not set it.  [updated_at] is left out: the
    service overwrites it in every update it sends. *)
Module EventUpdates.
Record t := mk {
  memory_lane_id : option string;
  title : option string;
  event_date : option string;
  order_position : option Z;
  description : option (option string);
  location : option (option string) }.

(** [{ ...updates, updated_at: now }] applied to a row. *)
Definition apply (u : t) (now : string) (e : Event.t) : Event.t :=
  Event.mk (Event.id e)
    (dflt (memory_lane_id u) (Event.memory_lane_id e))
    (dflt (title u) (Event.title e))
    (dflt (event_date u) (Event.event_date e))
    (dflt (order_position u) (Event.order_position e))
    (dflt (description u) (Event.description e))
    (dflt (location u) (Event.location e))
    (Event.created_at e) (Some now) (Event.deleted_at e).
End EventUpdates.

(** [Partial<Omit<MemoryLane, 'id' | 'created_at' | 'deleted_at'>>]. *)
Module MemoryLaneUpdates.
Record t := mk {
  title : option string;
  description : option (option string);
  cover_image_url : option (option string);
  is_public : option bool;
  date_range_start : option (option string);
  date_range_end : option (option string) }.

Definition date_range (s e : option string) : t :=
  mk None None None None (Some s) (Some e).

Definition apply (u : t) (now : string) (l : MemoryLane.t) : MemoryLane.t :=
  MemoryLane.mk (MemoryLane.id l) (MemoryLane.user_id l)
    (dflt (title u) (MemoryLane.title l))
    (dflt (description u) (MemoryLane.description l))
    (dflt (cover_image_url u) (MemoryLane.cover_image_url l))
    (dflt (is_public u) (MemoryLane.is_public l))
    (dflt (date_range_start u) (MemoryLane.date_range_start l))
    (dflt (date_range_end u) (MemoryLane.date_range_end l))
    (MemoryLane.created_at l) (Some now) (MemoryLane.deleted_at l).
End MemoryLaneUpdates.

Definition is_null A (o : option A) : bool :=
  match o with None => true | Some _ => false end.

(* ================================================================== *)
(** * The world: database, environment and observers *)
(* ================================================================== *)

Record PostgrestError := { code : string; message : string }.

(** Ghost marks: a write request the database applied, and an entry into
    [updateDateRange]. *)
Inductive Mark :=
| Committed (table : string)
| Recompute (lane : string).

Inductive Exn :=
| Pg (e : PostgrestError)          (* [throw error] of a request's error *)
| Error (msg : string)             (* [throw new Error(msg)] *)
| RangeError (msg : string).       (* thrown by [toISOString] *)

Record World := mkWorld {
  events : list Event.t;
  images : list Image.t;
  memory_lanes : list MemoryLane.t;
  (** the stored procedure behind [rpc('shift_image_positions')], when the
      database has one; its body is not part of the repository *)
  shift_image_positions : option (string -> list Image.t -> list Image.t);
  (** one entry per coming request: [Some e] makes it fail with [e] without
      touching the tables; requests beyond the list succeed *)
  faults : list (option PostgrestError);
  (** [new Date().toISOString()] *)
  now : string;
  (** [uuidv4()]: the values it will return, and how many were drawn *)
  uuids : nat -> string;
  drawn : nat;
  console : list (string * Exn);
  trace : list Mark }.

Definition set_events (x : list Event.t) (w : World) : World :=
  mkWorld x (images w) (memory_lanes w) (shift_image_positions w) (faults w)
    (now w) (uuids w) (drawn w) (console w) (trace w).
Definition set_images (x : list Image.t) (w : World) : World :=
  mkWorld (events w) x (memory_lanes w) (shift_image_positions w) (faults w)
    (now w) (uuids w) (drawn w) (console w) (trace w).
Definition set_memory_lanes (x : list MemoryLane.t) (w : World) : World :=
  mkWorld (events w) (images w) x (shift_image_positions w) (faults w)
    (now w) (uuids w) (drawn w) (console w) (trace w).
Definition set_faults (x : list (option PostgrestError)) (w : World) : World :=
  mkWorld (events w) (images w) (memory_lanes w) (shift_image_positions w) x
    (now w) (uuids w) (drawn w) (console w) (trace w).
Definition set_drawn (x : nat) (w : World) : World :=
  mkWorld (events w) (images w) (memory_lanes w) (shift_image_positions w)
    (faults w) (now w) (uuids w) x (console w) (trace w).
Definition log (x : string * Exn) (w : World) : World :=
  mkWorld (events w) (images w) (memory_lanes w) (shift_image_positions w)
    (faults w) (now w) (uuids w) (drawn w) (console w ++ [x])%list (trace w).
Definition mark (x : Mark) (w : World) : World :=
  mkWorld (events w) (images w) (memory_lanes w) (shift_image_positions w)
    (faults w) (now w) (uuids w) (drawn w) (console w) (trace w ++ [x])%list.

(** ** Awaited code: state passing with exceptions

    A [throw] keeps the state reached so far: writes that were applied
    before it stay applied. *)

Inductive Result (A : Type) :=
| Ok (a : A)
| Throw (e : Exn).
Arguments Throw {A} e.

Definition M (A : Type) : Type := World -> Result A * World.

Definition ret A (a : A) : M A := fun w => (Ok a, w).

Definition bind A B (c : M A) (k : A -> M B) : M B :=
  fun w =>
    match c w with
    | (Ok a, w') => k a w'
    | (Throw e, w') => (Throw e, w')
    end.

Definition throw A (e : Exn) : M A := fun w => (Throw e, w).
Arguments throw {A} e.

(** [try { body } catch (err) { handler }] *)
Definition try_catch A (body : M A) (handler : Exn -> M A) : M A :=
  fun w =>
    match body w with
    | (Ok a, w') => (Ok a, w')
    | (Throw e, w') => handler e w'
    end.

Notation "x <- c ;; k" := (bind c (fun x => k))
  (at level 61, c at next level, right associativity).
Notation "c ;;; k" := (bind c (fun _ => k))
  (at level 61, right associativity).

Definition console_error (msg : string) (e : Exn) : M unit :=
  fun w => (Ok tt, log (msg, e) w).

Definition console_warn (msg : string) (e : Exn) : M unit :=
  fun w => (Ok tt, log (msg, e) w).

Definition Date_now_toISOString : M string := fun w => (Ok (now w), w).

Definition uuidv4 : M string :=
  fun w => (Ok (uuids w (drawn w)), set_drawn (S (drawn w)) w).

Definition ghost (m : Mark) : M unit := fun w => (Ok tt, mark m w).

(** ** Supabase requests *)

Record Response (A : Type) := { data : option A; error : option PostgrestError }.

Definition success A (a : A) : Response A := {| data := Some a; error := None |}.
Definition failure A (e : PostgrestError) : Response A :=
  {| data := None; error := Some e |}.
Arguments failure {A} e.

(** Awaiting a query builder: the oracle decides whether the round trip
    fails (network, constraint violation, missing permission: the schema
    is not part of the repository); a failed request leaves the tables as
    they were.  Otherwise the query runs against the tables. *)
Definition request A (run : World -> Response A * World) : M (Response A) :=
  fun w =>
    match faults w with
    | Some e :: fs => (Ok (failure e), set_faults fs w)
    | None :: fs => let (r, w') := run (set_faults fs w) in (Ok r, w')
    | [] => let (r, w') := run w in (Ok r, w')
    end.

Section Table.
Variable Row : Type.
Variable pos : Row -> Z.

(** [.order('order_position', { ascending })]; rows with equal keys stay
    in table order. *)
Definition ordered (ascending : bool) (l : list Row) : list Row :=
  Js.sort (fun a b => Some (if ascending then pos a - pos b else pos b - pos a)) l.

(** [.select(columns).eq(..).is(..).order(..).limit(..)]; the rows come
    back whole, the services read only the columns they selected. *)
Definition query (cond : Row -> bool) (order : option bool) (limit : option nat)
    (tbl : list Row) : list Row :=
  let rows := filter cond tbl in
  let rows := match order with Some asc => ordered asc rows | None => rows end in
  match limit with Some n => firstn n rows | None => rows end.

(** [.update(patch).eq(..)]: the table afterwards, and the rows that
    [.select()] returns. *)
Definition amend (cond : Row -> bool) (patch : Row -> Row) (tbl : list Row) : list Row :=
  map (fun r => if cond r then patch r else r) tbl.

Definition amended (cond : Row -> bool) (patch : Row -> Row) (tbl : list Row) : list Row :=
  map patch (filter cond tbl).
End Table.

Definition PGRST116 : PostgrestError :=
  {| code := "PGRST116";
     message := "JSON object requested, multiple (or no) rows returned" |}.

Definition PGRST202 : PostgrestError :=
  {| code := "PGRST202"; message := "Could not find the function" |}.

Definition events_select cond order limit : M (Response (list Event.t)) :=
  request (fun w => (success (query Event.order_position cond order limit (events w)), w)).

(** [.single()]: exactly one row, or error PGRST116. *)
Definition events_single cond : M (Response Event.t) :=
  request (fun w =>
    match filter cond (events w) with
    | [e] => (success e, w)
    | _ => (failure PGRST116, w)
    end).

Definition events_insert (e : Event.t) : M (Response (list Event.t)) :=
  request (fun w =>
    (success [e], mark (Committed "events") (set_events (events w ++ [e])%list w))).

Definition events_update cond patch : M (Response (list Event.t)) :=
  request (fun w =>
    (success (amended cond patch (events w)),
     mark (Committed "events") (set_events (amend cond patch (events w)) w))).

Definition images_select cond order limit : M (Response (list Image.t)) :=
  request (fun w => (success (query Image.order_position cond order limit (images w)), w)).

Definition images_insert (i : Image.t) : M (Response (list Image.t)) :=
  request (fun w =>
    (success [i], mark (Committed "images") (set_images (images w ++ [i])%list w))).

Definition images_update cond patch : M (Response (list Image.t)) :=
  request (fun w =>
    (success (amended cond patch (images w)),
     mark (Committed "images") (set_images (amend cond patch (images w)) w))).

Definition memory_lanes_update cond patch : M (Response (list MemoryLane.t)) :=
  request (fun w =>
    (success (amended cond patch (memory_lanes w)),
     mark (Committed "memory_lanes")
       (set_memory_lanes (amend cond patch (memory_lanes w)) w))).

(** [supabase.rpc('shift_image_positions', { event_id_param })] *)
Definition rpc_shift_image_positions (eventId : string) : M (Response unit) :=
  request (fun w =>
    match shift_image_positions w with
    | Some f => (success tt, mark (Committed "images") (set_images (f eventId (images w)) w))
    | None => (failure PGRST202, w)
    end).

(** [data[0]] of a response; [None] is [undefined]. *)
Definition first A (r : Response (list A)) : option A :=
  match data r with
  | Some (x :: _) => Some x
  | _ => None
  end.

Definition rows A (r : Response (list A)) : list A :=
  match data r with
  | Some l => l
  | None => []
  end.

(** [await Promise.all(builders)] over query builders: each request is
    sent in list order, and none rejects. *)
Fixpoint Promise_all A (l : list (M A)) : M (list A) :=
  match l with
  | [] => ret []
  | c :: l' => a <- c ;; r <- Promise_all l' ;; ret (a :: r)
  end.

(** The value [updateDateRange] resolves to. *)
Record DateRange := { start : option string; end_ : option string }.

(* ================================================================== *)
(** * The services *)
(* ================================================================== *)

Section Services.

(** [new Date(s)] of the browser. *)
Variable newDate : string -> Js.Date.
(** Its time zone. *)
Variable tz : Z -> Z.

(** ** memoryLaneService.ts *)

Definition live_lane (id : string) (l : MemoryLane.t) : bool :=
  (MemoryLane.id l =? id)%string && is_null (MemoryLane.deleted_at l).

Definition updateMemoryLane (id : string) (updates : MemoryLaneUpdates.t)
    : M (option MemoryLane.t) :=
  t <- Date_now_toISOString ;;
  r <- memory_lanes_update (live_lane id) (MemoryLaneUpdates.apply updates t) ;;
  match error r with
  | Some e => throw (Pg e)
  | None => ret (first r)
  end.

(** [.eq('memory_lane_id', lane).is('deleted_at', null)] *)
Definition live_in (lane : string) (e : Event.t) : bool :=
  (Event.memory_lane_id e =? lane)%string && is_null (Event.deleted_at e).

Definition getMemoryLaneEvents (memoryLaneId : string) : M (list Event.t) :=
  r <- events_select (live_in memoryLaneId) (Some true) None ;;
  match error r with
  | Some e => throw (Pg e)
  | None => ret (rows r)
  end.

Definition toISOString (d : Js.Date) : M string :=
  match Js.toISOString d with
  | Some s => ret s
  | None => throw (RangeError "Invalid time value")
  end.

Definition updateDateRange (memoryLaneId : string) : M DateRange :=
  ghost (Recompute memoryLaneId) ;;;
  try_catch
    (events <- getMemoryLaneEvents memoryLaneId ;;
     if (List.length events =? 0)%nat then
       updateMemoryLane memoryLaneId (MemoryLaneUpdates.date_range None None) ;;;
       ret {| start := None; end_ := None |}
     else
       let eventDates :=
         Js.sort Js.byTime (map (fun event => newDate (Event.event_date event)) events) in
       earliest <- toISOString (hd None eventDates) ;;
       latest <- toISOString (last eventDates None) ;;
       updateMemoryLane memoryLaneId
         (MemoryLaneUpdates.date_range (Some earliest) (Some latest)) ;;;
       ret {| start := Some earliest; end_ := Some latest |})
    (fun err => console_error "Error updating date range:" err ;;; throw err).

Definition formatDateRange (startDate endDate : option string) : string :=
  if Js.falsy_str startDate then "No events yet" else
  let start := newDate (dflt startDate "") in
  let end_ :=
    if Js.falsy_str endDate then start
    else newDate (dflt endDate "") in
  (* same month and year *)
  if Js.strict_eq (Js.getFullYear tz start) (Js.getFullYear tz end_)
     && Js.strict_eq (Js.getMonth tz start) (Js.getMonth tz end_)
  then Js.toLocaleDateString tz true start
  (* same year *)
  else if Js.strict_eq (Js.getFullYear tz start) (Js.getFullYear tz end_)
  then Js.toLocaleDateString tz false start ++ " - "
       ++ Js.toLocaleDateString tz true end_
  (* different years *)
  else Js.toLocaleDateString tz true start ++ " - "
       ++ Js.toLocaleDateString tz true end_.

(** ** eventService.ts *)

Definition live_event (id : string) (e : Event.t) : bool :=
  (Event.id e =? id)%string && is_null (Event.deleted_at e).

Definition getEventById (id : string) : M (option Event.t) :=
  r <- events_single (live_event id) ;;
  match error r with
  | Some e =>
      if (code e =? "PGRST116")%string then ret None else throw (Pg e)
  | None => ret (data r)
  end.

(** The [try { await updateDateRange(lane) } catch (err) { console.error }]
    that ends the three event mutations. *)
Definition refresh_date_range (lane : string) : M unit :=
  try_catch (updateDateRange lane ;;; ret tt)
    (fun err => console_error "Error updating memory lane date range:" err).

(** [createEvent].  The source stores the position it computes in the
    caller's [event] object before spreading it into the row; here the
    position goes to the insert directly.  A caller that passes the same
    object again passes an [event] that carries that position. *)
Definition createEvent (event : NewEvent.t) : M (option Event.t) :=
  t <- Date_now_toISOString ;;
  id <- uuidv4 ;;
  order_position <-
    (if Js.falsy_num (NewEvent.order_position event) then
       r <- events_select (live_in (NewEvent.memory_lane_id event))
              (Some false) (Some 1%nat) ;;
       match error r with
       | Some e => throw (Pg e)
       | None =>
           ret (match first r with
                | Some top => Js.plus_one (Event.order_position top)
                | None => 1
                end)
       end
     else ret (dflt (NewEvent.order_position event) 0)) ;;
  r <- events_insert
         (Event.mk id (NewEvent.memory_lane_id event) (NewEvent.title event)
            (NewEvent.event_date event) order_position
            (NewEvent.description event) (NewEvent.location event)
            (Some t) (Some t) None) ;;
  match error r with
  | Some e => throw (Pg e)
  | None =>
      refresh_date_range (NewEvent.memory_lane_id event) ;;;
      ret (first r)
  end.

Definition updateEvent (id : string) (updates : EventUpdates.t)
    : M (option Event.t) :=
  currentEvent <- getEventById id ;;
  match currentEvent with
  | None => throw (Error "Event not found")
  | Some currentEvent =>
      t <- Date_now_toISOString ;;
      r <- events_update (live_event id) (EventUpdates.apply updates t) ;;
      match error r with
      | Some e => throw (Pg e)
      | None =>
          (if negb (Js.falsy_str (EventUpdates.event_date updates))
           then refresh_date_range (Event.memory_lane_id currentEvent)
           else ret tt) ;;;
          ret (first r)
      end
  end.

Definition soft_delete (t : string) (e : Event.t) : Event.t :=
  Event.mk (Event.id e) (Event.memory_lane_id e) (Event.title e)
    (Event.event_date e) (Event.order_position e) (Event.description e)
    (Event.location e) (Event.created_at e) (Some t) (Some t).

Definition deleteEvent (id : string) : M unit :=
  currentEvent <- getEventById id ;;
  match currentEvent with
  | None => throw (Error "Event not found")
  | Some currentEvent =>
      t <- Date_now_toISOString ;;
      r <- events_update (fun e => (Event.id e =? id)%string) (soft_delete t) ;;
      match error r with
      | Some e => throw (Pg e)
      | None => refresh_date_range (Event.memory_lane_id currentEvent)
      end
  end.

Definition reposition (p : Z) (t : string) (e : Event.t) : Event.t :=
  Event.mk (Event.id e) (Event.memory_lane_id e) (Event.title e)
    (Event.event_date e) p (Event.description e) (Event.location e)
    (Event.created_at e) (Some t) (Event.deleted_at e).

Definition reorderEvents (memoryLaneId : string) (eventOrders : list (string * Z))
    : M unit :=
  t <- Date_now_toISOString ;;
  let updatePromises :=
    map (fun '(id, order_position) =>
           events_update
             (fun e => (Event.id e =? id)%string && live_in memoryLaneId e)
             (reposition order_position t))
        eventOrders in
  Promise_all updatePromises ;;; ret tt.

Definition of_event (eventId : string) (i : Image.t) : bool :=
  (Image.event_id i =? eventId)%string.

Definition has_id (id : string) (i : Image.t) : bool :=
  (Image.id i =? id)%string.

(** [for (const img of images) await update({ order_position:
    img.order_position + 1 }).eq('id', img.id)]; the responses are not
    looked at. *)
Fixpoint shift_each (imgs : list Image.t) : M unit :=
  match imgs with
  | [] => ret tt
  | img :: rest =>
      images_update (has_id (Image.id img))
        (Image.at_position (Js.plus_one (Image.order_position img))) ;;;
      shift_each rest
  end.

Definition addEventImage (eventId imageUrl : string) (altText : option string)
    (isPrimary : bool) : M Image.t :=
  id <- uuidv4 ;;
  try_catch
    (r <- images_select (of_event eventId) (Some false) (Some 1%nat) ;;
     match error r with
     | Some e => throw (Pg e)
     | None =>
         let orderPosition :=
           match first r with
           | Some top => Js.plus_one (Image.order_position top)
           | None => 1
           end in
         orderPosition <-
           (if isPrimary then
              s <- rpc_shift_image_positions eventId ;;
              match error s with
              | Some shiftError =>
                  console_warn "Error shifting positions, continuing with insert:"
                    (Pg shiftError) ;;;
                  f <- images_select (of_event eventId) None None ;;
                  match error f, data f with
                  | None, Some imgs => shift_each imgs
                  | _, _ => ret tt
                  end
              | None => ret tt
              end ;;;
              ret 0
            else ret orderPosition) ;;
         t <- Date_now_toISOString ;;
         let row := Image.mk id eventId imageUrl None altText orderPosition (Some t) in
         r <- images_insert row ;;
         match error r with
         | Some e => throw (Pg e)
         | None =>
             match first r with
             | Some result => ret result
             | None => throw (Error "Cannot read properties of undefined")
             end
         end
     end)
    (fun err => console_error "Error adding event image:" err ;;; throw err).

(** The loop of [setPrimaryImage], with its counter [position]; the
    responses are not looked at.  The counter starts at 1 and counts the
    rows of one response, far fewer than 2^53: [position++] is exact. *)
Fixpoint renumber (imageId : string) (position : Z) (imgs : list Image.t) : M unit :=
  match imgs with
  | [] => ret tt
  | image :: rest =>
      if negb (Image.id image =? imageId)%string then
        images_update (has_id (Image.id image)) (Image.at_position position) ;;;
        renumber imageId (position + 1) rest
      else renumber imageId position rest
  end.

Definition setPrimaryImage (imageId eventId : string) : M unit :=
  try_catch
    (f <- images_select (of_event eventId) (Some true) None ;;
     match error f with
     | Some fetchError => throw (Pg fetchError)
     | None =>
         u <- images_update (has_id imageId) (Image.at_position 0) ;;
         match error u with
         | Some updateError => throw (Pg updateError)
         | None => renumber imageId 1 (rows f)
         end
     end)
    (fun err => console_error "Error setting primary image:" err ;;; throw err).

End Services.

(* ================================================================== *)
(** * Vocabulary of the statements *)
(* ================================================================== *)

(** The lanes whose recomputation a trace records, oldest first. *)
Fixpoint recomputes (t : list Mark) : list string :=
  match t with
  | [] => []
  | Recompute lane :: t' => lane :: recomputes t'
  | Committed _ :: t' => recomputes t'
  end.

(** [p] is the position an append gives next to siblings at positions
    [ps]: 1 when there are none, else their maximum plus 1. *)
Definition appended_after (ps : list Z) (p : Z) : Prop :=
  (ps = [] /\ p = 1)
  \/ (exists m, In m ps /\ (forall q, In q ps -> q <= m) /\ p = m + 1).

(** The same with the sum as JavaScript computes it: 1 when there are no
    siblings, else the float nearest to their maximum plus 1. *)
Definition next_position (ps : list Z) (p : Z) : Prop :=
  (ps = [] /\ p = 1)
  \/ (exists m, In m ps /\ (forall q, In q ps -> q <= m) /\ p = Js.plus_one m).

(** The greatest of a list of positions. *)
Definition greatest (ps : list Z) : option Z :=
  match ps with
  | [] => None
  | p :: ps' => Some (fold_right Z.max p ps')
  end.

(** The greatest position, if there is one, is a safe integer: its
    magnitude is at most 2^53 - 1, so that adding 1 to it is exact. *)
Definition safe_top (ps : list Z) : bool :=
  match greatest ps with
  | None => true
  | Some m => Js.isSafeInteger m
  end.

(** Positions of the live events of a lane, and of the images of an
    event. *)
Definition lane_positions (lane : string) (w : World) : list Z :=
  map Event.order_position (filter (live_in lane) (events w)).

Definition gallery_positions (eventId : string) (w : World) : list Z :=
  map Image.order_position (filter (of_event eventId) (images w)).

(** An append: [createEvent] with no usable position, or [addEventImage]
    with [isPrimary = false]. *)
Inductive Append :=
| AppendEvent (event : NewEvent.t)
| AppendImage (eventId imageUrl : string) (altText : option string).

Definition positionless (op : Append) : Prop :=
  match op with
  | AppendEvent event => Js.falsy_num (NewEvent.order_position event) = true
  | AppendImage _ _ _ => True
  end.

(** One append run to completion; its caller sees the result, the next
    operation starts from the world it leaves. *)
Definition perform (newDate : string -> Js.Date) (op : Append) (w : World) : World :=
  match op with
  | AppendEvent event => snd (createEvent newDate event w)
  | AppendImage eventId imageUrl altText =>
      snd (addEventImage eventId imageUrl altText false w)
  end.

Fixpoint run_appends (newDate : string -> Js.Date) (ops : list Append) (w : World)
    : World :=
  match ops with
  | [] => w
  | op :: ops' => run_appends newDate ops' (perform newDate op w)
  end.

(** The positions an append reads: those of the siblings it joins. *)
Definition siblings (op : Append) (w : World) : list Z :=
  match op with
  | AppendEvent event => lane_positions (NewEvent.memory_lane_id event) w
  | AppendImage eventId _ _ => gallery_positions eventId w
  end.

(** Along the run, every append reads a greatest position that is a safe
    integer. *)
Fixpoint safe_run (newDate : string -> Js.Date) (ops : list Append) (w : World)
    : bool :=
  match ops with
  | [] => true
  | op :: ops' =>
      safe_top (siblings op w) && safe_run newDate ops' (perform newDate op w)
  end.

(** There is room for [n] appends: every stored position is a safe
    integer and remains one when [n] is added to it. *)
Definition room (n : nat) (w : World) : Prop :=
  Z.of_nat n <= Js.MAX_SAFE_INTEGER
  /\ (forall e, In e (events w) ->
        - Js.MAX_SAFE_INTEGER <= Event.order_position e
        /\ Event.order_position e + Z.of_nat n <= Js.MAX_SAFE_INTEGER)
  /\ (forall i, In i (images w) ->
        - Js.MAX_SAFE_INTEGER <= Image.order_position i
        /\ Image.order_position i + Z.of_nat n <= Js.MAX_SAFE_INTEGER).

(** The value an awaited call resolved to, if it did. *)
Definition resolved A (x : Result A * World) : option A :=
  match fst x with
  | Ok a => Some a
  | Throw _ => None
  end.

(** The dates the aggregator reads for a lane: those of its live events. *)
Definition lane_dates (newDate : string -> Js.Date) (lane : string) (w : World)
    : list Js.Date :=
  map (fun e => newDate (Event.event_date e)) (filter (live_in lane) (events w)).

(** The stored bounds of every lane row. *)
Definition bounds (w : World) : list (string * option string * option string) :=
  map (fun l => (MemoryLane.id l, MemoryLane.date_range_start l,
                 MemoryLane.date_range_end l))
      (memory_lanes w).

(** [r] is the range of the dates [ds]: both bounds null when there is
    none, else the ISO forms of the earliest and of the latest. *)
Definition range_of (ds : list Js.Date) (r : DateRange) : Prop :=
  match ds with
  | [] => start r = None /\ end_ r = None
  | _ :: _ =>
      exists lo hi,
        In (Some lo) ds /\ In (Some hi) ds
        /\ (forall t, In (Some t) ds -> lo <= t <= hi)
        /\ start r = Js.toISOString (Some lo)
        /\ end_ r = Js.toISOString (Some hi)
  end.

(** The update [updateDateRange] sends for a range. *)
Definition store_range (r : DateRange) (t : string) : MemoryLane.t -> MemoryLane.t :=
  MemoryLaneUpdates.apply (MemoryLaneUpdates.date_range (start r) (end_ r)) t.

(** The requests a [createEvent] sends on its own account: the read of the
    greatest position, when the caller gave none, and the insert. *)
Definition own_requests (event : NewEvent.t) : list (option PostgrestError) :=
  if Js.falsy_num (NewEvent.order_position event) then [None; None] else [None].

Definition recompute_failed : string := "Error updating memory lane date range:".

(** ** Position writes of the image loops, as data *)

(** The position a list of writes gives to a row id (the first write to
    that id). *)
Definition assoc (id : string) (ups : list (string * Z)) : option Z :=
  option_map snd (find (fun u => (fst u =? id)%string) ups).

(** The table after [update({ order_position: p }).eq('id', id)] for each
    [(id, p)] in turn. *)
Definition write_positions (ups : list (string * Z)) (tbl : list Image.t)
    : list Image.t :=
  fold_left (fun t u => amend (has_id (fst u)) (Image.at_position (snd u)) t) ups tbl.

(** The writes the loop of [setPrimaryImage] sends. *)
Fixpoint renumbering (imageId : string) (position : Z) (imgs : list Image.t)
    : list (string * Z) :=
  match imgs with
  | [] => []
  | image :: rest =>
      if negb (Image.id image =? imageId)%string
      then (Image.id image, position) :: renumbering imageId (position + 1) rest
      else renumbering imageId position rest
  end.

(** The writes the fallback loop of [addEventImage] sends. *)
Definition shifting (imgs : list Image.t) : list (string * Z) :=
  map (fun img => (Image.id img, Js.plus_one (Image.order_position img))) imgs.

(** The siblings of the promoted image, as [setPrimaryImage] reads them:
    in ascending order of position, the promoted one left out. *)
Definition others (imageId eventId : string) (w : World) : list Image.t :=
  filter (fun i => negb (has_id imageId i))
    (ordered Image.order_position true (filter (of_event eventId) (images w))).

(** Every image of the event sits at a safe integer. *)
Definition safe_gallery (eventId : string) (tbl : list Image.t) : bool :=
  forallb (fun i => Js.isSafeInteger (Image.order_position i))
    (filter (of_event eventId) tbl).

(** Every sibling one position up. *)
Definition shifted (eventId : string) (tbl : list Image.t) : list Image.t :=
  map (fun i => if of_event eventId i
                then Image.at_position (Image.order_position i + 1) i
                else i) tbl.

(* ================================================================== *)
(** * Concrete data for runs *)
(* ================================================================== *)

Module Demo.
Definition ids (n : nat) : string := "id-" ++ Js.dec (Z.of_nat n).

Definition utc (t : Z) : Z := 0.

(** Five hours west of UTC throughout. *)
Definition est (t : Z) : Z := -300.

Definition lane : MemoryLane.t :=
  MemoryLane.mk "L" "u" "Trip" None None true None None None None None.

Definition event (id date : string) (pos : Z) : Event.t :=
  Event.mk id "L" "title" date pos None None None None None.

Definition image (id : string) (pos : Z) : Image.t :=
  Image.mk id "E" "url" None None pos None.

Definition world (evs : list Event.t) (imgs : list Image.t)
    (fs : list (option PostgrestError)) : World :=
  mkWorld evs imgs [lane] None fs "2024-01-01T00:00:00.000Z" ids 0 [] [].

(** The same world over a database that has a stored procedure
    [shift_image_positions]. *)
Definition world_with (f : string -> list Image.t -> list Image.t)
    (evs : list Event.t) (imgs : list Image.t)
    (fs : list (option PostgrestError)) : World :=
  mkWorld evs imgs [lane] (Some f) fs "2024-01-01T00:00:00.000Z" ids 0 [] [].

Definition new_event (date : string) (pos : option Z) : NewEvent.t :=
  NewEvent.mk "L" "title" date pos None None.

Definition down : PostgrestError := {| code := "08006"; message := "connection failure" |}.

Definition positions (w : World) : list (string * Z) :=
  map (fun e => (Event.id e, Event.order_position e)) (events w).

Definition gallery (w : World) : list (string * Z) :=
  map (fun i => (Image.id i, Image.order_position i)) (images w).

(** 2^53, the first integer whose successor a number cannot hold. *)
Definition two53 : Z := 9007199254740992.
End Demo.

(* ================================================================== *)
(** * The remaining operations of the two services *)
(* ================================================================== *)

(** [.delete().eq(..)]: the matching rows leave the table. *)
Definition events_delete (cond : Event.t -> bool) : M (Response unit) :=
  request (fun w =>
    (success tt,
     mark (Committed "events")
       (set_events (filter (fun e => negb (cond e)) (events w)) w))).

Definition images_delete (cond : Image.t -> bool) : M (Response unit) :=
  request (fun w =>
    (success tt,
     mark (Committed "images")
       (set_images (filter (fun i => negb (cond i)) (images w)) w))).

Definition memory_lanes_delete (cond : MemoryLane.t -> bool) : M (Response unit) :=
  request (fun w =>
    (success tt,
     mark (Committed "memory_lanes")
       (set_memory_lanes (filter (fun l => negb (cond l)) (memory_lanes w)) w))).

Definition memory_lanes_insert (l : MemoryLane.t) : M (Response (list MemoryLane.t)) :=
  request (fun w =>
    (success [l],
     mark (Committed "memory_lanes") (set_memory_lanes (memory_lanes w ++ [l])%list w))).

Definition memory_lanes_single cond : M (Response MemoryLane.t) :=
  request (fun w =>
    match filter cond (memory_lanes w) with
    | [l] => (success l, w)
    | _ => (failure PGRST116, w)
    end).

(** An image as [getEventImages] hands it out: the row and the virtual
    [is_primary]. *)
Module ImageView.
Record t := mk { row : Image.t; is_primary : bool }.
End ImageView.

(** The argument of [createMemoryLane]: [Omit<MemoryLane, 'id' |
    'created_at' | 'updated_at' | 'deleted_at' | 'date_range_start' |
    'date_range_end'>]. *)
Module NewMemoryLane.
Record t := mk {
  user_id : string;
  title : string;
  description : option string;
  cover_image_url : option string;
  is_public : bool }.
End NewMemoryLane.

(** ** eventService.ts *)

Definition hardDeleteEvent (id : string) : M unit :=
  r <- events_delete (fun e => (Event.id e =? id)%string) ;;
  match error r with
  | Some e => throw (Pg e)
  | None => ret tt
  end.

Definition getEventImages (eventId : string) : M (list ImageView.t) :=
  r <- images_select (of_event eventId) (Some true) None ;;
  match error r with
  | Some e => throw (Pg e)
  | None =>
      ret (map (fun img => ImageView.mk img (Image.order_position img =? 0)) (rows r))
  end.

Definition deleteImage (id : string) : M unit :=
  r <- images_delete (has_id id) ;;
  match error r with
  | Some e => throw (Pg e)
  | None => ret tt
  end.

(** ** memoryLaneService.ts *)

Definition getMemoryLaneById (id : string) : M (option MemoryLane.t) :=
  r <- memory_lanes_single (live_lane id) ;;
  match error r with
  | Some e =>
      if (code e =? "PGRST116")%string then ret None else throw (Pg e)
  | None => ret (data r)
  end.

(** The columns the insert leaves out ([date_range_start],
    [date_range_end], [deleted_at]) are null in the new row. *)
Definition createMemoryLane (memoryLane : NewMemoryLane.t) : M (option MemoryLane.t) :=
  t <- Date_now_toISOString ;;
  id <- uuidv4 ;;
  r <- memory_lanes_insert
         (MemoryLane.mk id (NewMemoryLane.user_id memoryLane)
            (NewMemoryLane.title memoryLane) (NewMemoryLane.description memoryLane)
            (NewMemoryLane.cover_image_url memoryLane)
            (NewMemoryLane.is_public memoryLane) None None (Some t) (Some t) None) ;;
  match error r with
  | Some e => throw (Pg e)
  | None => ret (first r)
  end.

Definition retire (t : string) (l : MemoryLane.t) : MemoryLane.t :=
  MemoryLane.mk (MemoryLane.id l) (MemoryLane.user_id l) (MemoryLane.title l)
    (MemoryLane.description l) (MemoryLane.cover_image_url l)
    (MemoryLane.is_public l) (MemoryLane.date_range_start l)
    (MemoryLane.date_range_end l) (MemoryLane.created_at l) (Some t) (Some t).

Definition deleteMemoryLane (id : string) : M unit :=
  t <- Date_now_toISOString ;;
  r <- memory_lanes_update (fun l => (MemoryLane.id l =? id)%string) (retire t) ;;
  match error r with
  | Some e => throw (Pg e)
  | None => ret tt
  end.

Definition hardDeleteMemoryLane (id : string) : M unit :=
  r <- memory_lanes_delete (fun l => (MemoryLane.id l =? id)%string) ;;
  match error r with
  | Some e => throw (Pg e)
  | None => ret tt
  end.

Definition setCoverImage (id imageUrl : string) : M (option MemoryLane.t) :=
  updateMemoryLane id
    (MemoryLaneUpdates.mk None None (Some (Some imageUrl)) None None None).

(** ** The pages that call the services *)

(** Loading a lane's timeline: [getMemoryLaneEvents], then
    [eventsData.sort((a, b) => a.order_position - b.order_position)]. *)
Definition loadLaneEvents (laneId : string) : M (list Event.t) :=
  eventsData <- getMemoryLaneEvents laneId ;;
  ret (Js.sort (fun a b => Some (Event.order_position a - Event.order_position b))
         eventsData).

(** The image loop of the creation page: one [addEventImage] per uploaded
    file, [j === 0] marking the first as primary.  A file is given by the
    public URL its upload returned and by its name, used as alt text. *)
Fixpoint addImages (eventId : string) (isFirst : bool)
    (files : list (string * string)) : M unit :=
  match files with
  | [] => ret tt
  | (imageUrl, name) :: rest =>
      addEventImage eventId imageUrl (Some name) isFirst ;;;
      addImages eventId false rest
  end.

(** ** Vocabulary of the further statements *)

(** The positions [first], [first + 1], ... of [n] rows. *)
Fixpoint count_from (first : Z) (n : nat) : list Z :=
  match n with
  | O => []
  | S n' => first :: count_from (first + 1) n'
  end.
(* ================================================================== *)
(** * Runs of the calendar functions *)
(* ================================================================== *)

Unset Implicit Arguments.

Example toISOString_epoch :
  Js.toISOString (Some 0) = Some "1970-01-01T00:00:00.000Z".
Proof. reflexivity. Qed.

Example toISOString_2023 :
  Js.toISOString (Js.parseISO "2023-06-20") = Some "2023-06-20T00:00:00.000Z".
Proof. vm_compute. reflexivity. Qed.

Example parseISO_roundtrip :
  option_map (fun s => Js.parseISO s) (Js.toISOString (Some 1700000000123))
  = Some (Some 1700000000123).
Proof. vm_compute. reflexivity. Qed.

Example parseISO_leap :
  Js.parseISO "2024-02-29" = Some 1709164800000 /\ Js.parseISO "2023-02-29" = None.
Proof. vm_compute. split; reflexivity. Qed.

(* ================================================================== *)
(** * Facts about the runtime's sort and the query operators *)
(* ================================================================== *)

Section SortFacts.
Variable A : Type.

Lemma insert_perm (cmp : A -> A -> option Z) x l :
  Permutation (Js.insert cmp x l) (x :: l).
Proof.
  induction l as [|y l IH]; simpl; [reflexivity|].
  destruct (Js.after cmp x y); [|reflexivity].
  rewrite IH. apply perm_swap.
Qed.

Lemma sort_perm (cmp : A -> A -> option Z) l : Permutation (Js.sort cmp l) l.
Proof.
  induction l as [|x l IH]; simpl; [constructor|].
  rewrite insert_perm. now constructor.
Qed.

Lemma sort_ext (cmp cmp' : A -> A -> option Z) l :
  (forall a b, cmp a b = cmp' a b) -> Js.sort cmp l = Js.sort cmp' l.
Proof.
  intros E. induction l as [|x l IH]; simpl; [reflexivity|].
  rewrite IH. generalize (Js.sort cmp' l). intros s.
  induction s as [|y s IHs]; simpl; [reflexivity|].
  unfold Js.after. rewrite E, IHs. reflexivity.
Qed.

(** A comparator that subtracts integer keys sorts by the key. *)
Variable key : A -> Z.
Let by_key (a b : A) : option Z := Some (key a - key b).
Let le (a b : A) : Prop := key a <= key b.

Lemma insert_sorted x l :
  StronglySorted le l -> StronglySorted le (Js.insert by_key x l).
Proof.
  induction 1 as [|y l S IH F]; simpl.
  - repeat constructor.
  - unfold Js.after, by_key. destruct (0 <? key x - key y) eqn:E.
    + constructor; [exact IH|].
      rewrite insert_perm.
      constructor; [unfold le; lia | exact F].
    + constructor; [now constructor|].
      constructor; [unfold le; lia|].
      eapply Forall_impl; [|exact F]. unfold le. intros; lia.
Qed.

Lemma sort_sorted l : StronglySorted le (Js.sort by_key l).
Proof.
  induction l as [|x l IH]; simpl; [constructor | now apply insert_sorted].
Qed.
End SortFacts.

Lemma sort_map A B (f : A -> B) (cmp : A -> A -> option Z) (cmp' : B -> B -> option Z) l :
  (forall a b, cmp' (f a) (f b) = cmp a b) ->
  Js.sort cmp' (map f l) = map f (Js.sort cmp l).
Proof.
  intros E. induction l as [|x l IH]; simpl; [reflexivity|].
  rewrite IH. generalize (Js.sort cmp l). intros s.
  induction s as [|y s IHs]; simpl; [reflexivity|].
  unfold Js.after. rewrite E.
  destruct (cmp x y) as [v|]; [destruct (0 <? v)|]; simpl; now rewrite ?IHs.
Qed.

Lemma sorted_hd_least A (R : A -> A -> Prop) (d : A) l :
  (forall a, R a a) -> StronglySorted R l -> forall x, In x l -> R (hd d l) x.
Proof.
  intros Rfl S x Hx. destruct S as [|y l S F]; [destruct Hx|].
  simpl. destruct Hx as [->|Hx]; [apply Rfl|].
  rewrite Forall_forall in F. now apply F.
Qed.

Lemma sorted_last_greatest A (R : A -> A -> Prop) (d : A) l :
  (forall a, R a a) -> StronglySorted R l -> forall x, In x l -> R x (last l d).
Proof.
  intros Rfl S. induction S as [|y l S IH F]; intros x Hx; [destruct Hx|].
  destruct l as [|z l].
  - destruct Hx as [->|[]]. apply Rfl.
  - change (last (y :: z :: l) d) with (last (z :: l) d).
    destruct Hx as [->|Hx]; [|now apply IH].
    rewrite Forall_forall in F. apply F.
    clear. generalize z. induction l as [|a l IHl]; intros z0; simpl; [now left|].
    right. apply (IHl a).
Qed.

Lemma hd_In A (d : A) l : l <> [] -> In (hd d l) l.
Proof. destruct l; [congruence | now left]. Qed.

Lemma last_In A (d : A) l : l <> [] -> In (last l d) l.
Proof.
  induction l as [|x l IH]; [congruence|]. intros _.
  destruct l as [|y l]; [now left|].
  right. apply IH. discriminate.
Qed.

(** [.order('order_position', { ascending: false }).limit(1)] returns a
    row of greatest position, and nothing only when nothing matches. *)
Lemma top_is_max Row (pos : Row -> Z) cond tbl :
  match query pos cond (Some false) (Some 1%nat) tbl with
  | [] => filter cond tbl = []
  | top :: _ =>
      In top (filter cond tbl)
      /\ forall r, In r (filter cond tbl) -> pos r <= pos top
  end.
Proof.
  unfold query, ordered.
  set (rows := filter cond tbl).
  rewrite (sort_ext _ _ (fun a b => Some ((fun r => - pos r) a - (fun r => - pos r) b)))
    by (intros; f_equal; lia).
  pose proof (sort_sorted _ (fun r => - pos r) rows) as S.
  pose proof (sort_perm _ (fun a b => Some (- pos a - - pos b)) rows) as P.
  destruct (Js.sort _ rows) as [|top rest] eqn:E.
  - simpl. apply Permutation_nil. now symmetry.
  - simpl. split.
    + eapply Permutation_in; [exact P | now left].
    + intros r Hr. apply Permutation_sym in P.
      apply (Permutation_in _ P) in Hr.
      pose proof (@sorted_hd_least _ _ top _ (fun a => Z.le_refl _) S r Hr) as H.
      simpl in H. lia.
Qed.

(* ================================================================== *)
(** * Symbolic execution of the services *)
(* ================================================================== *)

Ltac step_world :=
  cbv beta iota zeta delta
    [bind ret throw try_catch request success failure ghost console_error
     console_warn Date_now_toISOString uuidv4 first rows data error fst snd
     events images memory_lanes shift_image_positions faults now uuids
     drawn console trace set_events set_images set_memory_lanes set_faults
     set_drawn log mark events_select events_single events_insert
     events_update images_select images_insert images_update
     memory_lanes_update rpc_shift_image_positions].

(** Case analysis on an innermost scrutinee of the goal. *)
Ltac case_inner :=
  match goal with
  | |- context [match ?x with _ => _ end] =>
      lazymatch x with
      | context [match _ with _ => _ end] => fail
      | refresh_date_range _ _ _ => fail
      | _ => destruct x eqn:?
      end
  end.

Ltac run_cases := repeat (case_inner; step_world).

Lemma recomputes_app t u : recomputes (t ++ u) = (recomputes t ++ recomputes u)%list.
Proof.
  induction t as [|[tbl|lane] t IH]; simpl; [reflexivity | exact IH | now rewrite IH].
Qed.

(** The best-effort recomputation never throws, touches neither the
    events nor the images, and is recorded once in the trace. *)
Lemma refresh_date_range_spec newDate lane w :
  fst (refresh_date_range newDate lane w) = Ok tt
  /\ events (snd (refresh_date_range newDate lane w)) = events w
  /\ images (snd (refresh_date_range newDate lane w)) = images w
  /\ exists post,
       trace (snd (refresh_date_range newDate lane w))
       = (trace w ++ Recompute lane :: post)%list
       /\ recomputes post = [].
Proof.
  destruct w as [evs imgs lanes sp fs nw uu dr con tr].
  unfold refresh_date_range, updateDateRange, getMemoryLaneEvents,
    updateMemoryLane, toISOString.
  destruct fs as [|[e1|] [|[e2|] fs]]; step_world; run_cases;
    (repeat split; try reflexivity; rewrite <- ?app_assoc; eexists; split;
     [reflexivity | reflexivity]).
Qed.

Ltac meet_refresh :=
  match goal with
  | |- context [refresh_date_range ?d ?l ?W] =>
      let H := fresh "R" in
      pose proof (refresh_date_range_spec d l W) as H;
      destruct (refresh_date_range d l W) as [[[]|?] ?];
      cbn [fst snd events images trace] in H;
      destruct H as (? & ? & ? & ? & ? & ?); try discriminate
  end.

(** Keep the conclusion out of the way while the premise is executed. *)
Ltac shelve_goal :=
  match goal with
  | |- _ -> ?G => set (GOAL := G)
  end.

Ltac trace_shape :=
  match goal with
  | H : trace _ = _ |- _ =>
      etransitivity; [exact H|]; rewrite <- ?app_assoc; reflexivity
  end.

(* ================================================================== *)
(** * Positions as JavaScript numbers *)
(* ================================================================== *)

(** On a safe integer the sum [x + 1] is exact. *)
Lemma plus_one_safe x : Js.isSafeInteger x = true -> Js.plus_one x = x + 1.
Proof.
  unfold Js.isSafeInteger, Js.plus_one, Js.MAX_SAFE_INTEGER. intros S.
  apply andb_true_iff in S. destruct S as [L U].
  apply Z.leb_le in L. apply Z.leb_le in U.
  destruct (Z.eq_dec x 9007199254740991) as [->|N]; [vm_compute; reflexivity|].
  unfold Js.nearest, Js.MAX_SAFE_INTEGER.
  replace (Z.abs (x + 1) <=? 9007199254740991) with true; [reflexivity|].
  symmetry. apply Z.leb_le. lia.
Qed.

(** Beyond the safe integers it is not: 2^53 + 1 is 2^53, and from there
    on only every second integer is a number. *)
Example plus_one_beyond_safe :
  Js.plus_one 9007199254740991 = 9007199254740992
  /\ Js.plus_one 9007199254740992 = 9007199254740992
  /\ Js.plus_one 9007199254740994 = 9007199254740996
  /\ Js.plus_one (-9007199254740992) = -9007199254740991
  /\ Js.plus_one (-9007199254740994) = -9007199254740992.
Proof. vm_compute. repeat split. Qed.

(** Rounding keeps the sign. *)
Lemma nearest_pos n : 0 < n -> 0 < Js.nearest n.
Proof.
  intros P. unfold Js.nearest.
  destruct (Z.abs n <=? Js.MAX_SAFE_INTEGER) eqn:A; [exact P|].
  apply Z.leb_gt in A. unfold Js.MAX_SAFE_INTEGER in A.
  rewrite (Z.abs_eq n) in * by lia.
  rewrite (Z.sgn_pos n P), Z.mul_1_l.
  assert (L : 53 <= Z.log2 n).
  { apply Z.log2_le_pow2; [exact P|]. change (2 ^ 53) with 9007199254740992. lia. }
  set (e := Z.log2 n - 52).
  assert (E : 0 <= e) by (unfold e; lia).
  assert (Q : 1 <= Z.shiftr n e).
  { rewrite Z.shiftr_div_pow2 by exact E.
    apply Z.div_le_lower_bound; [apply Z.pow_pos_nonneg; lia|].
    rewrite Z.mul_1_r.
    transitivity (2 ^ Z.log2 n).
    - apply Z.pow_le_mono_r; unfold e; lia.
    - now apply Z.log2_spec. }
  rewrite Z.shiftl_mul_pow2 by exact E.
  apply Z.mul_pos_pos; [|apply Z.pow_pos_nonneg; lia].
  destruct (_ || _); lia.
Qed.

Lemma nearest_opp n : Js.nearest (- n) = - Js.nearest n.
Proof.
  unfold Js.nearest. rewrite Z.abs_opp.
  destruct (Z.abs n <=? Js.MAX_SAFE_INTEGER); [reflexivity|].
  rewrite Z.sgn_opp. lia.
Qed.

(** [x + 1] is 0 for [x = -1] only, and positive for [x >= 0], however
    large [x] is. *)
Lemma plus_one_zero m : Js.plus_one m = 0 -> m = -1.
Proof.
  unfold Js.plus_one. intros E.
  destruct (Z.lt_trichotomy (m + 1) 0) as [N|[Z0|P]]; [|lia|].
  - pose proof (nearest_pos (- (m + 1)) ltac:(lia)) as Q.
    rewrite nearest_opp in Q. lia.
  - pose proof (nearest_pos (m + 1) P). lia.
Qed.

Lemma plus_one_pos m : 0 <= m -> 1 <= Js.plus_one m.
Proof.
  intros P. pose proof (nearest_pos (m + 1) ltac:(lia)). unfold Js.plus_one. lia.
Qed.

Lemma fold_max_ge p ps q : q = p \/ In q ps -> q <= fold_right Z.max p ps.
Proof.
  induction ps as [|x ps IH]; simpl.
  - intros [->|[]]. lia.
  - intros [->|[->|I]].
    + specialize (IH (or_introl eq_refl)). lia.
    + lia.
    + specialize (IH (or_intror I)). lia.
Qed.

Lemma fold_max_in p ps : In (fold_right Z.max p ps) (p :: ps).
Proof.
  induction ps as [|x ps IH]; simpl; [now left|].
  destruct (Z.max_spec x (fold_right Z.max p ps)) as [[_ ->]|[_ ->]].
  - destruct IH as [E|I]; [now left | now right; right].
  - right. now left.
Qed.

Lemma greatest_spec ps m :
  In m ps -> (forall q, In q ps -> q <= m) -> greatest ps = Some m.
Proof.
  destruct ps as [|p ps]; [intros []|]. intros I G. simpl. f_equal.
  pose proof (fold_max_in p ps) as F. apply G in F.
  assert (m <= fold_right Z.max p ps); [|lia].
  apply fold_max_ge. destruct I as [->|I]; [now left | now right].
Qed.

(** Where the greatest position is a safe integer the append takes the
    exact maximum plus 1. *)
Lemma next_position_exact ps p :
  safe_top ps = true -> next_position ps p -> appended_after ps p.
Proof.
  intros S [[-> ->]|(m & I & G & ->)]; [now left|]. right.
  exists m. split; [exact I|]. split; [exact G|].
  apply plus_one_safe. unfold safe_top in S.
  now rewrite (greatest_spec ps m I G) in S.
Qed.

(** What [createEvent] does to the world, whatever requests fail. *)
Lemma createEvent_effect newDate event w r w' :
  createEvent newDate event w = (r, w') ->
  images w' = images w
  /\ ((exists x, r = Throw x) /\ events w' = events w /\ recomputes (trace w') = recomputes (trace w)
      \/ exists e post,
           r = Ok (Some e)
           /\ events w' = (events w ++ [e])%list
           /\ Event.memory_lane_id e = NewEvent.memory_lane_id event
           /\ Event.deleted_at e = None
           /\ (if Js.falsy_num (NewEvent.order_position event)
               then next_position
                      (lane_positions (NewEvent.memory_lane_id event) w)
                      (Event.order_position e)
               else NewEvent.order_position event = Some (Event.order_position e))
           /\ trace w'
              = (trace w ++ [Committed "events"; Recompute (NewEvent.memory_lane_id event)]
                 ++ post)%list
           /\ recomputes post = []).
Proof.
  destruct w as [evs imgs lanes sp fs nw uu dr con tr].
  unfold createEvent, lane_positions.
  destruct (Js.falsy_num (NewEvent.order_position event)) eqn:F.
  - pose proof (top_is_max _ Event.order_position
                  (live_in (NewEvent.memory_lane_id event)) evs) as T.
    destruct fs as [|[e1|] [|[e2|] fs]]; step_world;
      try (intros [= <- <-]; split; [reflexivity|left]; repeat split; eauto; fail).
    all: destruct (query _ _ _ _ evs) as [|top rest] eqn:Q; step_world;
      try (intros [= <- <-]; split; [reflexivity|left]; repeat split; eauto; fail).
    all: meet_refresh; intros [= <- <-]; cbn [images events trace] in *;
      (split; [assumption|right]); do 2 eexists;
      (split; [reflexivity|]); (split; [eassumption|]);
      cbn [app Event.memory_lane_id Event.deleted_at Event.order_position].
    all: repeat split; try reflexivity; try eassumption.
    all: try (left; split; [now rewrite T | reflexivity]).
    all: try (right; exists (Event.order_position top); destruct T as [T1 T2];
              split; [now apply in_map|]; split; [|reflexivity];
              intros q Hq; apply in_map_iff in Hq; destruct Hq as (s & <- & Hs);
              now apply T2).
    all: trace_shape.
  - destruct (NewEvent.order_position event) as [p|] eqn:P; [|discriminate].
    destruct fs as [|[e1|] fs]; step_world;
      try (intros [= <- <-]; split; [reflexivity|left]; repeat split; eauto; fail).
    all: meet_refresh; intros [= <- <-]; cbn [images events trace] in *;
      (split; [assumption|right]); do 2 eexists;
      (split; [reflexivity|]); (split; [eassumption|]);
      cbn [app Event.memory_lane_id Event.deleted_at Event.order_position].
    all: repeat split; try reflexivity; try eassumption.
    all: trace_shape.
Qed.

(** What a non-primary [addEventImage] does to the world, whatever
    requests fail. *)
Lemma addEventImage_append_effect eventId imageUrl altText w r w' :
  addEventImage eventId imageUrl altText false w = (r, w') ->
  events w' = events w
  /\ ((exists x, r = Throw x) /\ images w' = images w
      \/ exists i,
           r = Ok i
           /\ images w' = (images w ++ [i])%list
           /\ Image.event_id i = eventId
           /\ next_position (gallery_positions eventId w) (Image.order_position i)).
Proof.
  destruct w as [evs imgs lanes sp fs nw uu dr con tr].
  unfold addEventImage, gallery_positions.
  pose proof (top_is_max _ Image.order_position (of_event eventId) imgs) as T.
  destruct fs as [|[e1|] [|[e2|] fs]]; step_world;
    try (intros [= <- <-]; split; [reflexivity|left]; split; eauto; fail).
  all: destruct (query _ _ _ _ imgs) as [|top rest] eqn:Q; step_world;
    intros [= <- <-]; (split; [reflexivity|]);
    try (left; split; eauto; fail).
  all: right; eexists; (split; [reflexivity|]); (split; [reflexivity|]);
    (split; [reflexivity|]); cbn [Image.order_position images].
  all: try (left; split; [now rewrite T | reflexivity]).
  all: right; exists (Image.order_position top); destruct T as [T1 T2];
    (split; [now apply in_map|]); (split; [|reflexivity]);
    intros q Hq; apply in_map_iff in Hq; destruct Hq as (s & <- & Hs);
    now apply T2.
Qed.

Lemma appended_after_above ps p :
  appended_after ps p -> forall q, In q ps -> q < p.
Proof.
  intros [[-> _]|(m & _ & Hm & ->)] q Hq; [destruct Hq|].
  specialize (Hm q Hq). lia.
Qed.

Lemma createEvent_calm newDate event w :
  faults w = [] -> exists e w', createEvent newDate event w = (Ok (Some e), w').
Proof.
  destruct w as [evs imgs lanes sp fs nw uu dr con tr]. cbn [faults].
  intros ->. unfold createEvent.
  destruct (Js.falsy_num (NewEvent.order_position event)); step_world;
    meet_refresh; eauto.
Qed.

Lemma addEventImage_calm eventId imageUrl altText w :
  faults w = [] ->
  exists i w', addEventImage eventId imageUrl altText false w = (Ok i, w').
Proof.
  destruct w as [evs imgs lanes sp fs nw uu dr con tr]. cbn [faults].
  intros ->. unfold addEventImage. step_world. eauto.
Qed.

(* ================================================================== *)
(** * Appending a sibling *)
(* ================================================================== *)

(** C2, as stated, fails.  The position is the JavaScript sum
    [maxOrderData[0].order_position + 1], and next to a sibling at 2^53
    that sum is 2^53 again: createEvent and addEventImage give the new
    sibling the greatest position read, not a greater one. *)
Lemma append_next_to_two53_repeats_it :
  lane_positions "L" (Demo.world [Demo.event "a" "2023-03-01" Demo.two53] [] [])
  = [9007199254740992]
  /\ option_map (option_map Event.order_position)
       (resolved (createEvent Js.parseISO (Demo.new_event "2023-05-05" None)
                    (Demo.world [Demo.event "a" "2023-03-01" Demo.two53] [] [])))
     = Some (Some 9007199254740992)
  /\ gallery_positions "E" (Demo.world [] [Demo.image "i" Demo.two53] [])
     = [9007199254740992]
  /\ option_map Image.order_position
       (resolved (addEventImage "E" "new-url" None false
                    (Demo.world [] [Demo.image "i" Demo.two53] [])))
     = Some 9007199254740992.
Proof. vm_compute. repeat split. Qed.

(** C2, amended.  An append (createEvent without a position, addEventImage
    with isPrimary = false) that succeeds places the new sibling at
    position 1 when no live sibling was read, and otherwise at the
    JavaScript sum of the greatest live sibling position and 1.  When
    that greatest position is a safe integer (magnitude at most
    2^53 - 1) the sum is exact: the new position is the maximum plus 1 and
    lies above every position read.  When no request fails, the append
    succeeds. *)
Theorem append_takes_max_plus_one :
  (forall newDate event w r w',
      Js.falsy_num (NewEvent.order_position event) = true ->
      createEvent newDate event w = (Ok r, w') ->
      exists e,
        r = Some e /\ In e (events w')
        /\ next_position (lane_positions (NewEvent.memory_lane_id event) w)
             (Event.order_position e)
        /\ (safe_top (lane_positions (NewEvent.memory_lane_id event) w) = true ->
            appended_after (lane_positions (NewEvent.memory_lane_id event) w)
              (Event.order_position e)
            /\ forall q, In q (lane_positions (NewEvent.memory_lane_id event) w) ->
                         q < Event.order_position e))
  /\ (forall eventId imageUrl altText w i w',
      addEventImage eventId imageUrl altText false w = (Ok i, w') ->
      In i (images w')
      /\ next_position (gallery_positions eventId w) (Image.order_position i)
      /\ (safe_top (gallery_positions eventId w) = true ->
          appended_after (gallery_positions eventId w) (Image.order_position i)
          /\ forall q, In q (gallery_positions eventId w) ->
                       q < Image.order_position i))
  /\ (forall newDate event w,
      faults w = [] -> exists e w', createEvent newDate event w = (Ok (Some e), w'))
  /\ (forall eventId imageUrl altText w,
      faults w = [] ->
      exists i w', addEventImage eventId imageUrl altText false w = (Ok i, w')).
Proof.
  split; [|split; [|split]].
  - intros newDate event w r w' F E.
    apply createEvent_effect in E.
    destruct E as (_ & [((x & X) & _)|(e & post & R & Ev & _ & _ & P & _)]);
      [discriminate|].
    injection R as ->. rewrite F in P. exists e.
    split; [reflexivity|]. split; [rewrite Ev; apply in_or_app; right; now left|].
    split; [exact P|]. intros S.
    apply (next_position_exact _ _ S) in P.
    split; [exact P | now apply appended_after_above].
  - intros eventId imageUrl altText w i w' E.
    apply addEventImage_append_effect in E.
    destruct E as (_ & [((x & X) & _)|(j & R & Im & _ & P)]); [discriminate|].
    injection R as ->.
    split; [rewrite Im; apply in_or_app; right; now left|].
    split; [exact P|]. intros S.
    apply (next_position_exact _ _ S) in P.
    split; [exact P | now apply appended_after_above].
  - apply createEvent_calm.
  - apply addEventImage_calm.
Qed.

Lemma append_takes_max_plus_one_witness :
  let w := Demo.world [Demo.event "a" "2023-03-01" 1; Demo.event "b" "2023-01-10" 4]
             [Demo.image "i" 2] [] in
  let event := Demo.new_event "2023-05-05" None in
  Js.falsy_num (NewEvent.order_position event) = true
  /\ safe_top (lane_positions "L" w) = true
  /\ safe_top (gallery_positions "E" w) = true
  /\ (exists r w',
        createEvent Js.parseISO event w = (Ok r, w')
        /\ exists e,
             r = Some e /\ In e (events w')
             /\ appended_after (lane_positions "L" w) (Event.order_position e)
             /\ forall q, In q (lane_positions "L" w) -> q < Event.order_position e)
  /\ (exists i w',
        addEventImage "E" "new-url" None false w = (Ok i, w')
        /\ In i (images w')
        /\ appended_after (gallery_positions "E" w) (Image.order_position i)
        /\ forall q, In q (gallery_positions "E" w) -> q < Image.order_position i).
Proof.
  intros w event.
  destruct append_takes_max_plus_one as (A & B & C & D).
  split; [reflexivity|]. split; [reflexivity|]. split; [reflexivity|]. split.
  - destruct (C Js.parseISO event w eq_refl) as (e & w' & E).
    exists (Some e), w'. split; [exact E|].
    destruct (A Js.parseISO event w (Some e) w' eq_refl E) as (e' & R & I & _ & S).
    exists e'. split; [exact R|]. split; [exact I|]. exact (S eq_refl).
  - destruct (D "E" "new-url" None w eq_refl) as (i & w' & E).
    exists i, w'. split; [exact E|].
    destruct (B "E" "new-url" None w i w' E) as (I & _ & S).
    split; [exact I|]. exact (S eq_refl).
Defined.

Example append_takes_max_plus_one_run :
  Demo.positions
    (snd (createEvent Js.parseISO (Demo.new_event "2023-05-05" None)
            (Demo.world [Demo.event "a" "2023-03-01" 1; Demo.event "b" "2023-01-10" 2] [] [])))
  = [("a", 1); ("b", 2); ("id-0", 3)].
Proof. vm_compute. reflexivity. Qed.

(** C10, as stated, fails: with a live event at position -1 in the lane,
    createEvent called with order_position = 0 creates the event at
    position 0. *)
Lemma createEvent_zero_can_land_on_zero :
  option_map (option_map Event.order_position)
    (resolved (createEvent Js.parseISO (Demo.new_event "2023-05-05" (Some 0))
                 (Demo.world [Demo.event "a" "2023-03-01" (-1)] [] [])))
  = Some (Some 0).
Proof. vm_compute. reflexivity. Qed.

(** C10, amended.  A createEvent that is given order_position = 0 discards
    it: the falsiness test sends it through the append path, so the event
    is created at 1 in a lane with no live event, and otherwise at the
    JavaScript sum of the greatest live position and 1, which is that
    position plus 1 when it is a safe integer.  The new position is at
    least 1 whenever the live positions of the lane are non-negative, and
    it is 0 only when the greatest live position is -1. *)
Theorem createEvent_discards_zero :
  forall newDate event w r w',
    NewEvent.order_position event = Some 0 ->
    createEvent newDate event w = (Ok r, w') ->
    exists e,
      r = Some e
      /\ next_position (lane_positions (NewEvent.memory_lane_id event) w)
           (Event.order_position e)
      /\ (safe_top (lane_positions (NewEvent.memory_lane_id event) w) = true ->
          appended_after (lane_positions (NewEvent.memory_lane_id event) w)
            (Event.order_position e))
      /\ ((forall q, In q (lane_positions (NewEvent.memory_lane_id event) w) -> 0 <= q) ->
          1 <= Event.order_position e)
      /\ (Event.order_position e = 0 ->
          In (-1) (lane_positions (NewEvent.memory_lane_id event) w)
          /\ forall q, In q (lane_positions (NewEvent.memory_lane_id event) w) ->
                       q <= -1).
Proof.
  intros newDate event w r w' Z0 E.
  apply createEvent_effect in E.
  destruct E as (_ & [((x & X) & _)|(e & post & R & _ & _ & _ & P & _)]);
    [discriminate|].
  injection R as ->. rewrite Z0 in P. cbn in P.
  exists e. split; [reflexivity|]. split; [exact P|].
  split; [intros S; now apply next_position_exact|].
  destruct P as [[_ ->]|(m & Hm & G & ->)].
  - split; [intros; lia | discriminate].
  - split.
    + intros NN. specialize (NN m Hm). now apply plus_one_pos.
    + intros Z1. apply plus_one_zero in Z1. subst m. split; [exact Hm | exact G].
Qed.

Lemma createEvent_discards_zero_witness :
  exists r w',
    createEvent Js.parseISO (Demo.new_event "2023-05-05" (Some 0))
      (Demo.world [Demo.event "a" "2023-03-01" 1; Demo.event "b" "2023-01-10" 2] [] [])
    = (Ok r, w')
    /\ exists e,
         r = Some e
         /\ appended_after [1; 2] (Event.order_position e)
         /\ 1 <= Event.order_position e.
Proof.
  do 2 eexists. split.
  - vm_compute. reflexivity.
  - destruct (createEvent_discards_zero Js.parseISO
                (Demo.new_event "2023-05-05" (Some 0))
                (Demo.world [Demo.event "a" "2023-03-01" 1;
                             Demo.event "b" "2023-01-10" 2] [] [])
                _ _ eq_refl eq_refl) as (e & R & _ & A & NN & _).
    exists e. split; [exact R|]. split; [exact (A eq_refl)|].
    apply NN. cbn. intros q [<-|[<-|[]]]; lia.
Defined.

(* ================================================================== *)
(** * Uniqueness of positions under appends *)
(* ================================================================== *)

Lemma NoDup_snoc (ps : list Z) p :
  NoDup ps -> (forall q, In q ps -> q < p) -> NoDup (ps ++ [p]).
Proof.
  intros N A. apply NoDup_app.
  - exact N.
  - repeat constructor. intros [].
  - intros q Hq [E|[]]. specialize (A q Hq). lia.
Qed.

Lemma lane_positions_snoc lane w w' e :
  events w' = (events w ++ [e])%list ->
  lane_positions lane w'
  = (lane_positions lane w
     ++ if live_in lane e then [Event.order_position e] else [])%list.
Proof.
  unfold lane_positions. intros ->.
  rewrite filter_app, map_app. simpl. now destruct (live_in lane e).
Qed.

Lemma gallery_positions_snoc eventId w w' i :
  images w' = (images w ++ [i])%list ->
  gallery_positions eventId w'
  = (gallery_positions eventId w
     ++ if of_event eventId i then [Image.order_position i] else [])%list.
Proof.
  unfold gallery_positions. intros ->.
  rewrite filter_app, map_app. simpl. now destruct (of_event eventId i).
Qed.

Lemma perform_keeps_lane newDate op w lane :
  positionless op ->
  safe_top (siblings op w) = true ->
  NoDup (lane_positions lane w) ->
  NoDup (lane_positions lane (perform newDate op w)).
Proof.
  intros Hop S De. destruct op as [event|eventId imageUrl altText]; simpl in *.
  - destruct (createEvent newDate event w) as [r w'] eqn:E.
    apply createEvent_effect in E. simpl.
    destruct E as (_ & [(_ & Ev & _)|(e & post & _ & Ev & La & Dl & P & _)]).
    + unfold lane_positions. now rewrite Ev.
    + rewrite (lane_positions_snoc lane w _ _ Ev).
      unfold live_in. rewrite La, Dl. simpl. rewrite andb_true_r.
      destruct (String.eqb_spec (NewEvent.memory_lane_id event) lane) as [<-|_];
        [|now rewrite app_nil_r].
      rewrite Hop in P. apply NoDup_snoc; [exact De|].
      apply appended_after_above. now apply next_position_exact.
  - destruct (addEventImage eventId imageUrl altText false w) as [r w'] eqn:E.
    apply addEventImage_append_effect in E. simpl.
    destruct E as (Ev & _). unfold lane_positions. now rewrite Ev.
Qed.

Lemma perform_keeps_gallery newDate op w eventId :
  safe_top (siblings op w) = true ->
  NoDup (gallery_positions eventId w) ->
  NoDup (gallery_positions eventId (perform newDate op w)).
Proof.
  intros S Di. destruct op as [event|eventId' imageUrl altText]; simpl in *.
  - destruct (createEvent newDate event w) as [r w'] eqn:E.
    apply createEvent_effect in E. simpl.
    destruct E as (Im & _). unfold gallery_positions. now rewrite Im.
  - destruct (addEventImage eventId' imageUrl altText false w) as [r w'] eqn:E.
    apply addEventImage_append_effect in E. simpl.
    destruct E as (_ & [(_ & Im)|(i & _ & Im & Ei & P)]).
    + unfold gallery_positions. now rewrite Im.
    + rewrite (gallery_positions_snoc eventId w _ _ Im).
      unfold of_event. rewrite Ei.
      destruct (String.eqb_spec eventId' eventId) as [<-|_];
        [|now rewrite app_nil_r].
      apply NoDup_snoc; [exact Di|].
      apply appended_after_above. now apply next_position_exact.
Qed.

(** C3, as stated, fails.  A lane whose one live event sits at 2^53 has
    pairwise distinct positions; a createEvent without a position then
    appends an event at 2^53 as well, the JavaScript sum 2^53 + 1 being
    2^53.  The same happens to the images of an event. *)
Lemma append_next_to_two53_duplicates_it :
  NoDup (lane_positions "L"
           (Demo.world [Demo.event "a" "2023-03-01" Demo.two53]
              [Demo.image "i" Demo.two53] []))
  /\ NoDup (gallery_positions "E"
              (Demo.world [Demo.event "a" "2023-03-01" Demo.two53]
                 [Demo.image "i" Demo.two53] []))
  /\ Forall positionless
       [AppendEvent (Demo.new_event "2023-05-05" None); AppendImage "E" "url2" None]
  /\ lane_positions "L"
       (run_appends Js.parseISO
          [AppendEvent (Demo.new_event "2023-05-05" None); AppendImage "E" "url2" None]
          (Demo.world [Demo.event "a" "2023-03-01" Demo.two53]
             [Demo.image "i" Demo.two53] []))
     = [9007199254740992; 9007199254740992]
  /\ gallery_positions "E"
       (run_appends Js.parseISO
          [AppendEvent (Demo.new_event "2023-05-05" None); AppendImage "E" "url2" None]
          (Demo.world [Demo.event "a" "2023-03-01" Demo.two53]
             [Demo.image "i" Demo.two53] []))
     = [9007199254740992; 9007199254740992]
  /\ ~ NoDup [9007199254740992; 9007199254740992].
Proof.
  split; [vm_compute; repeat constructor; intros []|].
  split; [vm_compute; repeat constructor; intros []|].
  split; [repeat constructor|].
  split; [vm_compute; reflexivity|].
  split; [vm_compute; reflexivity|].
  intros N. inversion N as [|? ? I _]. apply I. now left.
Qed.

(** C3, amended.  Take a sibling set (the live events of a lane, or the
    images of an event) whose positions are pairwise distinct, and a
    finite sequence of appends run one after the other, to this or to any
    other sibling set, in which every append reads a greatest sibling
    position that is a safe integer (magnitude at most 2^53 - 1).
    Whichever of the requests fail, the positions of the set are still
    pairwise distinct afterwards. *)
Theorem appends_keep_positions_distinct :
  forall newDate ops w,
    Forall positionless ops ->
    safe_run newDate ops w = true ->
    (forall lane,
        NoDup (lane_positions lane w) ->
        NoDup (lane_positions lane (run_appends newDate ops w)))
    /\ (forall eventId,
        NoDup (gallery_positions eventId w) ->
        NoDup (gallery_positions eventId (run_appends newDate ops w))).
Proof.
  intros newDate ops. induction ops as [|op ops IH]; intros w F S; [now split|].
  inversion F as [|? ? Hop Hops]; subst. simpl in *.
  apply andb_true_iff in S. destruct S as [S1 S2].
  destruct (IH (perform newDate op w) Hops S2) as [L G]. split.
  - intros lane D. apply L. now apply perform_keeps_lane.
  - intros eventId D. apply G. now apply perform_keeps_gallery.
Qed.

Lemma appends_keep_positions_distinct_witness :
  let w := Demo.world [Demo.event "a" "2023-03-01" 1; Demo.event "b" "2023-01-10" 4]
             [Demo.image "i" 2; Demo.image "j" 3] [None; Some Demo.down] in
  let ops := [AppendEvent (Demo.new_event "2023-05-05" None);
              AppendImage "E" "url2" None;
              AppendEvent (Demo.new_event "2023-06-05" (Some 0))] in
  Forall positionless ops
  /\ safe_run Js.parseISO ops w = true
  /\ NoDup (lane_positions "L" w)
  /\ NoDup (gallery_positions "E" w)
  /\ NoDup (lane_positions "L" (run_appends Js.parseISO ops w))
  /\ NoDup (gallery_positions "E" (run_appends Js.parseISO ops w)).
Proof.
  intros w ops.
  assert (F : Forall positionless ops) by (repeat constructor).
  assert (S : safe_run Js.parseISO ops w = true) by (vm_compute; reflexivity).
  assert (DL : NoDup (lane_positions "L" w))
    by (cbn; repeat constructor; cbn; intuition lia).
  assert (DG : NoDup (gallery_positions "E" w))
    by (cbn; repeat constructor; cbn; intuition lia).
  destruct (appends_keep_positions_distinct Js.parseISO ops w F S) as [L G].
  split; [exact F|]. split; [exact S|]. split; [exact DL|]. split; [exact DG|].
  split; [exact (L "L" DL) | exact (G "E" DG)].
Defined.

(** A sufficient condition that does not run the appends: positions that
    leave room for as many increments as there are appends. *)
Lemma safe_top_of_all ps :
  (forall q, In q ps -> Js.isSafeInteger q = true) -> safe_top ps = true.
Proof.
  destruct ps as [|p ps]; [reflexivity|]. intros A. apply A.
  apply fold_max_in.
Qed.

Lemma room_safe_top n op w : room (S n) w -> safe_top (siblings op w) = true.
Proof.
  intros (_ & RE & RI). apply safe_top_of_all. intros q Hq.
  unfold Js.isSafeInteger. apply andb_true_iff.
  destruct op as [event|eventId imageUrl altText]; cbn [siblings] in Hq;
    apply in_map_iff in Hq; destruct Hq as (x & <- & Hx);
    apply filter_In in Hx; destruct Hx as [Hx _].
  - destruct (RE x Hx). split; apply Z.leb_le; lia.
  - destruct (RI x Hx). split; apply Z.leb_le; lia.
Qed.

Lemma next_position_room n ps p :
  Z.of_nat (S n) <= Js.MAX_SAFE_INTEGER ->
  (forall q, In q ps ->
     - Js.MAX_SAFE_INTEGER <= q /\ q + Z.of_nat (S n) <= Js.MAX_SAFE_INTEGER) ->
  next_position ps p ->
  - Js.MAX_SAFE_INTEGER <= p /\ p + Z.of_nat n <= Js.MAX_SAFE_INTEGER.
Proof.
  intros N B [[_ ->]|(m & I & _ & ->)].
  - unfold Js.MAX_SAFE_INTEGER in *. lia.
  - destruct (B m I) as [L U]. rewrite plus_one_safe.
    + lia.
    + unfold Js.isSafeInteger. apply andb_true_iff. split; apply Z.leb_le; lia.
Qed.

Lemma perform_keeps_room newDate n op w :
  positionless op -> room (S n) w -> room n (perform newDate op w).
Proof.
  intros Hop R. pose proof R as (N & RE & RI).
  assert (Old : forall q,
            - Js.MAX_SAFE_INTEGER <= q
            /\ q + Z.of_nat (S n) <= Js.MAX_SAFE_INTEGER ->
            - Js.MAX_SAFE_INTEGER <= q /\ q + Z.of_nat n <= Js.MAX_SAFE_INTEGER)
    by (intros q; lia).
  split; [lia|].
  destruct op as [event|eventId imageUrl altText]; cbn [perform positionless] in *.
  - destruct (createEvent newDate event w) as [r w'] eqn:E.
    apply createEvent_effect in E. cbn [snd].
    destruct E as (Im & [(_ & Ev & _)|(e & post & _ & Ev & _ & _ & P & _)]);
      rewrite Im, Ev; (split; [|intros i Hi; now apply Old, RI]).
    + intros x Hx. now apply Old, RE.
    + intros x Hx. apply in_app_or in Hx. destruct Hx as [Hx|[<-|[]]].
      * now apply Old, RE.
      * rewrite Hop in P. apply (next_position_room n _ _ N) in P; [exact P|].
        intros q Hq. apply in_map_iff in Hq. destruct Hq as (y & <- & Hy).
        apply filter_In in Hy. now apply RE.
  - destruct (addEventImage eventId imageUrl altText false w) as [r w'] eqn:E.
    apply addEventImage_append_effect in E. cbn [snd].
    destruct E as (Ev & [(_ & Im)|(i & _ & Im & _ & P)]);
      rewrite Im, Ev; (split; [intros x Hx; now apply Old, RE|]).
    + intros x Hx. now apply Old, RI.
    + intros x Hx. apply in_app_or in Hx. destruct Hx as [Hx|[<-|[]]].
      * now apply Old, RI.
      * apply (next_position_room n _ _ N) in P; [exact P|].
        intros q Hq. apply in_map_iff in Hq. destruct Hq as (y & <- & Hy).
        apply filter_In in Hy. now apply RI.
Qed.

Lemma room_gives_safe_run newDate ops : forall w,
  Forall positionless ops -> room (List.length ops) w ->
  safe_run newDate ops w = true.
Proof.
  induction ops as [|op ops IH]; intros w F R; [reflexivity|].
  inversion F as [|? ? Hop Hops]; subst. cbn [safe_run List.length] in *.
  apply andb_true_iff. split.
  - now apply (room_safe_top (List.length ops)).
  - apply IH; [exact Hops|]. now apply perform_keeps_room.
Qed.

Example appends_run :
  let w := run_appends Js.parseISO
             [AppendEvent (Demo.new_event "2023-05-05" None);
              AppendImage "E" "url2" None;
              AppendEvent (Demo.new_event "2023-06-05" (Some 0))]
             (Demo.world [Demo.event "a" "2023-03-01" 1; Demo.event "b" "2023-01-10" 4]
                [Demo.image "i" 2; Demo.image "j" 3] [None; Some Demo.down]) in
  (lane_positions "L" w, gallery_positions "E" w) = ([1; 4; 5], [2; 3; 4]).
Proof. vm_compute. reflexivity. Qed.

(* ================================================================== *)
(** * The date-range aggregator *)
(* ================================================================== *)

Lemma all_valid (ds : list Js.Date) :
  (forall d, In d ds -> d <> None) -> exists ts, ds = map Some ts.
Proof.
  induction ds as [|[t|] ds IH]; intros V.
  - now exists [].
  - destruct IH as (ts & ->); [intros d Hd; apply V; now right|].
    now exists (t :: ts).
  - exfalso. apply (V None); [now left | reflexivity].
Qed.

Lemma last_map A B (f : A -> B) l d d' :
  l <> [] -> last (map f l) d' = f (last l d).
Proof.
  induction l as [|x l IH]; [congruence|]. intros _.
  destruct l as [|y l]; [reflexivity|].
  change (last (map f (y :: l)) d' = f (last (y :: l) d)).
  apply IH. discriminate.
Qed.

(** Sorting valid dates by time: the first is the earliest, the last the
    latest. *)
Lemma sorted_dates_extremes (ts : list Z) :
  ts <> [] ->
  exists lo hi,
    hd None (Js.sort Js.byTime (map Some ts)) = Some lo
    /\ last (Js.sort Js.byTime (map Some ts)) None = Some hi
    /\ In lo ts /\ In hi ts
    /\ forall t, In t ts -> lo <= t <= hi.
Proof.
  intros NE.
  pose proof (sort_map _ _ Some (fun x y => Some (x - y)) Js.byTime ts
                (fun a b => eq_refl)) as E.
  pose proof (sort_sorted _ (fun x : Z => x) ts) as S.
  pose proof (sort_perm _ (fun x y => Some (x - y)) ts) as P.
  cbv beta in S.
  set (s := Js.sort (fun x y => Some (x - y)) ts) in *.
  assert (NEs : s <> []).
  { intros N. rewrite N in P. apply Permutation_nil in P. contradiction. }
  exists (hd 0 s), (last s 0). unfold Js.Date in *. rewrite E. repeat split.
  - destruct s; [contradiction | reflexivity].
  - now apply last_map.
  - apply (Permutation_in _ P). now apply hd_In.
  - apply (Permutation_in _ P). now apply last_In.
  - apply (sorted_hd_least _ _ 0 s Z.le_refl S).
    apply (Permutation_in _ (Permutation_sym P)). assumption.
  - apply (sorted_last_greatest _ _ 0 s Z.le_refl S).
    apply (Permutation_in _ (Permutation_sym P)). assumption.
Qed.

(** The rows a lane query returns are the live events of the lane, in
    some order. *)
Lemma fetched_events_perm lane evs :
  Permutation (query Event.order_position (live_in lane) (Some true) None evs)
    (filter (live_in lane) evs).
Proof. unfold query, ordered. apply sort_perm. Qed.

Lemma toISOString_valid t : exists s, Js.toISOString (Some t) = Some s.
Proof.
  unfold Js.toISOString. destruct (Js.civil_from_days _) as [[y m] d]. eauto.
Qed.

(** A recomputation none of whose requests fails, over valid dates. *)
Lemma updateDateRange_calm newDate lane w :
  faults w = [] ->
  (forall d, In d (lane_dates newDate lane w) -> d <> None) ->
  exists r w',
    updateDateRange newDate lane w = (Ok r, w')
    /\ events w' = events w /\ faults w' = [] /\ now w' = now w
    /\ memory_lanes w' = amend (live_lane lane) (store_range r (now w)) (memory_lanes w)
    /\ range_of (lane_dates newDate lane w) r.
Proof.
  destruct w as [evs imgs lanes sp fs nw uu dr con tr]. cbn [faults].
  intros -> V. unfold lane_dates in *. cbn [events] in *.
  pose proof (fetched_events_perm lane evs) as P.
  unfold updateDateRange, getMemoryLaneEvents, updateMemoryLane, toISOString.
  step_world.
  set (Q := query Event.order_position (live_in lane) (Some true) None evs) in *.
  set (live := filter (live_in lane) evs) in *.
  destruct Q as [|q Q'] eqn:EQ.
  - apply Permutation_nil in P. rewrite P. cbn.
    do 2 eexists. repeat split.
  - assert (PD : Permutation (map (fun e => newDate (Event.event_date e)) (q :: Q'))
                   (map (fun e => newDate (Event.event_date e)) live))
      by now apply Permutation_map.
    destruct (all_valid (map (fun e => newDate (Event.event_date e)) (q :: Q')))
      as (ts & Ets).
    { intros d Hd. apply V. now apply (Permutation_in _ PD). }
    assert (NE : ts <> []) by (intros ->; discriminate).
    destruct (sorted_dates_extremes ts NE) as (lo & hi & Hlo & Hhi & Ilo & Ihi & B).
    cbn [List.length Nat.eqb]. unfold Js.Date in *. rewrite Ets, Hlo, Hhi.
    destruct (toISOString_valid lo) as (slo & Slo).
    destruct (toISOString_valid hi) as (shi & Shi).
    rewrite Slo, Shi.
    do 2 eexists. repeat split.
    destruct live as [|l0 live'] eqn:EL.
    { apply Permutation_sym, Permutation_nil in P. discriminate. }
    cbn [range_of start end_]. rewrite <- Slo, <- Shi.
    exists lo, hi. repeat split.
    + apply (Permutation_in _ PD). rewrite Ets. now apply in_map.
    + apply (Permutation_in _ PD). rewrite Ets. now apply in_map.
    + apply B. apply (Permutation_in _ (Permutation_sym PD)) in H.
      rewrite Ets in H. apply in_map_iff in H. destruct H as (x & [= ->] & Hx).
      exact Hx.
    + apply B. apply (Permutation_in _ (Permutation_sym PD)) in H.
      rewrite Ets in H. apply in_map_iff in H. destruct H as (x & [= ->] & Hx).
      exact Hx.
Qed.

Lemma filter_perm A (f : A -> bool) l l' :
  Permutation l l' -> Permutation (filter f l) (filter f l').
Proof.
  induction 1 as [|x l l' P IH|x y l|l l' l'' P1 IH1 P2 IH2]; simpl.
  - constructor.
  - destruct (f x); [now constructor | exact IH].
  - destruct (f x), (f y); try reflexivity. apply perm_swap.
  - now transitivity (filter f l').
Qed.

(** The range of a collection of dates does not depend on their order. *)
Lemma range_of_unique ds ds' r r' :
  Permutation ds ds' -> range_of ds r -> range_of ds' r' -> r = r'.
Proof.
  intros P R R'. destruct r as [s e], r' as [s' e'].
  destruct ds as [|d ds], ds' as [|d' ds']; cbn [range_of start end_] in *.
  - destruct R as [-> ->], R' as [-> ->]. reflexivity.
  - apply Permutation_nil in P. discriminate.
  - apply Permutation_sym, Permutation_nil in P. discriminate.
  - destruct R as (lo & hi & Ilo & Ihi & B & -> & ->).
    destruct R' as (lo' & hi' & Ilo' & Ihi' & B' & -> & ->).
    assert (lo = lo').
    { pose proof (B lo' (Permutation_in _ (Permutation_sym P) Ilo')).
      pose proof (B' lo (Permutation_in _ P Ilo)). lia. }
    assert (hi = hi').
    { pose proof (B hi' (Permutation_in _ (Permutation_sym P) Ihi')).
      pose proof (B' hi (Permutation_in _ P Ihi)). lia. }
    now subst.
Qed.

Lemma lane_dates_perm newDate lane w w2 :
  Permutation (events w) (events w2) ->
  Permutation (lane_dates newDate lane w) (lane_dates newDate lane w2).
Proof. intros P. unfold lane_dates. now apply Permutation_map, filter_perm. Qed.

Lemma stored_range_read lane r t lanes l :
  In l (amend (live_lane lane) (store_range r t) lanes) ->
  live_lane lane l = true ->
  MemoryLane.date_range_start l = start r /\ MemoryLane.date_range_end l = end_ r.
Proof.
  unfold amend. intros I L. apply in_map_iff in I. destruct I as (x & E & _).
  destruct (live_lane lane x) eqn:Lx; subst l; [now split | congruence].
Qed.

(** C4.  When its requests succeed and the live events of the lane carry
    valid dates, updateDateRange resolves to, and stores on the live lane
    row, null bounds if the lane has no live event, and otherwise the
    earliest and the latest event date (as ISO instants) of the live
    events; soft-deleted events are not read.  The result is the same for
    every order of the events table. *)
Theorem updateDateRange_sets_min_max :
  forall newDate lane w,
    faults w = [] ->
    (forall d, In d (lane_dates newDate lane w) -> d <> None) ->
    exists r w',
      updateDateRange newDate lane w = (Ok r, w')
      /\ range_of (lane_dates newDate lane w) r
      /\ memory_lanes w'
         = amend (live_lane lane) (store_range r (now w)) (memory_lanes w)
      /\ (forall l, In l (memory_lanes w') -> live_lane lane l = true ->
            MemoryLane.date_range_start l = start r
            /\ MemoryLane.date_range_end l = end_ r)
      /\ (forall w2, faults w2 = [] -> Permutation (events w) (events w2) ->
            resolved (updateDateRange newDate lane w2) = Some r).
Proof.
  intros newDate lane w F V.
  destruct (updateDateRange_calm newDate lane w F V)
    as (r & w' & E & _ & _ & _ & L & R).
  exists r, w'. split; [exact E|]. split; [exact R|]. split; [exact L|]. split.
  - intros l Hl. rewrite L in Hl. now apply stored_range_read with (1 := Hl).
  - intros w2 F2 P.
    pose proof (lane_dates_perm newDate lane w w2 P) as PD.
    destruct (updateDateRange_calm newDate lane w2 F2)
      as (r2 & w2' & E2 & _ & _ & _ & _ & R2).
    { intros d Hd. apply V. now apply (Permutation_in _ (Permutation_sym PD)). }
    unfold resolved. rewrite E2. cbn. f_equal.
    symmetry. now apply (range_of_unique _ _ _ _ PD).
Qed.

Lemma updateDateRange_sets_min_max_witness :
  let w := Demo.world [Demo.event "a" "2023-01-05" 1; Demo.event "b" "2023-06-20" 2;
                       Demo.event "c" "2023-03-01" 3] [] [] in
  faults w = []
  /\ (forall d, In d (lane_dates Js.parseISO "L" w) -> d <> None)
  /\ exists r w',
       updateDateRange Js.parseISO "L" w = (Ok r, w')
       /\ range_of (lane_dates Js.parseISO "L" w) r
       /\ memory_lanes w'
          = amend (live_lane "L") (store_range r (now w)) (memory_lanes w)
       /\ (forall l, In l (memory_lanes w') -> live_lane "L" l = true ->
             MemoryLane.date_range_start l = start r
             /\ MemoryLane.date_range_end l = end_ r)
       /\ (forall w2, faults w2 = [] -> Permutation (events w) (events w2) ->
             resolved (updateDateRange Js.parseISO "L" w2) = Some r).
Proof.
  intros w.
  assert (V : forall d, In d (lane_dates Js.parseISO "L" w) -> d <> None).
  { vm_compute. intros d [<-|[<-|[<-|[]]]]; discriminate. }
  split; [reflexivity|]. split; [exact V|].
  exact (updateDateRange_sets_min_max Js.parseISO "L" w eq_refl V).
Defined.

Example updateDateRange_three_events :
  resolved (updateDateRange Js.parseISO "L"
              (Demo.world [Demo.event "a" "2023-01-05" 1; Demo.event "b" "2023-06-20" 2;
                           Demo.event "c" "2023-03-01" 3] [] []))
  = Some {| start := Some "2023-01-05T00:00:00.000Z";
            end_ := Some "2023-06-20T00:00:00.000Z" |}.
Proof. vm_compute. reflexivity. Qed.

Example updateDateRange_skips_deleted :
  resolved (updateDateRange Js.parseISO "L"
              (Demo.world [Demo.event "a" "2023-03-01" 1;
                           soft_delete "t" (Demo.event "b" "2023-01-10" 2);
                           Demo.event "c" "2023-05-05" 3] [] []))
  = Some {| start := Some "2023-03-01T00:00:00.000Z";
            end_ := Some "2023-05-05T00:00:00.000Z" |}.
Proof. vm_compute. reflexivity. Qed.

Lemma amend_twice_bounds lane u t lanes :
  map (fun l => (MemoryLane.id l, MemoryLane.date_range_start l,
                 MemoryLane.date_range_end l))
      (amend (live_lane lane) (MemoryLaneUpdates.apply u t)
         (amend (live_lane lane) (MemoryLaneUpdates.apply u t) lanes))
  = map (fun l => (MemoryLane.id l, MemoryLane.date_range_start l,
                   MemoryLane.date_range_end l))
        (amend (live_lane lane) (MemoryLaneUpdates.apply u t) lanes).
Proof.
  unfold amend. rewrite !map_map. apply map_ext. intros l.
  destruct (live_lane lane l) eqn:L; [|now rewrite L].
  replace (live_lane lane (MemoryLaneUpdates.apply u t l)) with true
    by (symmetry; exact L).
  destruct u as [ti de co pu [s|] [e|]]; reflexivity.
Qed.

(** C9.  With no event mutation in between and no failing request, a
    second updateDateRange ends as the first did (the same start and end)
    and leaves the stored bounds of every lane as the first left them;
    over valid dates both calls resolve. *)
Theorem updateDateRange_idempotent :
  forall newDate lane w,
    faults w = [] ->
    let once := updateDateRange newDate lane w in
    let twice := updateDateRange newDate lane (snd once) in
    fst twice = fst once
    /\ bounds (snd twice) = bounds (snd once)
    /\ ((forall d, In d (lane_dates newDate lane w) -> d <> None) ->
        exists r, fst once = Ok r).
Proof.
  intros newDate lane w F once twice. split; [|split].
  - subst once twice. destruct w as [evs imgs lanes sp fs nw uu dr con tr].
    cbn [faults] in F. subst fs.
    unfold updateDateRange, getMemoryLaneEvents, updateMemoryLane, toISOString.
    step_world.
    destruct (List.length _ =? 0)%nat eqn:EL; step_world; rewrite ?EL;
      [reflexivity|].
    destruct (Js.toISOString (hd None _)) eqn:E1; step_world; rewrite ?EL, ?E1;
      [|reflexivity].
    match goal with
    | |- context [Js.toISOString (last ?l ?d)] =>
        destruct (Js.toISOString (last l d)) eqn:E2
    end; step_world;
      rewrite ?EL, ?E1, ?E2; reflexivity.
  - subst once twice. destruct w as [evs imgs lanes sp fs nw uu dr con tr].
    cbn [faults] in F. subst fs.
    unfold updateDateRange, getMemoryLaneEvents, updateMemoryLane, toISOString, bounds.
    step_world.
    destruct (List.length _ =? 0)%nat eqn:EL; step_world; rewrite ?EL;
      [apply amend_twice_bounds|].
    destruct (Js.toISOString (hd None _)) eqn:E1; step_world; rewrite ?EL, ?E1;
      [|reflexivity].
    match goal with
    | |- context [Js.toISOString (last ?l ?d)] =>
        destruct (Js.toISOString (last l d)) eqn:E2
    end; step_world;
      rewrite ?EL, ?E1, ?E2; [apply amend_twice_bounds | reflexivity].
  - intros V. destruct (updateDateRange_calm newDate lane w F V) as (r & w' & E & _).
    exists r. subst once. now rewrite E.
Qed.

Lemma updateDateRange_idempotent_witness :
  let w := Demo.world [Demo.event "a" "2023-01-05" 1; Demo.event "b" "2023-06-20" 2]
             [] [] in
  let once := updateDateRange Js.parseISO "L" w in
  let twice := updateDateRange Js.parseISO "L" (snd once) in
  faults w = []
  /\ fst twice = fst once
  /\ bounds (snd twice) = bounds (snd once)
  /\ ((forall d, In d (lane_dates Js.parseISO "L" w) -> d <> None) ->
      exists r, fst once = Ok r).
Proof.
  intros w once twice. split; [reflexivity|].
  exact (updateDateRange_idempotent Js.parseISO "L" w eq_refl).
Defined.

Example updateDateRange_twice :
  let once := updateDateRange Js.parseISO "L"
                (Demo.world [Demo.event "a" "2023-01-05" 1;
                             Demo.event "b" "2023-06-20" 2] [] []) in
  (resolved once, bounds (snd (updateDateRange Js.parseISO "L" (snd once))))
  = (Some {| start := Some "2023-01-05T00:00:00.000Z";
             end_ := Some "2023-06-20T00:00:00.000Z" |},
     [("L", Some "2023-01-05T00:00:00.000Z", Some "2023-06-20T00:00:00.000Z")]).
Proof. vm_compute. reflexivity. Qed.

(* ================================================================== *)
(** * Formatting a date range *)
(* ================================================================== *)

(** The branches of formatDateRange.  It returns "No events yet" for a
    null start.  Otherwise it compares the year and the month that the
    parsed instants have in the local time of the browser (a null end
    counting as the start): "<Month> <Year>" when these agree,
    "<Month> - <Month> <Year>" when the local years agree and the local
    months differ, "<Month> <Year> - <Month> <Year>" when the local years
    differ. *)
Lemma formatDateRange_cases :
  forall newDate tz,
    (forall e, formatDateRange newDate tz None e = "No events yet")
    /\ (forall s ts,
          s <> "" -> newDate s = Some ts ->
          formatDateRange newDate tz (Some s) None
          = Js.monthLong (Js.MonthFromTime (Js.LocalTime tz ts)) ++ " "
            ++ Js.yearNumeric (Js.YearFromTime (Js.LocalTime tz ts)))
    /\ (forall s e ts te,
          s <> "" -> e <> "" -> newDate s = Some ts -> newDate e = Some te ->
          let ys := Js.YearFromTime (Js.LocalTime tz ts) in
          let ms := Js.MonthFromTime (Js.LocalTime tz ts) in
          let ye := Js.YearFromTime (Js.LocalTime tz te) in
          let me := Js.MonthFromTime (Js.LocalTime tz te) in
          (ys = ye -> ms = me ->
           formatDateRange newDate tz (Some s) (Some e)
           = Js.monthLong ms ++ " " ++ Js.yearNumeric ys)
          /\ (ys = ye -> ms <> me ->
              formatDateRange newDate tz (Some s) (Some e)
              = Js.monthLong ms ++ " - " ++ Js.monthLong me ++ " "
                ++ Js.yearNumeric ye)
          /\ (ys <> ye ->
              formatDateRange newDate tz (Some s) (Some e)
              = (Js.monthLong ms ++ " " ++ Js.yearNumeric ys) ++ " - "
                ++ Js.monthLong me ++ " " ++ Js.yearNumeric ye)).
Proof.
  intros newDate tz. split; [reflexivity|]. split.
  { intros s ts Hs Ps. unfold formatDateRange. cbn [Js.falsy_str dflt].
    apply String.eqb_neq in Hs. rewrite Hs, Ps.
    cbn [Js.getFullYear Js.getMonth option_map Js.strict_eq Js.toLocaleDateString].
    now rewrite !Z.eqb_refl. }
  intros s e ts te Hs He Ps Pe ys ms ye me.
  unfold formatDateRange. cbn [Js.falsy_str dflt].
  apply String.eqb_neq in Hs, He. rewrite Hs, He, Ps, Pe.
  cbn [Js.getFullYear Js.getMonth option_map Js.strict_eq Js.toLocaleDateString].
  fold ys ms ye me.
  split; [|split].
  - intros -> ->. now rewrite !Z.eqb_refl.
  - intros -> M. apply Z.eqb_neq in M. now rewrite Z.eqb_refl, M.
  - intros Y. apply Z.eqb_neq in Y. now rewrite Y.
Qed.

Lemma formatDateRange_cases_witness :
  formatDateRange Js.parseISO Demo.utc (Some "2023-01-05") (Some "2023-01-20")
  = "January 2023"
  /\ formatDateRange Js.parseISO Demo.utc (Some "2023-01-05") (Some "2023-06-20")
     = "January - June 2023"
  /\ formatDateRange Js.parseISO Demo.utc (Some "2022-11-01") (Some "2023-02-01")
     = "November 2022 - February 2023"
  /\ formatDateRange Js.parseISO Demo.utc None (Some "2023-02-01") = "No events yet".
Proof.
  pose proof (formatDateRange_cases Js.parseISO Demo.utc) as (N & _ & C).
  assert (D : forall a b : string, (a =? b)%string = false -> a <> b)
    by (intros a b; apply String.eqb_neq).
  split; [|split; [|split]].
  - destruct (C "2023-01-05" "2023-01-20" 1672876800000 1674172800000) as (H & _ & _);
      [now apply D | now apply D | now vm_compute | now vm_compute |].
    exact (H eq_refl eq_refl).
  - destruct (C "2023-01-05" "2023-06-20" 1672876800000 1687219200000) as (_ & H & _);
      [now apply D | now apply D | now vm_compute | now vm_compute |].
    refine (H eq_refl _). now vm_compute.
  - destruct (C "2022-11-01" "2023-02-01" 1667260800000 1675209600000) as (_ & _ & H);
      [now apply D | now apply D | now vm_compute | now vm_compute |].
    refine (H _). now vm_compute.
  - exact (N (Some "2023-02-01")).
Defined.

(** C8: the code departs from the claim.  [new Date("2023-01-01")] is
    midnight UTC, while getFullYear, getMonth and toLocaleDateString read
    the instant in local time.  In a browser five hours west of UTC the
    first of January is the evening of 31 December: for a start and an end
    that both fall in January 2023 formatDateRange returns
    "December 2022 - January 2023" instead of "January 2023", and the range
    from 2022-11-01 to 2023-02-01 comes out a month early on both sides.
    The range that updateDateRange stores for a lane whose events are
    dated 2023-01-01 and 2023-01-31, written in UTC by toISOString, is
    labelled in the same way.  In UTC the answers are the expected ones. *)
Theorem formatDateRange_west_of_utc_leaves_the_month :
  formatDateRange Js.parseISO Demo.est (Some "2023-01-01") (Some "2023-01-31")
  = "December 2022 - January 2023"
  /\ formatDateRange Js.parseISO Demo.est (Some "2022-11-01") (Some "2023-02-01")
     = "October 2022 - January 2023"
  /\ resolved (updateDateRange Js.parseISO "L"
                 (Demo.world [Demo.event "a" "2023-01-01" 1;
                              Demo.event "b" "2023-01-31" 2] [] []))
     = Some {| start := Some "2023-01-01T00:00:00.000Z";
               end_ := Some "2023-01-31T00:00:00.000Z" |}
  /\ formatDateRange Js.parseISO Demo.est
       (Some "2023-01-01T00:00:00.000Z") (Some "2023-01-31T00:00:00.000Z")
     = "December 2022 - January 2023"
  /\ formatDateRange Js.parseISO Demo.utc (Some "2023-01-01") (Some "2023-01-31")
     = "January 2023"
  /\ formatDateRange Js.parseISO Demo.utc (Some "2022-11-01") (Some "2023-02-01")
     = "November 2022 - February 2023".
Proof. vm_compute. repeat split. Qed.

Example formatDateRange_end_missing :
  formatDateRange Js.parseISO Demo.utc (Some "2023-01-05") None = "January 2023".
Proof. vm_compute. reflexivity. Qed.

(* ================================================================== *)
(** * Event mutations and the recomputation they trigger *)
(* ================================================================== *)

(** What [updateEvent] does when it resolves. *)
Lemma updateEvent_effect newDate id updates w r w' :
  updateEvent newDate id updates w = (Ok r, w') ->
  exists cur,
    filter (live_event id) (events w) = [cur]
    /\ events w' = amend (live_event id) (EventUpdates.apply updates (now w)) (events w)
    /\ if Js.falsy_str (EventUpdates.event_date updates)
       then trace w' = (trace w ++ [Committed "events"])%list
       else exists post,
              trace w'
              = (trace w ++ [Committed "events";
                             Recompute (Event.memory_lane_id cur)] ++ post)%list
              /\ recomputes post = [].
Proof.
  destruct w as [evs imgs lanes sp fs nw uu dr con tr].
  unfold updateEvent, getEventById. cbn [events now trace]. shelve_goal.
  destruct (filter (live_event id) evs) as [|cur [|c2 rest]] eqn:Q;
    destruct (Js.falsy_str (EventUpdates.event_date updates)) eqn:F;
    destruct fs as [|[e1|] [|[e2|] fs]]; step_world; rewrite ?Q; cbn [negb];
    run_cases; try (intros X; discriminate X); subst GOAL; cbv beta.
  all: try (intros [= <- <-]; exists cur; repeat split; fail).
  all: meet_refresh; step_world; intros [= <- <-]; exists cur;
    (split; [reflexivity|]); (split; [assumption|]);
    eexists; split; [trace_shape | eassumption].
Qed.

(** What [deleteEvent] does when it resolves. *)
Lemma deleteEvent_effect newDate id w r w' :
  deleteEvent newDate id w = (Ok r, w') ->
  exists cur post,
    filter (live_event id) (events w) = [cur]
    /\ events w' = amend (fun e => (Event.id e =? id)%string) (soft_delete (now w)) (events w)
    /\ trace w'
       = (trace w ++ [Committed "events"; Recompute (Event.memory_lane_id cur)]
          ++ post)%list
    /\ recomputes post = [].
Proof.
  destruct w as [evs imgs lanes sp fs nw uu dr con tr].
  unfold deleteEvent, getEventById. cbn [events now trace]. shelve_goal.
  destruct (filter (live_event id) evs) as [|cur [|c2 rest]] eqn:Q;
    destruct fs as [|[e1|] [|[e2|] fs]]; step_world; rewrite ?Q;
    run_cases; try (intros X; discriminate X); subst GOAL; cbv beta.
  all: meet_refresh; step_world; intros [= <- <-]; exists cur;
    eexists; (split; [reflexivity|]); (split; [assumption|]);
    split; [trace_shape | eassumption].
Qed.

(** The guarded recomputation always hands control back. *)
Ltac refresh_resolves :=
  match goal with
  | |- context [refresh_date_range ?d ?l ?W] =>
      let R := fresh "R" in
      let E := fresh "E" in
      destruct (refresh_date_range_spec d l W) as (R & _);
      destruct (refresh_date_range d l W) as [[[]|?] ?] eqn:E;
      cbn [fst] in R; try discriminate R
  end.

(** C5.  When the requests of an event mutation itself succeed (for
    updateEvent and deleteEvent: the event is found and its update is
    applied), the mutation resolves whatever the requests of the
    date-range recomputation do, and whatever dates the lane holds.  If
    the first request of the recomputation fails, the error is written to
    the console and goes no further. *)
Theorem mutation_outlives_recompute :
  forall newDate,
    (forall event w rest,
        faults w = (own_requests event ++ rest)%list ->
        exists e w',
          createEvent newDate event w = (Ok (Some e), w')
          /\ forall err rest', rest = Some err :: rest' ->
               In (recompute_failed, Pg err) (console w'))
    /\ (forall id updates w cur rest,
        filter (live_event id) (events w) = [cur] ->
        faults w = (None :: None :: rest)%list ->
        exists r w',
          updateEvent newDate id updates w = (Ok r, w')
          /\ forall err rest', rest = Some err :: rest' ->
               Js.falsy_str (EventUpdates.event_date updates) = false ->
               In (recompute_failed, Pg err) (console w'))
    /\ (forall id w cur rest,
        filter (live_event id) (events w) = [cur] ->
        faults w = (None :: None :: rest)%list ->
        exists w',
          deleteEvent newDate id w = (Ok tt, w')
          /\ forall err rest', rest = Some err :: rest' ->
               In (recompute_failed, Pg err) (console w')).
Proof.
  intros newDate. split; [|split].
  - intros event [evs imgs lanes sp fs nw uu dr con tr] rest. cbn [faults].
    intros ->. unfold createEvent, own_requests.
    destruct (Js.falsy_num (NewEvent.order_position event)); cbn [app];
      step_world.
    all: refresh_resolves.
    all: do 2 eexists; (split; [reflexivity|]); intros err rest' ->.
    all: revert E; unfold refresh_date_range, updateDateRange, getMemoryLaneEvents;
      step_world; intros [= <-]; cbn [console]; apply in_or_app; right; now left.
  - intros id updates [evs imgs lanes sp fs nw uu dr con tr] cur rest.
    cbn [faults events]. intros Q ->. unfold updateEvent, getEventById.
    step_world. rewrite Q. step_world.
    destruct (Js.falsy_str (EventUpdates.event_date updates)) eqn:F; cbn [negb];
      step_world; [do 2 eexists; split; [reflexivity | discriminate]|].
    refresh_resolves.
    do 2 eexists; (split; [reflexivity|]); intros err rest' -> _.
    revert E; unfold refresh_date_range, updateDateRange, getMemoryLaneEvents;
      step_world; intros [= <-]; cbn [console]; apply in_or_app; right; now left.
  - intros id [evs imgs lanes sp fs nw uu dr con tr] cur rest.
    cbn [faults events]. intros Q ->. unfold deleteEvent, getEventById.
    step_world. rewrite Q. step_world.
    refresh_resolves.
    eexists; (split; [reflexivity|]); intros err rest' ->.
    revert E; unfold refresh_date_range, updateDateRange, getMemoryLaneEvents;
      step_world; intros [= <-]; cbn [console]; apply in_or_app; right; now left.
Qed.

Lemma mutation_outlives_recompute_witness :
  let w := Demo.world [Demo.event "a" "2023-03-01" 1] []
             [None; None; Some Demo.down] in
  let event := Demo.new_event "2023-05-05" None in
  let updates := EventUpdates.mk None None (Some "2023-04-01") None None None in
  faults w = (own_requests event ++ [Some Demo.down])%list
  /\ filter (live_event "a") (events w) = [Demo.event "a" "2023-03-01" 1]
  /\ (exists e w',
        createEvent Js.parseISO event w = (Ok (Some e), w')
        /\ In (recompute_failed, Pg Demo.down) (console w'))
  /\ (exists r w',
        updateEvent Js.parseISO "a" updates w = (Ok r, w')
        /\ In (recompute_failed, Pg Demo.down) (console w'))
  /\ (exists w',
        deleteEvent Js.parseISO "a" w = (Ok tt, w')
        /\ In (recompute_failed, Pg Demo.down) (console w')).
Proof.
  intros w event updates.
  destruct (mutation_outlives_recompute Js.parseISO) as (C & U & D).
  split; [reflexivity|]. split; [reflexivity|]. split; [|split].
  - destruct (C event w [Some Demo.down] eq_refl) as (e & w' & E & L).
    exists e, w'. split; [exact E | exact (L _ _ eq_refl)].
  - destruct (U "a" updates w _ [Some Demo.down] eq_refl eq_refl)
      as (r & w' & E & L).
    exists r, w'. split; [exact E | exact (L _ _ eq_refl eq_refl)].
  - destruct (D "a" w _ [Some Demo.down] eq_refl eq_refl) as (w' & E & L).
    exists w'. split; [exact E | exact (L _ _ eq_refl)].
Defined.

Example createEvent_with_failed_recompute :
  let out := createEvent Js.parseISO (Demo.new_event "2023-05-05" None)
               (Demo.world [Demo.event "a" "2023-03-01" 1] []
                  [None; None; Some Demo.down]) in
  (option_map (option_map Event.order_position) (resolved out),
   Demo.positions (snd out), bounds (snd out))
  = (Some (Some 2), [("a", 1); ("id-0", 2)], [("L", None, None)]).
Proof. vm_compute. reflexivity. Qed.

(** C7, as stated, fails: an update whose payload carries the event_date
    the event already has leaves the date unchanged, and the
    recomputation runs all the same. *)
Lemma updateEvent_same_date_recomputes :
  let w := Demo.world [Demo.event "a" "2023-03-01" 1] [] [] in
  let updates := EventUpdates.mk None None (Some "2023-03-01") None None None in
  let w' := snd (updateEvent Js.parseISO "a" updates w) in
  map Event.event_date (events w') = map Event.event_date (events w)
  /\ recomputes (trace w') = ["L"].
Proof. vm_compute. split; reflexivity. Qed.

(** C7, amended.  The recomputation is entered once, right after the
    committed write, by every createEvent that resolves (for the lane of
    the new event), by every deleteEvent that resolves, and by an
    updateEvent that resolves exactly when its payload carries a
    non-empty event_date, whether or not that date differs from the stored
    one; updateEvent and deleteEvent recompute the lane they read from
    the live event before their write. *)
Theorem recompute_follows_mutation :
  forall newDate,
    (forall event w r w',
        createEvent newDate event w = (Ok r, w') ->
        exists post,
          trace w'
          = (trace w ++ [Committed "events";
                         Recompute (NewEvent.memory_lane_id event)] ++ post)%list
          /\ recomputes post = [])
    /\ (forall id updates w r w',
        updateEvent newDate id updates w = (Ok r, w') ->
        exists cur,
          filter (live_event id) (events w) = [cur]
          /\ if Js.falsy_str (EventUpdates.event_date updates)
             then trace w' = (trace w ++ [Committed "events"])%list
             else exists post,
                    trace w'
                    = (trace w ++ [Committed "events";
                                   Recompute (Event.memory_lane_id cur)] ++ post)%list
                    /\ recomputes post = [])
    /\ (forall id w w',
        deleteEvent newDate id w = (Ok tt, w') ->
        exists cur post,
          filter (live_event id) (events w) = [cur]
          /\ trace w'
             = (trace w ++ [Committed "events";
                            Recompute (Event.memory_lane_id cur)] ++ post)%list
          /\ recomputes post = []).
Proof.
  intros newDate. split; [|split].
  - intros event w r w' E. apply createEvent_effect in E.
    destruct E as (_ & [((x & X) & _)|(e & post & _ & _ & _ & _ & _ & T & R)]);
      [discriminate|].
    now exists post.
  - intros id updates w r w' E. apply updateEvent_effect in E.
    destruct E as (cur & Q & _ & T). now exists cur.
  - intros id w w' E. apply deleteEvent_effect in E.
    destruct E as (cur & post & Q & _ & T & R). now exists cur, post.
Qed.

Lemma recompute_follows_mutation_witness :
  let w := Demo.world [Demo.event "a" "2023-03-01" 1] [] [] in
  let moved := EventUpdates.mk None None (Some "2023-04-01") None None None in
  let renamed := EventUpdates.mk None (Some "new title") None None None None in
  recomputes (trace (snd (createEvent Js.parseISO (Demo.new_event "2023-05-05" None) w)))
  = ["L"]
  /\ recomputes (trace (snd (updateEvent Js.parseISO "a" moved w))) = ["L"]
  /\ recomputes (trace (snd (updateEvent Js.parseISO "a" renamed w))) = []
  /\ recomputes (trace (snd (deleteEvent Js.parseISO "a" w))) = ["L"].
Proof.
  intros w moved renamed.
  destruct (recompute_follows_mutation Js.parseISO) as (C & U & D).
  split; [|split; [|split]].
  - destruct (createEvent Js.parseISO (Demo.new_event "2023-05-05" None) w)
      as [r w'] eqn:E.
    assert (Hr : exists e, r = Ok e) by (revert E; vm_compute; intros [= <- _]; eauto).
    destruct Hr as (e & ->).
    destruct (C _ _ _ _ E) as (post & T & R). cbn [snd]. rewrite T.
    rewrite !recomputes_app, R. reflexivity.
  - destruct (updateEvent Js.parseISO "a" moved w) as [r w'] eqn:E.
    assert (Hr : exists e, r = Ok e) by (revert E; vm_compute; intros [= <- _]; eauto).
    destruct Hr as (e & ->).
    destruct (U _ _ _ _ _ E) as (cur & Q & post & T & R). cbn [snd]. rewrite T.
    injection Q as <-. rewrite !recomputes_app, R. reflexivity.
  - destruct (updateEvent Js.parseISO "a" renamed w) as [r w'] eqn:E.
    assert (Hr : exists e, r = Ok e) by (revert E; vm_compute; intros [= <- _]; eauto).
    destruct Hr as (e & ->).
    destruct (U _ _ _ _ _ E) as (cur & Q & T). cbn [snd]. rewrite T. reflexivity.
  - destruct (deleteEvent Js.parseISO "a" w) as [r w'] eqn:E.
    assert (Hr : r = Ok tt) by (revert E; vm_compute; intros [= <- _]; eauto).
    subst r.
    destruct (D _ _ _ E) as (cur & post & Q & T & R). cbn [snd]. rewrite T.
    injection Q as <-. rewrite !recomputes_app, R. reflexivity.
Defined.

(* ================================================================== *)
(** * Renumbering loops *)
(* ================================================================== *)

Lemma assoc_absent id ups : ~ In id (map fst ups) -> assoc id ups = None.
Proof.
  unfold assoc. induction ups as [|[a p] ups IH]; simpl; [reflexivity|].
  intros N. destruct (String.eqb_spec a id) as [->|_]; [exfalso; now apply N; left|].
  apply IH. intros I. apply N. now right.
Qed.

Lemma assoc_present id p ups :
  NoDup (map fst ups) -> In (id, p) ups -> assoc id ups = Some p.
Proof.
  unfold assoc. induction ups as [|[a q] ups IH]; simpl; [intros _ []|].
  intros N [[= -> ->]|I].
  - now rewrite String.eqb_refl.
  - inversion N as [|? ? Na Nu]; subst.
    destruct (String.eqb_spec a id) as [->|_]; [|now apply IH].
    exfalso. apply Na. apply in_map_iff. now exists (id, p).
Qed.

(** Writes to pairwise-distinct ids act row by row. *)
Lemma write_positions_spec ups tbl :
  NoDup (map fst ups) ->
  write_positions ups tbl
  = map (fun x => match assoc (Image.id x) ups with
                  | Some p => Image.at_position p x
                  | None => x
                  end) tbl.
Proof.
  revert tbl. induction ups as [|[a p] ups IH]; intros tbl N.
  - simpl. now rewrite map_id.
  - inversion N as [|? ? Na Nu]; subst.
    change (write_positions ((a, p) :: ups) tbl)
      with (write_positions ups (amend (has_id a) (Image.at_position p) tbl)).
    rewrite IH by exact Nu. unfold amend. rewrite map_map. apply map_ext.
    intros x. unfold has_id, assoc. simpl.
    rewrite (String.eqb_sym a (Image.id x)).
    destruct (String.eqb_spec (Image.id x) a) as [E|_]; [|reflexivity].
    cbn [Image.id Image.at_position option_map snd]. rewrite E.
    fold (assoc a ups). now rewrite (assoc_absent a ups Na).
Qed.

(** The loop of [setPrimaryImage], none of whose requests fails. *)
Lemma renumber_calm imageId imgs : forall position w,
  faults w = [] ->
  fst (renumber imageId position imgs w) = Ok tt
  /\ images (snd (renumber imageId position imgs w))
     = write_positions (renumbering imageId position imgs) (images w)
  /\ events (snd (renumber imageId position imgs w)) = events w.
Proof.
  induction imgs as [|image rest IH]; intros position w F; [now repeat split|].
  simpl. destruct (negb (Image.id image =? imageId)%string); [|now apply IH].
  destruct w as [evs tbl lanes sp fs nw uu dr con tr]. cbn [faults] in F. subst fs.
  step_world. apply IH. reflexivity.
Qed.

(** The fallback loop of [addEventImage], none of whose requests fails. *)
Lemma shift_each_calm imgs : forall w,
  faults w = [] ->
  fst (shift_each imgs w) = Ok tt
  /\ images (snd (shift_each imgs w)) = write_positions (shifting imgs) (images w)
  /\ events (snd (shift_each imgs w)) = events w
  /\ faults (snd (shift_each imgs w)) = []
  /\ now (snd (shift_each imgs w)) = now w
  /\ uuids (snd (shift_each imgs w)) = uuids w
  /\ drawn (snd (shift_each imgs w)) = drawn w.
Proof.
  induction imgs as [|img rest IH]; intros w F; [now repeat split|].
  simpl. destruct w as [evs tbl lanes sp fs nw uu dr con tr]. cbn [faults] in F.
  subst fs. step_world. apply IH. reflexivity.
Qed.

Lemma setPrimaryImage_calm imageId eventId w :
  faults w = [] ->
  fst (setPrimaryImage imageId eventId w) = Ok tt
  /\ images (snd (setPrimaryImage imageId eventId w))
     = write_positions
         (renumbering imageId 1
            (ordered Image.order_position true (filter (of_event eventId) (images w))))
         (amend (has_id imageId) (Image.at_position 0) (images w))
  /\ events (snd (setPrimaryImage imageId eventId w)) = events w.
Proof.
  destruct w as [evs tbl lanes sp fs nw uu dr con tr]. cbn [faults]. intros ->.
  unfold setPrimaryImage. step_world. unfold query.
  match goal with
  | |- context [renumber ?i ?p ?l ?W] =>
      destruct (renumber_calm i l p W eq_refl) as (R1 & R2 & R3);
      destruct (renumber i p l W) as [r w2]
  end.
  cbn [fst snd images events] in *. subst r. now repeat split.
Qed.

Lemma renumbering_keys imageId imgs : forall position,
  map fst (renumbering imageId position imgs)
  = map Image.id (filter (fun i => negb (has_id imageId i)) imgs).
Proof.
  induction imgs as [|image rest IH]; intros position; [reflexivity|].
  simpl. unfold has_id at 1.
  destruct (negb (Image.id image =? imageId)%string); simpl; now rewrite IH.
Qed.

Lemma renumbering_nth imageId imgs : forall position k o,
  nth_error (filter (fun i => negb (has_id imageId i)) imgs) k = Some o ->
  In (Image.id o, position + Z.of_nat k) (renumbering imageId position imgs).
Proof.
  induction imgs as [|image rest IH]; intros position k o; simpl.
  - destruct k; discriminate.
  - unfold has_id at 1.
    destruct (negb (Image.id image =? imageId)%string); [|apply IH].
    destruct k as [|k]; simpl.
    + intros [= ->]. left. f_equal. lia.
    + intros H. right. replace (position + Z.pos (Pos.of_succ_nat k))
        with (position + 1 + Z.of_nat k) by lia.
      now apply IH.
Qed.

Lemma NoDup_map_filter A B (f : A -> B) (c : A -> bool) l :
  NoDup (map f l) -> NoDup (map f (filter c l)).
Proof.
  induction l as [|x l IH]; simpl; [constructor|].
  intros N. inversion N as [|? ? Nx Nl]; subst.
  destruct (c x); simpl; [|now apply IH].
  constructor; [|now apply IH].
  intros I. apply Nx. apply in_map_iff in I. destruct I as (y & E & Hy).
  apply in_map_iff. exists y. split; [exact E|].
  apply filter_In in Hy. tauto.
Qed.

Lemma NoDup_map_inj A B (f : A -> B) l a b :
  NoDup (map f l) -> In a l -> In b l -> f a = f b -> a = b.
Proof.
  induction l as [|x l IH]; simpl; [intros _ []|].
  intros N Ha Hb E. inversion N as [|? ? Nx Nl]; subst.
  destruct Ha as [->|Ha], Hb as [->|Hb]; try reflexivity.
  - exfalso. apply Nx. rewrite E. now apply in_map.
  - exfalso. apply Nx. rewrite <- E. now apply in_map.
  - now apply IH.
Qed.

Lemma sorted_filter A (R : A -> A -> Prop) (c : A -> bool) l :
  StronglySorted R l -> StronglySorted R (filter c l).
Proof.
  induction 1 as [|x l S IH F]; simpl; [constructor|].
  destruct (c x); [|exact IH].
  constructor; [exact IH|].
  rewrite Forall_forall in *. intros y Hy. apply F.
  apply filter_In in Hy. tauto.
Qed.

Lemma at_position_id p i : Image.id (Image.at_position p i) = Image.id i.
Proof. reflexivity. Qed.

Lemma at_position_event eventId p i :
  of_event eventId (Image.at_position p i) = of_event eventId i.
Proof. reflexivity. Qed.

Section Promote.
Variables (imageId eventId : string) (w : World).
Hypothesis calm : faults w = [].
Hypothesis keyed : NoDup (map Image.id (images w)).

Let sibs := ordered Image.order_position true (filter (of_event eventId) (images w)).
Let plan := renumbering imageId 1 sibs.
Let final (x : Image.t) : Image.t :=
  let x' := if has_id imageId x then Image.at_position 0 x else x in
  match assoc (Image.id x') plan with
  | Some p => Image.at_position p x'
  | None => x'
  end.

Lemma sibs_perm : Permutation sibs (filter (of_event eventId) (images w)).
Proof. apply sort_perm. Qed.

Lemma others_spec o :
  In o (others imageId eventId w)
  <-> In o (images w) /\ of_event eventId o = true /\ Image.id o <> imageId.
Proof.
  unfold others. fold sibs. rewrite filter_In.
  split.
  - intros [I N]. apply (Permutation_in _ sibs_perm) in I.
    apply filter_In in I. destruct I as [I E]. repeat split; try assumption.
    unfold has_id in N. intros X. rewrite X, String.eqb_refl in N. discriminate.
  - intros (I & E & N). split.
    + apply (Permutation_in _ (Permutation_sym sibs_perm)).
      apply filter_In. now split.
    + unfold has_id. apply String.eqb_neq in N. now rewrite N.
Qed.

Lemma plan_keys : map fst plan = map Image.id (others imageId eventId w).
Proof. apply renumbering_keys. Qed.

Lemma plan_keyed : NoDup (map fst plan).
Proof.
  rewrite plan_keys. unfold others. apply NoDup_map_filter. fold sibs.
  apply (Permutation_NoDup (l := map Image.id (filter (of_event eventId) (images w)))).
  - apply Permutation_map, Permutation_sym, sibs_perm.
  - now apply NoDup_map_filter.
Qed.

Lemma promoted_images :
  images (snd (setPrimaryImage imageId eventId w)) = map final (images w).
Proof.
  destruct (setPrimaryImage_calm imageId eventId w calm) as (_ & -> & _).
  fold sibs plan. rewrite write_positions_spec by apply plan_keyed.
  unfold amend. rewrite map_map. reflexivity.
Qed.

Lemma final_id x : Image.id (final x) = Image.id x.
Proof.
  unfold final. destruct (has_id imageId x); cbn [Image.id Image.at_position];
    destruct (assoc _ plan); reflexivity.
Qed.

Lemma final_event x : of_event eventId (final x) = of_event eventId x.
Proof.
  unfold final. destruct (has_id imageId x); cbn [Image.id Image.at_position];
    destruct (assoc _ plan); reflexivity.
Qed.

Lemma final_target x : Image.id x = imageId -> final x = Image.at_position 0 x.
Proof.
  intros E. unfold final, has_id. rewrite E, String.eqb_refl.
  cbn [Image.id Image.at_position]. rewrite E.
  rewrite assoc_absent; [reflexivity|].
  rewrite plan_keys. intros I. apply in_map_iff in I.
  destruct I as (o & Eo & Ho). apply others_spec in Ho. tauto.
Qed.

Lemma final_other k o :
  nth_error (others imageId eventId w) k = Some o ->
  final o = Image.at_position (1 + Z.of_nat k) o.
Proof.
  intros H. assert (I : In o (others imageId eventId w)) by (eapply nth_error_In; eauto).
  apply others_spec in I. destruct I as (_ & _ & N).
  unfold final, has_id. apply String.eqb_neq in N. rewrite N.
  rewrite (assoc_present _ (1 + Z.of_nat k) _ plan_keyed); [reflexivity|].
  now apply renumbering_nth.
Qed.

Lemma final_outside x :
  In x (images w) -> of_event eventId x = false -> Image.id x <> imageId ->
  final x = x.
Proof.
  intros I E N. unfold final, has_id. apply String.eqb_neq in N. rewrite N.
  rewrite assoc_absent; [reflexivity|].
  rewrite plan_keys. intros J. apply in_map_iff in J.
  destruct J as (o & Eo & Ho). apply others_spec in Ho.
  destruct Ho as (Io & Ev & _).
  assert (o = x) by (eapply NoDup_map_inj; eauto). subst o. congruence.
Qed.

Lemma others_sorted :
  StronglySorted (fun a b => Image.order_position a <= Image.order_position b)
    (others imageId eventId w).
Proof. apply sorted_filter. apply sort_sorted. Qed.
End Promote.

Lemma shifting_keys imgs : map fst (shifting imgs) = map Image.id imgs.
Proof. unfold shifting. rewrite map_map. reflexivity. Qed.

(** The fallback loop moves every sibling one position up, the positions
    being safe integers. *)
Lemma write_shifting eventId tbl :
  NoDup (map Image.id tbl) ->
  safe_gallery eventId tbl = true ->
  write_positions (shifting (filter (of_event eventId) tbl)) tbl = shifted eventId tbl.
Proof.
  intros N S. rewrite write_positions_spec
    by (rewrite shifting_keys; now apply NoDup_map_filter).
  unfold shifted. apply map_ext_in. intros x Hx.
  destruct (of_event eventId x) eqn:E.
  - assert (Sx : Js.isSafeInteger (Image.order_position x) = true).
    { unfold safe_gallery in S. rewrite forallb_forall in S.
      apply S. apply filter_In. now split. }
    rewrite (assoc_present _ (Image.order_position x + 1)); [reflexivity| |].
    + rewrite shifting_keys. now apply NoDup_map_filter.
    + unfold shifting. apply in_map_iff. exists x.
      split; [now rewrite plus_one_safe|].
      apply filter_In. now split.
  - rewrite assoc_absent; [reflexivity|].
    rewrite shifting_keys. intros I. apply in_map_iff in I.
    destruct I as (o & Eo & Ho). apply filter_In in Ho. destruct Ho as [Io Ev].
    assert (o = x) by (eapply NoDup_map_inj; eauto). subst o. congruence.
Qed.

(** [addEventImage] with [isPrimary = true], the stored procedure being
    unavailable and no other request failing. *)
Lemma addEventImage_primary_fallback eventId imageUrl altText w :
  faults w = [] -> shift_image_positions w = None ->
  NoDup (map Image.id (images w)) ->
  safe_gallery eventId (images w) = true ->
  exists i w',
    addEventImage eventId imageUrl altText true w = (Ok i, w')
    /\ Image.order_position i = 0 /\ Image.event_id i = eventId
    /\ images w' = (shifted eventId (images w) ++ [i])%list.
Proof.
  destruct w as [evs tbl lanes sp fs nw uu dr con tr].
  cbn [faults shift_image_positions images]. intros -> -> N S.
  unfold addEventImage. step_world. unfold query.
  match goal with
  | |- context [shift_each ?l ?W] =>
      destruct (shift_each_calm l W eq_refl) as (S1 & S2 & S3 & S4 & S5 & S6 & S7);
      destruct (shift_each l W) as [r [evs2 tbl2 lanes2 sp2 fs2 nw2 uu2 dr2 con2 tr2]]
  end.
  cbn [fst snd images events faults now uuids drawn] in *. subst.
  step_world. do 2 eexists. split; [reflexivity|]. cbn [images].
  repeat split. now rewrite write_shifting.
Qed.

(** The same when the call of the stored procedure comes back with an
    error, whether or not the database has the procedure. *)
Lemma addEventImage_primary_rpc_down eventId imageUrl altText w err :
  faults w = [None; Some err] ->
  NoDup (map Image.id (images w)) ->
  safe_gallery eventId (images w) = true ->
  exists i w',
    addEventImage eventId imageUrl altText true w = (Ok i, w')
    /\ Image.order_position i = 0 /\ Image.event_id i = eventId
    /\ images w' = (shifted eventId (images w) ++ [i])%list.
Proof.
  destruct w as [evs tbl lanes sp fs nw uu dr con tr].
  cbn [faults shift_image_positions images]. intros -> N S.
  unfold addEventImage. step_world. unfold query.
  match goal with
  | |- context [shift_each ?l ?W] =>
      destruct (shift_each_calm l W eq_refl) as (S1 & S2 & S3 & S4 & S5 & S6 & S7);
      destruct (shift_each l W) as [r [evs2 tbl2 lanes2 sp2 fs2 nw2 uu2 dr2 con2 tr2]]
  end.
  cbn [fst snd images events faults now uuids drawn] in *. subst.
  step_world. do 2 eexists. split; [reflexivity|]. cbn [images].
  repeat split. now rewrite write_shifting.
Qed.

(** When the call of the stored procedure fails and the read of the
    fallback fails as well, no sibling is moved; the insert goes on. *)
Lemma addEventImage_primary_unshifted eventId imageUrl altText w err err' :
  faults w = [None; Some err; Some err']
  \/ (shift_image_positions w = None /\ faults w = [None; None; Some err']) ->
  exists i w',
    addEventImage eventId imageUrl altText true w = (Ok i, w')
    /\ Image.order_position i = 0 /\ Image.event_id i = eventId
    /\ images w' = (images w ++ [i])%list.
Proof.
  destruct w as [evs tbl lanes sp fs nw uu dr con tr].
  cbn [faults shift_image_positions images]. intros [->|[-> ->]].
  all: unfold addEventImage; step_world; do 2 eexists; now repeat split.
Qed.

(** The same with the stored procedure in place. *)
Lemma addEventImage_primary_rpc eventId imageUrl altText w f :
  faults w = [] -> shift_image_positions w = Some f ->
  exists i w',
    addEventImage eventId imageUrl altText true w = (Ok i, w')
    /\ Image.order_position i = 0 /\ Image.event_id i = eventId
    /\ images w' = (f eventId (images w) ++ [i])%list.
Proof.
  destruct w as [evs tbl lanes sp fs nw uu dr con tr].
  cbn [faults shift_image_positions images]. intros -> ->.
  unfold addEventImage. step_world. do 2 eexists. now repeat split.
Qed.

(* ================================================================== *)
(** * Promoting an image to primary *)
(* ================================================================== *)

(** C1, as stated, fails for addEventImage: with isPrimary = true the
    existing siblings at positions 1 and 5 end at 2 and 6, not at 1
    and 2. *)
Lemma addEventImage_primary_shifts_by_one :
  Demo.gallery
    (snd (addEventImage "E" "new-url" None true
            (Demo.world [] [Demo.image "a" 1; Demo.image "b" 5] [])))
  = [("a", 2); ("b", 6); ("id-0", 0)].
Proof. vm_compute. reflexivity. Qed.

Example setPrimaryImage_heals_gaps :
  Demo.gallery
    (snd (setPrimaryImage "c" "E"
            (Demo.world [] [Demo.image "a" 4; Demo.image "b" 2; Demo.image "c" 7;
                            Demo.image "d" 7] [])))
  = [("a", 2); ("b", 1); ("c", 0); ("d", 3)].
Proof. vm_compute. reflexivity. Qed.

(** C1, amended.  Image ids being unique:
    - when no request fails, setPrimaryImage on an image of the event
      resolves, puts that image at position 0, leaves it the only sibling
      at position 0, and gives the other siblings, taken in ascending
      order of their prior position, the positions 1, 2, 3, ...; images of
      other events keep their rows;
    - addEventImage with isPrimary = true does no renumbering of its own.
      It calls the stored procedure shift_image_positions and inserts the
      new image at position 0.  When the call succeeds the siblings are
      left as the procedure, which is the database's, leaves them.  When
      the call fails (there is no such procedure, or the request comes
      back with an error) and the requests of the fallback succeed, every
      sibling has been moved one position up, the positions being safe
      integers.  When the call fails and the read of the fallback fails
      too, no sibling is moved. *)
Theorem promotion_renumbers_or_shifts :
  forall imageId eventId w,
    NoDup (map Image.id (images w)) ->
    (faults w = [] ->
     forall t,
        In t (images w) -> Image.id t = imageId -> of_event eventId t = true ->
        let w' := snd (setPrimaryImage imageId eventId w) in
        fst (setPrimaryImage imageId eventId w) = Ok tt
        /\ map Image.id (images w') = map Image.id (images w)
        /\ (exists t',
              In t' (images w') /\ of_event eventId t' = true
              /\ Image.id t' = imageId /\ Image.order_position t' = 0
              /\ forall i, In i (images w') -> of_event eventId i = true ->
                           Image.order_position i = 0 -> i = t')
        /\ (forall k o,
              nth_error (others imageId eventId w) k = Some o ->
              exists i,
                In i (images w') /\ Image.id i = Image.id o
                /\ of_event eventId i = true
                /\ Image.order_position i = 1 + Z.of_nat k)
        /\ StronglySorted
             (fun a b => Image.order_position a <= Image.order_position b)
             (others imageId eventId w)
        /\ (forall o, In o (others imageId eventId w)
                      <-> In o (images w) /\ of_event eventId o = true
                          /\ Image.id o <> imageId)
        /\ (forall i, In i (images w') -> of_event eventId i = false ->
                      In i (images w)))
    /\ (forall imageUrl altText f,
        faults w = [] ->
        shift_image_positions w = Some f ->
        exists i w',
          addEventImage eventId imageUrl altText true w = (Ok i, w')
          /\ Image.order_position i = 0 /\ Image.event_id i = eventId
          /\ images w' = (f eventId (images w) ++ [i])%list)
    /\ (forall imageUrl altText,
        (faults w = [] /\ shift_image_positions w = None)
        \/ (exists err, faults w = [None; Some err]) ->
        safe_gallery eventId (images w) = true ->
        exists i w',
          addEventImage eventId imageUrl altText true w = (Ok i, w')
          /\ Image.order_position i = 0 /\ Image.event_id i = eventId
          /\ images w' = (shifted eventId (images w) ++ [i])%list)
    /\ (forall imageUrl altText err,
        (shift_image_positions w = None /\ faults w = [None; None; Some err])
        \/ (exists err', faults w = [None; Some err'; Some err]) ->
        exists i w',
          addEventImage eventId imageUrl altText true w = (Ok i, w')
          /\ Image.order_position i = 0 /\ Image.event_id i = eventId
          /\ images w' = (images w ++ [i])%list).
Proof.
  intros imageId eventId w N. split; [|split; [|split]].
  - intros F t It Et Vt w'.
    pose proof (promoted_images imageId eventId w F N) as T. fold w' in T.
    set (final := fun x => _) in T.
    assert (Fid : forall x, Image.id (final x) = Image.id x)
      by apply (final_id imageId eventId w).
    assert (Fev : forall x, of_event eventId (final x) = of_event eventId x)
      by apply (final_event imageId eventId w).
    assert (Ids : map Image.id (images w') = map Image.id (images w)).
    { rewrite T, map_map. now apply map_ext. }
    assert (Oth : forall k o, nth_error (others imageId eventId w) k = Some o ->
                  final o = Image.at_position (1 + Z.of_nat k) o)
      by apply (final_other imageId eventId w N).
    assert (Tgt : forall x, Image.id x = imageId -> final x = Image.at_position 0 x)
      by apply (final_target imageId eventId w).
    assert (Out : forall x, In x (images w) -> of_event eventId x = false ->
                  Image.id x <> imageId -> final x = x)
      by apply (final_outside imageId eventId w N).
    split; [apply (setPrimaryImage_calm imageId eventId w F)|].
    split; [exact Ids|].
    assert (Zero : forall i, In i (images w') -> of_event eventId i = true ->
                   Image.order_position i = 0 -> Image.id i = imageId).
    { intros i Hi Vi Pi. rewrite T in Hi. apply in_map_iff in Hi.
      destruct Hi as (x & <- & Hx). rewrite Fid.
      destruct (String.eqb_spec (Image.id x) imageId) as [E|NE]; [exact E|].
      exfalso. rewrite Fev in Vi.
      assert (Ho : In x (others imageId eventId w))
        by (apply (others_spec imageId eventId w); tauto).
      apply In_nth_error in Ho. destruct Ho as (k & Hk).
      rewrite (Oth k x Hk) in Pi.
      cbn [Image.order_position Image.at_position] in Pi. lia. }
    split; [|split; [|split; [|split]]].
    + exists (final t). split; [rewrite T; now apply in_map|].
      split; [now rewrite Fev|]. split; [now rewrite Fid|].
      split.
      * now rewrite (Tgt t Et).
      * intros i Hi Vi Pi.
        apply (NoDup_map_inj _ _ Image.id (images w')); try assumption.
        -- now rewrite Ids.
        -- rewrite T. now apply in_map.
        -- rewrite Fid, Et. now apply Zero.
    + intros k o Hk. exists (final o).
      assert (Ho : In o (others imageId eventId w)) by (eapply nth_error_In; eauto).
      apply (others_spec imageId eventId w) in Ho. destruct Ho as (Io & Vo & _).
      split; [rewrite T; now apply in_map|]. split; [apply Fid|].
      split; [now rewrite Fev|]. now rewrite (Oth k o Hk).
    + apply others_sorted.
    + intros o. apply (others_spec imageId eventId w).
    + intros i Hi Vi. rewrite T in Hi. apply in_map_iff in Hi.
      destruct Hi as (x & <- & Hx). rewrite Fev in Vi.
      rewrite (Out x Hx Vi); [exact Hx|].
      intros E. assert (x = t) by (eapply NoDup_map_inj; eauto; congruence).
      subst x. congruence.
  - intros imageUrl altText f F S. now apply addEventImage_primary_rpc.
  - intros imageUrl altText [[F S]|[err F]] G.
    + now apply addEventImage_primary_fallback.
    + now apply (addEventImage_primary_rpc_down eventId imageUrl altText w err).
  - intros imageUrl altText err [[S F]|[err' F]].
    + apply (addEventImage_primary_unshifted eventId imageUrl altText w err err).
      right. now split.
    + apply (addEventImage_primary_unshifted eventId imageUrl altText w err' err).
      now left.
Qed.

Lemma promotion_renumbers_or_shifts_witness :
  let tbl := [Demo.image "a" 4; Demo.image "b" 2; Demo.image "c" 7;
              Demo.image "d" 7] in
  let w := Demo.world [] tbl [] in
  faults w = []
  /\ NoDup (map Image.id (images w))
  /\ In (Demo.image "c" 7) (images w)
  /\ safe_gallery "E" (images w) = true
  /\ fst (setPrimaryImage "c" "E" w) = Ok tt
  /\ (forall k o,
        nth_error (others "c" "E" w) k = Some o ->
        exists i,
          In i (images (snd (setPrimaryImage "c" "E" w)))
          /\ Image.id i = Image.id o /\ of_event "E" i = true
          /\ Image.order_position i = 1 + Z.of_nat k)
  /\ (exists i w',
        addEventImage "E" "new-url" None true w = (Ok i, w')
        /\ Image.order_position i = 0 /\ Image.event_id i = "E"
        /\ images w' = (shifted "E" (images w) ++ [i])%list)
  /\ (exists i w',
        addEventImage "E" "new-url" None true (Demo.world_with shifted [] tbl [])
        = (Ok i, w')
        /\ Image.order_position i = 0 /\ Image.event_id i = "E"
        /\ images w' = (shifted "E" tbl ++ [i])%list)
  /\ (exists i w',
        addEventImage "E" "new-url" None true
          (Demo.world [] tbl [None; None; Some Demo.down]) = (Ok i, w')
        /\ Image.order_position i = 0 /\ Image.event_id i = "E"
        /\ images w' = (tbl ++ [i])%list).
Proof.
  intros tbl w.
  assert (K : NoDup (map Image.id (images w))).
  { cbn. repeat constructor; cbn; intuition discriminate. }
  assert (I : In (Demo.image "c" 7) (images w)) by (cbn; tauto).
  destruct (promotion_renumbers_or_shifts "c" "E" w K) as (A & _ & B & _).
  destruct (A eq_refl (Demo.image "c" 7) I eq_refl eq_refl) as (R & _ & _ & O & _).
  split; [reflexivity|]. split; [exact K|]. split; [exact I|].
  split; [reflexivity|]. split; [exact R|]. split; [exact O|].
  split; [exact (B "new-url" None (or_introl (conj eq_refl eq_refl)) eq_refl)|].
  split.
  - destruct (promotion_renumbers_or_shifts "c" "E"
                (Demo.world_with shifted [] tbl []) K)
      as (_ & C & _).
    exact (C "new-url" None shifted eq_refl eq_refl).
  - destruct (promotion_renumbers_or_shifts "c" "E"
                (Demo.world [] tbl [None; None; Some Demo.down]) K)
      as (_ & _ & _ & D).
    exact (D "new-url" None Demo.down (or_introl (conj eq_refl eq_refl))).
Defined.

(* ================================================================== *)
(** * A failed sibling write *)
(* ================================================================== *)

(** The responses of the batch are never looked at: [reorderEvents]
    resolves whichever requests fail. *)
Lemma reorderEvents_always_resolves memoryLaneId eventOrders w :
  fst (reorderEvents memoryLaneId eventOrders w) = Ok tt.
Proof.
  unfold reorderEvents. step_world.
  generalize (now w). intros t. revert w.
  induction eventOrders as [|[id p] rest IH]; intros w; [reflexivity|].
  cbn [map Promise_all]. step_world.
  destruct w as [evs imgs lanes sp fs nw uu dr con tr].
  destruct fs as [|[e|] fs]; step_world.
  all: match goal with
       | |- context [Promise_all ?l ?W] =>
           specialize (IH W); destruct (Promise_all l W) as [[r|x] w2]
       end; cbn in IH |- *; congruence.
Qed.

(** C6, at a failing input.  The second write of a two-event reorder
    fails: reorderEvents resolves, nothing is logged, the first write
    stays (both events now sit at position 2).  The write to the second
    sibling fails in setPrimaryImage: it resolves as well, nothing is
    logged, and the gallery is left half renumbered. *)
Theorem renumbering_failure_goes_unreported :
  (let out := reorderEvents "L" [("a", 2); ("b", 1)]
                (Demo.world [Demo.event "a" "2023-03-01" 1;
                             Demo.event "b" "2023-01-10" 2] []
                   [None; Some Demo.down]) in
   resolved out = Some tt
   /\ Demo.positions (snd out) = [("a", 2); ("b", 2)]
   /\ console (snd out) = [])
  /\ (let out := setPrimaryImage "c" "E"
                   (Demo.world [] [Demo.image "a" 2; Demo.image "b" 5;
                                   Demo.image "c" 7]
                      [None; None; None; Some Demo.down]) in
      resolved out = Some tt
      /\ Demo.gallery (snd out) = [("a", 1); ("b", 5); ("c", 0)]
      /\ console (snd out) = []).
Proof. vm_compute. repeat split. Qed.

Example setPrimaryImage_reports_failed_promotion :
  resolved (setPrimaryImage "c" "E"
              (Demo.world [] [Demo.image "a" 2; Demo.image "c" 7]
                 [None; Some Demo.down]))
  = None.
Proof. vm_compute. reflexivity. Qed.

(* ================================================================== *)
(** * Further properties of the services *)
(* ================================================================== *)

Ltac step_more :=
  cbv beta iota zeta delta
    [bind ret throw try_catch request success failure ghost console_error
     console_warn Date_now_toISOString uuidv4 first rows data error fst snd
     events images memory_lanes shift_image_positions faults now uuids
     drawn console trace set_events set_images set_memory_lanes set_faults
     set_drawn log mark events_select events_single events_insert
     events_update images_select images_insert images_update
     memory_lanes_update rpc_shift_image_positions events_delete
     images_delete memory_lanes_delete memory_lanes_insert
     memory_lanes_single].

(** ** Looking up, updating and deleting an event that is not there *)

Lemma getEventById_calm id w :
  faults w = [] ->
  getEventById id w
  = (Ok (match filter (live_event id) (events w) with
         | [e] => Some e
         | _ => None
         end), w).
Proof.
  destruct w as [evs imgs lanes sp fs nw uu dr con tr]. cbn [faults]. intros ->.
  unfold getEventById. step_more.
  destruct (filter (live_event id) evs) as [|e [|e2 l]]; reflexivity.
Qed.

(** Without a live event to work on, the two mutations give up before
    they write. *)
Lemma missing_event_gives_up :
  forall newDate id updates w,
    (forall cur, filter (live_event id) (events w) <> [cur]) ->
    (exists x,
        fst (updateEvent newDate id updates w) = Throw x
        /\ (faults w = [] -> x = Error "Event not found"))
    /\ (exists x,
        fst (deleteEvent newDate id w) = Throw x
        /\ (faults w = [] -> x = Error "Event not found"))
    /\ events (snd (updateEvent newDate id updates w)) = events w
    /\ events (snd (deleteEvent newDate id w)) = events w
    /\ memory_lanes (snd (updateEvent newDate id updates w)) = memory_lanes w
    /\ memory_lanes (snd (deleteEvent newDate id w)) = memory_lanes w
    /\ trace (snd (updateEvent newDate id updates w)) = trace w
    /\ trace (snd (deleteEvent newDate id w)) = trace w.
Proof.
  intros newDate id updates [evs imgs lanes sp fs nw uu dr con tr] Miss.
  cbn [events] in Miss. unfold updateEvent, deleteEvent, getEventById.
  destruct (filter (live_event id) evs) as [|e [|e2 l]] eqn:Q;
    [| exfalso; now apply (Miss e) |];
    destruct fs as [|[e1|] fs]; step_more; rewrite ?Q;
    try destruct (code e1 =? "PGRST116")%string; step_more;
    repeat split; eexists; split; try reflexivity; intros; try discriminate;
    reflexivity.
Qed.

(** X1.  updateEvent and deleteEvent write nothing unless the lookup
    found exactly one live event with the id: otherwise they throw,
    whatever requests fail, and leave the three tables and the trace as
    they were; when the lookup request itself went through, what they
    throw is Error("Event not found"). *)
Theorem missing_event_is_not_mutated :
  forall newDate id updates w,
    (forall cur, filter (live_event id) (events w) <> [cur]) ->
    (exists x,
        fst (updateEvent newDate id updates w) = Throw x
        /\ (faults w = [] -> x = Error "Event not found"))
    /\ (exists x,
        fst (deleteEvent newDate id w) = Throw x
        /\ (faults w = [] -> x = Error "Event not found"))
    /\ events (snd (updateEvent newDate id updates w)) = events w
    /\ events (snd (deleteEvent newDate id w)) = events w
    /\ memory_lanes (snd (updateEvent newDate id updates w)) = memory_lanes w
    /\ memory_lanes (snd (deleteEvent newDate id w)) = memory_lanes w
    /\ trace (snd (updateEvent newDate id updates w)) = trace w
    /\ trace (snd (deleteEvent newDate id w)) = trace w.
Proof. exact missing_event_gives_up. Qed.

Lemma missing_event_is_not_mutated_witness :
  let w := Demo.world [soft_delete "t" (Demo.event "a" "2023-03-01" 1)] [] [] in
  (forall cur, filter (live_event "a") (events w) <> [cur])
  /\ fst (deleteEvent Js.parseISO "a" w) = Throw (Error "Event not found")
  /\ events (snd (deleteEvent Js.parseISO "a" w)) = events w.
Proof.
  intros w.
  assert (Miss : forall cur, filter (live_event "a") (events w) <> [cur])
    by (intros cur; cbn; discriminate).
  destruct (missing_event_is_not_mutated Js.parseISO "a" (EventUpdates.mk None None None None None None) w Miss)
    as (_ & (x & D & Dx) & _ & E & _).
  split; [exact Miss|]. split; [|exact E].
  rewrite D. f_equal. now apply Dx.
Defined.

(** ** Soft deletion of an event *)

Lemma refresh_date_range_calm newDate lane w :
  faults w = [] ->
  faults (snd (refresh_date_range newDate lane w)) = []
  /\ now (snd (refresh_date_range newDate lane w)) = now w
  /\ shift_image_positions (snd (refresh_date_range newDate lane w))
     = shift_image_positions w.
Proof.
  destruct w as [evs imgs lanes sp fs nw uu dr con tr]. cbn [faults]. intros ->.
  unfold refresh_date_range, updateDateRange, getMemoryLaneEvents,
    updateMemoryLane, toISOString.
  step_more; run_cases; repeat split.
Qed.

Lemma getMemoryLaneEvents_calm lane w :
  faults w = [] ->
  getMemoryLaneEvents lane w
  = (Ok (query Event.order_position (live_in lane) (Some true) None (events w)), w).
Proof.
  destruct w as [evs imgs lanes sp fs nw uu dr con tr]. cbn [faults]. intros ->.
  reflexivity.
Qed.

Lemma soft_deleted_not_live id t evs :
  filter (live_event id)
    (amend (fun e => (Event.id e =? id)%string) (soft_delete t) evs) = [].
Proof.
  induction evs as [|e evs IH]; [reflexivity|].
  cbn [amend map filter]. fold (amend (fun e => (Event.id e =? id)%string) (soft_delete t) evs).
  rewrite IH. unfold live_event.
  destruct (Event.id e =? id)%string eqn:E; cbn [soft_delete Event.id Event.deleted_at is_null].
  - now rewrite E.
  - now rewrite E.
Qed.

Lemma soft_deleted_ids id t evs :
  map Event.id (amend (fun e => (Event.id e =? id)%string) (soft_delete t) evs)
  = map Event.id evs.
Proof.
  unfold amend. rewrite map_map. apply map_ext. intros e.
  now destruct (Event.id e =? id)%string.
Qed.

Lemma soft_deleted_live_elsewhere id t lane evs e :
  In e (filter (live_in lane)
          (amend (fun e => (Event.id e =? id)%string) (soft_delete t) evs)) ->
  In e (filter (live_in lane) evs) /\ Event.id e <> id.
Proof.
  rewrite !filter_In. unfold amend. rewrite in_map_iff.
  intros [(x & E & Hx) L].
  destruct (Event.id x =? id)%string eqn:I.
  - subst e. unfold live_in in L. cbn in L. rewrite andb_false_r in L. discriminate.
  - subst e. apply String.eqb_neq in I. tauto.
Qed.

(** X2.  A deleteEvent that resolves keeps the row (the table has the
    same ids in the same order) but hides it: in any later state of the
    same events table with no failing request, getEventById answers
    null, a second deleteEvent and an updateEvent throw
    Error("Event not found"), and getMemoryLaneEvents returns, for every
    lane, only events that were live before and have another id. *)
Theorem deleted_event_is_hidden :
  forall newDate id w w',
    deleteEvent newDate id w = (Ok tt, w') ->
    map Event.id (events w') = map Event.id (events w)
    /\ forall w2,
         events w2 = events w' -> faults w2 = [] ->
         fst (getEventById id w2) = Ok None
         /\ fst (deleteEvent newDate id w2) = Throw (Error "Event not found")
         /\ (forall updates,
               fst (updateEvent newDate id updates w2)
               = Throw (Error "Event not found"))
         /\ forall lane, exists l,
              fst (getMemoryLaneEvents lane w2) = Ok l
              /\ forall e, In e l ->
                   In e (filter (live_in lane) (events w)) /\ Event.id e <> id.
Proof.
  intros newDate id w w' D. apply deleteEvent_effect in D.
  destruct D as (cur & post & Q & Ev & _). split.
  - rewrite Ev. apply soft_deleted_ids.
  - intros w2 E2 F2.
    assert (Gone : filter (live_event id) (events w2) = []).
    { rewrite E2, Ev. apply soft_deleted_not_live. }
    assert (Miss : forall c, filter (live_event id) (events w2) <> [c])
      by (intros c; rewrite Gone; discriminate).
    split; [rewrite (getEventById_calm id w2 F2), Gone; reflexivity|].
    split; [|split].
    + destruct (missing_event_gives_up newDate id
                  (EventUpdates.mk None None None None None None) w2 Miss)
        as (_ & (x & Dx & Hx) & _).
      rewrite Dx. f_equal. now apply Hx.
    + intros updates.
      destruct (missing_event_gives_up newDate id updates w2 Miss)
        as ((x & Dx & Hx) & _).
      rewrite Dx. f_equal. now apply Hx.
    + intros lane. rewrite (getMemoryLaneEvents_calm lane w2 F2).
      eexists. split; [reflexivity|].
      intros e He. apply (Permutation_in _ (fetched_events_perm lane _)) in He.
      rewrite E2, Ev in He. now apply soft_deleted_live_elsewhere in He.
Qed.

Lemma deleted_event_is_hidden_witness :
  let w := Demo.world [Demo.event "a" "2023-03-01" 1; Demo.event "b" "2023-01-10" 2]
             [] [] in
  exists w',
    deleteEvent Js.parseISO "a" w = (Ok tt, w')
    /\ map Event.id (events w') = ["a"; "b"]
    /\ fst (getEventById "a" w') = Ok None
    /\ fst (deleteEvent Js.parseISO "a" w') = Throw (Error "Event not found").
Proof.
  intros w. eexists. split; [vm_compute; reflexivity|].
  match goal with
  | |- map Event.id (events ?w') = _ /\ _ =>
      destruct (deleted_event_is_hidden Js.parseISO "a" w w') as (I & L);
        [vm_compute; reflexivity|];
      destruct (L w' eq_refl eq_refl) as (G & D & _)
  end.
  split; [exact I|]. split; [exact G | exact D].
Defined.

(** ** Creating an event *)

Lemma createEvent_calm_frame newDate event w :
  faults w = [] ->
  exists e w',
    createEvent newDate event w = (Ok (Some e), w')
    /\ faults w' = []
    /\ Event.id e = uuids w (drawn w)
    /\ Event.title e = NewEvent.title event
    /\ Event.event_date e = NewEvent.event_date event.
Proof.
  destruct w as [evs imgs lanes sp fs nw uu dr con tr]. cbn [faults]. intros ->.
  unfold createEvent.
  destruct (Js.falsy_num (NewEvent.order_position event)); step_more.
  all: match goal with
       | |- context [refresh_date_range ?d ?l ?W] =>
           destruct (refresh_date_range_spec d l W) as (R & _);
           destruct (refresh_date_range_calm d l W eq_refl) as (C & _);
           destruct (refresh_date_range d l W) as [[[]|?] w2];
           cbn [fst snd] in R, C; try discriminate R
       end.
  all: do 2 eexists; repeat split; assumption.
Qed.

(** X3.  When no request fails and the generated id is not yet in the
    events table, the event createEvent resolves to can be read back:
    getEventById on its id returns that very event, which carries the
    generated id and the caller's lane, title and date, and is not
    deleted. *)
Theorem created_event_is_found :
  forall newDate event w,
    faults w = [] ->
    ~ In (uuids w (drawn w)) (map Event.id (events w)) ->
    exists e w',
      createEvent newDate event w = (Ok (Some e), w')
      /\ Event.id e = uuids w (drawn w)
      /\ Event.memory_lane_id e = NewEvent.memory_lane_id event
      /\ Event.title e = NewEvent.title event
      /\ Event.event_date e = NewEvent.event_date event
      /\ Event.deleted_at e = None
      /\ fst (getEventById (Event.id e) w') = Ok (Some e).
Proof.
  intros newDate event w F Fresh.
  destruct (createEvent_calm_frame newDate event w F) as (e & w' & C & F' & I & T & D).
  exists e, w'. pose proof (createEvent_effect _ _ _ _ _ C) as E.
  destruct E as (_ & [((x & X) & _)|(e0 & post & R & Ev & La & Dl & _)]);
    [discriminate|].
  injection R as <-.
  repeat (split; [assumption|]).
  rewrite (getEventById_calm _ w' F'), Ev, filter_app.
  replace (filter (live_event (Event.id e)) (events w)) with (@nil Event.t).
  - cbn. unfold live_event. now rewrite String.eqb_refl, Dl.
  - symmetry. clear - Fresh I. rewrite I. induction (events w) as [|x l IH]; [reflexivity|].
    cbn in *. unfold live_event at 1.
    destruct (String.eqb_spec (Event.id x) (uuids w (drawn w))) as [E|_].
    + exfalso. apply Fresh. now left.
    + cbn. apply IH. tauto.
Qed.

Lemma created_event_is_found_witness :
  let w := Demo.world [Demo.event "a" "2023-03-01" 1] [] [] in
  let event := Demo.new_event "2023-05-05" None in
  faults w = []
  /\ ~ In (uuids w (drawn w)) (map Event.id (events w))
  /\ exists e w',
       createEvent Js.parseISO event w = (Ok (Some e), w')
       /\ Event.id e = "id-0"
       /\ fst (getEventById "id-0" w') = Ok (Some e).
Proof.
  intros w event.
  assert (Fresh : ~ In (uuids w (drawn w)) (map Event.id (events w)))
    by (vm_compute; intros [E|[]]; discriminate E).
  split; [reflexivity|]. split; [exact Fresh|].
  destruct (created_event_is_found Js.parseISO event w eq_refl Fresh)
    as (e & w' & C & I & _ & _ & _ & _ & G).
  exists e, w'. split; [exact C|]. split; [exact I|].
  rewrite I in G. exact G.
Defined.

(** X4.  createEvent and the non-primary addEventImage are all or
    nothing, whatever requests fail: either the call throws and its
    table is as before, or it resolves and exactly one row, the one it
    returns, was appended.  Neither touches the other's table, and a
    createEvent given a non-zero position stores the event at exactly that
    position, without looking at the siblings. *)
Theorem append_is_all_or_nothing :
  forall newDate event eventId imageUrl altText w,
    let created := createEvent newDate event w in
    let added := addEventImage eventId imageUrl altText false w in
    images (snd created) = images w
    /\ events (snd added) = events w
    /\ ((exists x, fst created = Throw x) /\ events (snd created) = events w
        \/ exists e, fst created = Ok (Some e)
                     /\ events (snd created) = (events w ++ [e])%list)
    /\ ((exists x, fst added = Throw x) /\ images (snd added) = images w
        \/ exists i, fst added = Ok i
                     /\ images (snd added) = (images w ++ [i])%list)
    /\ (forall p e,
          NewEvent.order_position event = Some p -> p <> 0 ->
          fst created = Ok (Some e) -> Event.order_position e = p).
Proof.
  intros newDate event eventId imageUrl altText w created added.
  destruct created as [rc wc] eqn:C. destruct added as [ra wa] eqn:A.
  subst created added.
  apply createEvent_effect in C. apply addEventImage_append_effect in A.
  cbn [fst snd]. destruct C as (Ci & C). destruct A as (Ae & A).
  split; [exact Ci|]. split; [exact Ae|]. split; [|split].
  - destruct C as [(X & Ev & _)|(e & post & R & Ev & _)]; [left | right]; eauto.
  - destruct A as [(X & Im)|(i & R & Im & _)]; [left | right]; eauto.
  - intros p e P NZ R.
    destruct C as [((x & X) & _)|(e0 & post & R0 & _ & _ & _ & Pos & _)];
      [congruence|].
    rewrite P in Pos. cbn in Pos. apply Z.eqb_neq in NZ. rewrite NZ in Pos.
    assert (e0 = e) by congruence. subst e0. congruence.
Qed.

Lemma append_is_all_or_nothing_witness :
  let w := Demo.world [Demo.event "a" "2023-03-01" 7] [] [] in
  let event := Demo.new_event "2023-05-05" (Some 7) in
  NewEvent.order_position event = Some 7
  /\ exists e,
       fst (createEvent Js.parseISO event w) = Ok (Some e)
       /\ Event.order_position e = 7.
Proof.
  intros w event. split; [reflexivity|].
  destruct (append_is_all_or_nothing Js.parseISO event "E" "url" None w)
    as (_ & _ & _ & _ & P).
  destruct (createEvent Js.parseISO event w) as [r w'] eqn:C.
  assert (R : exists e, r = Ok (Some e))
    by (revert C; vm_compute; intros [= <- _]; eauto).
  destruct R as (e & ->). exists e. split; [reflexivity|].
  apply (P 7 e eq_refl); [discriminate | reflexivity].
Defined.

(** ** A primary upload whose insert fails *)

Lemma shift_each_through imgs : forall w rest,
  faults w = (repeat None (List.length imgs) ++ rest)%list ->
  fst (shift_each imgs w) = Ok tt
  /\ images (snd (shift_each imgs w)) = write_positions (shifting imgs) (images w)
  /\ faults (snd (shift_each imgs w)) = rest
  /\ now (snd (shift_each imgs w)) = now w
  /\ uuids (snd (shift_each imgs w)) = uuids w
  /\ drawn (snd (shift_each imgs w)) = drawn w.
Proof.
  induction imgs as [|img more IH]; intros w rest F.
  - cbn in F. now repeat split.
  - destruct w as [evs tbl lanes sp fs nw uu dr con tr]. cbn [faults] in F.
    subst fs. cbn [List.length repeat app shift_each]. step_more.
    apply IH. reflexivity.
Qed.

(** X5.  addEventImage with isPrimary = true is not all or nothing.  With
    the stored procedure unavailable, unique image ids, the images of the
    event at safe integers (so that the JavaScript sum position + 1 is
    exact), and the insert being the first request to fail, the call
    throws the insert's error, no image is added, and every image of the
    event has been moved one position up all the same. *)
Theorem failed_primary_insert_leaves_the_shift :
  forall eventId imageUrl altText w err,
    shift_image_positions w = None ->
    NoDup (map Image.id (images w)) ->
    safe_gallery eventId (images w) = true ->
    faults w
    = (None :: None :: None
       :: repeat None (List.length (filter (of_event eventId) (images w)))
       ++ [Some err])%list ->
    fst (addEventImage eventId imageUrl altText true w) = Throw (Pg err)
    /\ images (snd (addEventImage eventId imageUrl altText true w))
       = shifted eventId (images w).
Proof.
  intros eventId imageUrl altText [evs tbl lanes sp fs nw uu dr con tr] err.
  cbn [faults shift_image_positions images]. intros -> N S ->.
  unfold addEventImage. step_more. unfold query.
  match goal with
  | |- context [shift_each ?l ?W] =>
      destruct (shift_each_through l W [Some err] eq_refl)
        as (S1 & S2 & S3 & S4 & S5 & S6);
      destruct (shift_each l W) as [r [evs2 tbl2 lanes2 sp2 fs2 nw2 uu2 dr2 con2 tr2]]
  end.
  cbn [fst snd images faults now uuids drawn] in *. subst.
  step_more. split; [reflexivity|]. now apply write_shifting.
Qed.

Lemma failed_primary_insert_leaves_the_shift_witness :
  let w := Demo.world [] [Demo.image "a" 0; Demo.image "b" 1]
             [None; None; None; None; None; Some Demo.down] in
  shift_image_positions w = None
  /\ NoDup (map Image.id (images w))
  /\ safe_gallery "E" (images w) = true
  /\ fst (addEventImage "E" "new-url" None true w) = Throw (Pg Demo.down)
  /\ Demo.gallery (snd (addEventImage "E" "new-url" None true w))
     = [("a", 1); ("b", 2)].
Proof.
  intros w.
  assert (K : NoDup (map Image.id (images w)))
    by (cbn; repeat constructor; cbn; intuition discriminate).
  destruct (failed_primary_insert_leaves_the_shift "E" "new-url" None w Demo.down
              eq_refl K eq_refl eq_refl) as (T & I).
  split; [reflexivity|]. split; [exact K|]. split; [reflexivity|]. split; [exact T|].
  unfold Demo.gallery. rewrite I. reflexivity.
Defined.

(** ** Reordering the events of a lane *)

Lemma Forall2_compose A (R1 R2 R : A -> A -> Prop) l1 :
  (forall a b c, R1 a b -> R2 b c -> R a c) ->
  forall l2 l3, Forall2 R1 l1 l2 -> Forall2 R2 l2 l3 -> Forall2 R l1 l3.
Proof.
  intros T. induction l1 as [|a l1 IH]; intros l2 l3 H1 H2;
    inversion H1; subst; inversion H2; subst; constructor; eauto.
Qed.

Lemma Forall2_amend A (R : A -> A -> Prop) (cond : A -> bool) (patch : A -> A) l :
  (forall a, cond a = true -> R a (patch a)) -> (forall a, R a a) ->
  Forall2 R l (amend cond patch l).
Proof.
  intros P I. induction l as [|a l IH]; cbn; constructor; [|exact IH].
  destruct (cond a) eqn:C; auto.
Qed.

Lemma Forall2_same A (R : A -> A -> Prop) l : (forall a, R a a) -> Forall2 R l l.
Proof. intros I. induction l; constructor; auto. Qed.

Lemma reorder_step lane t id p w r w1 :
  events_update (fun e => (Event.id e =? id)%string && live_in lane e)
    (reposition p t) w = (r, w1) ->
  (exists a, r = Ok a)
  /\ Forall2 (fun e e1 =>
               e1 = e
               \/ (live_in lane e = true /\ Event.id e = id
                   /\ e1 = reposition p t e))
       (events w) (events w1).
Proof.
  destruct w as [evs imgs lanes sp fs nw uu dr con tr].
  destruct fs as [|[e1|] fs]; step_more; intros [= <- <-]; cbn [events];
    (split; [eauto|]); try (apply Forall2_same; now left).
  all: apply Forall2_amend; [|intros a; now left].
  all: intros a C; apply andb_prop in C; destruct C as [C1 C2];
    apply String.eqb_eq in C1; right; now repeat split.
Qed.

(** The batch of updates, sent with timestamp [t]. *)
Lemma reorder_batch_scope lane t orders : forall w,
  Forall2 (fun e e' =>
             e' = e
             \/ (live_in lane e = true
                 /\ exists p, In (Event.id e, p) orders /\ e' = reposition p t e))
    (events w)
    (events (snd (Promise_all
                    (map (fun '(id, order_position) =>
                            events_update
                              (fun e => (Event.id e =? id)%string && live_in lane e)
                              (reposition order_position t))
                         orders) w))).
Proof.
  induction orders as [|[id p] rest IH]; intros w.
  - cbn. apply Forall2_same. now left.
  - cbn [map Promise_all]. unfold bind at 1.
    destruct (events_update _ _ w) as [r w1] eqn:U.
    apply reorder_step in U. destruct U as ((a & ->) & S).
    specialize (IH w1). unfold bind at 1.
    destruct (Promise_all _ w1) as [[rs|x] w2]; cbn [snd ret] in *.
    all: eapply Forall2_compose; [|exact S|exact IH].
    all: intros e e1 e2 [->|(L & I & ->)] [->|(L' & q & Iq & ->)].
    all: try (now left).
    all: right; split; try assumption.
    + exists q. split; [now right | reflexivity].
    + exists p. split; [left; now rewrite I | reflexivity].
    + exists q. split; [now right | reflexivity].
    + exists q. split; [now right | reflexivity].
    + exists p. split; [left; now rewrite I | reflexivity].
    + exists q. split; [now right | reflexivity].
Qed.

(** X6.  Whatever requests fail, reorderEvents changes an event row only
    if the event is live, belongs to the stated lane and is named in the
    batch, and then only its position (to a position the batch gives for
    its id) and its updated_at: rows of other lanes, soft-deleted rows and
    rows the batch does not name come out as they went in, and no row is
    added or removed. *)
Theorem reorderEvents_touches_only_named_live_events :
  forall memoryLaneId eventOrders w,
    Forall2 (fun e e' =>
               e' = e
               \/ (live_in memoryLaneId e = true
                   /\ exists p,
                        In (Event.id e, p) eventOrders
                        /\ e' = reposition p (now w) e))
      (events w)
      (events (snd (reorderEvents memoryLaneId eventOrders w))).
Proof.
  intros lane orders w.
  pose proof (reorder_batch_scope lane (now w) orders w) as S.
  unfold reorderEvents. unfold bind at 1. cbn [Date_now_toISOString].
  unfold bind at 1. destruct (Promise_all _ w) as [[rs|x] w2]; exact S.
Qed.

Lemma events_update_calm cond patch w :
  faults w = [] ->
  exists r w1,
    events_update cond patch w = (Ok r, w1)
    /\ events w1 = amend cond patch (events w)
    /\ faults w1 = [].
Proof.
  destruct w as [evs imgs lanes sp fs nw uu dr con tr]. cbn [faults]. intros ->.
  do 2 eexists. now repeat split.
Qed.

Lemma reorder_batch_calm lane t orders : forall w,
  faults w = [] ->
  events (snd (Promise_all
                 (map (fun '(id, order_position) =>
                         events_update
                           (fun e => (Event.id e =? id)%string && live_in lane e)
                           (reposition order_position t))
                      orders) w))
  = fold_left (fun tbl o =>
                 amend (fun e => (Event.id e =? fst o)%string && live_in lane e)
                   (reposition (snd o) t) tbl)
      orders (events w).
Proof.
  induction orders as [|[id p] rest IH]; intros w F; [reflexivity|].
  cbn [map Promise_all fold_left fst snd]. unfold bind at 1.
  destruct (events_update_calm
              (fun e => (Event.id e =? id)%string && live_in lane e)
              (reposition p t) w F) as (r & w1 & -> & E1 & F1).
  specialize (IH w1 F1). rewrite E1 in IH. unfold bind at 1.
  now destruct (Promise_all _ w1) as [[rs|x] w2].
Qed.

Lemma reorder_fold_spec lane t orders : forall tbl,
  NoDup (map fst orders) ->
  fold_left (fun tbl o =>
               amend (fun e => (Event.id e =? fst o)%string && live_in lane e)
                 (reposition (snd o) t) tbl)
    orders tbl
  = map (fun e => match assoc (Event.id e) orders with
                  | Some p => if live_in lane e then reposition p t e else e
                  | None => e
                  end) tbl.
Proof.
  induction orders as [|[a p] rest IH]; intros tbl N.
  - cbn. now rewrite map_id.
  - inversion N as [|? ? Na Nr]; subst. cbn [fold_left fst snd].
    rewrite IH by exact Nr. unfold amend. rewrite map_map. apply map_ext.
    intros e. unfold assoc. cbn [find fst].
    rewrite (String.eqb_sym a (Event.id e)).
    destruct (String.eqb_spec (Event.id e) a) as [E|_]; cbn [andb option_map snd];
      [|reflexivity].
    destruct (live_in lane e) eqn:L.
    + cbn [reposition Event.id]. rewrite E. fold (assoc a rest).
      now rewrite (assoc_absent a rest Na).
    + rewrite E. fold (assoc a rest). now rewrite (assoc_absent a rest Na).
Qed.

(** X7.  When no request fails and the batch names every id at most once,
    reorderEvents gives each live event of the lane that the batch names
    the position the batch states, and leaves every other row, unnamed,
    soft-deleted or of another lane, with the position it had; the
    positions are taken as given, equal ones included. *)
Theorem reorderEvents_applies_the_batch :
  forall memoryLaneId eventOrders w,
    faults w = [] ->
    NoDup (map fst eventOrders) ->
    fst (reorderEvents memoryLaneId eventOrders w) = Ok tt
    /\ events (snd (reorderEvents memoryLaneId eventOrders w))
       = map (fun e =>
                match assoc (Event.id e) eventOrders with
                | Some p =>
                    if live_in memoryLaneId e then reposition p (now w) e else e
                | None => e
                end) (events w).
Proof.
  intros lane orders w F N. split; [apply reorderEvents_always_resolves|].
  rewrite <- (reorder_fold_spec lane (now w) orders (events w) N).
  rewrite <- (reorder_batch_calm lane (now w) orders w F).
  unfold reorderEvents. unfold bind at 1. cbn [Date_now_toISOString].
  unfold bind at 1. now destruct (Promise_all _ w) as [[rs|x] w2].
Qed.

Lemma reorderEvents_applies_the_batch_witness :
  let w := Demo.world [Demo.event "a" "2023-03-01" 1; Demo.event "b" "2023-01-10" 2;
                       soft_delete "t" (Demo.event "c" "2023-02-02" 3)] [] [] in
  let orders := [("b", 1); ("a", 2); ("c", 9)] in
  faults w = [] /\ NoDup (map fst orders)
  /\ fst (reorderEvents "L" orders w) = Ok tt
  /\ Demo.positions (snd (reorderEvents "L" orders w)) = [("a", 2); ("b", 1); ("c", 3)].
Proof.
  intros w orders.
  assert (N : NoDup (map fst orders))
    by (cbn; repeat constructor; cbn; intuition discriminate).
  destruct (reorderEvents_applies_the_batch "L" orders w eq_refl N) as (R & E).
  split; [reflexivity|]. split; [exact N|]. split; [exact R|].
  unfold Demo.positions. rewrite E. reflexivity.
Defined.

(** ** Reading a gallery *)

Lemma sorted_perm_unique A (key : A -> Z) : forall l1 l2,
  StronglySorted (fun a b => key a <= key b) l1 ->
  StronglySorted (fun a b => key a < key b) l2 ->
  Permutation l1 l2 -> l1 = l2.
Proof.
  induction l1 as [|h1 t1 IH]; intros l2 S1 S2 P.
  - apply Permutation_nil in P. now subst.
  - destruct l2 as [|h2 t2];
      [apply Permutation_sym, Permutation_nil in P; discriminate|].
    inversion S1 as [|? ? S1t F1]; subst. inversion S2 as [|? ? S2t F2]; subst.
    rewrite Forall_forall in F1, F2.
    assert (E : h1 = h2).
    { assert (I1 : In h1 (h2 :: t2)) by (apply (Permutation_in _ P); now left).
      assert (I2 : In h2 (h1 :: t1))
        by (apply (Permutation_in _ (Permutation_sym P)); now left).
      destruct I1 as [E|I1]; [now symmetry|].
      destruct I2 as [E|I2]; [exact E|].
      specialize (F2 h1 I1). specialize (F1 h2 I2). lia. }
    subst h2. f_equal. apply IH; try assumption.
    now apply Permutation_cons_inv in P.
Qed.

(** Sorting a rearrangement of a list with strictly increasing keys gives
    that list. *)
Lemma sort_restores A (key : A -> Z) l L :
  Permutation l L ->
  StronglySorted (fun a b => key a < key b) L ->
  Js.sort (fun a b => Some (key a - key b)) l = L.
Proof.
  intros P S. apply (sorted_perm_unique A key); [apply sort_sorted|exact S|].
  now rewrite sort_perm.
Qed.

Lemma count_from_above c n : Forall (fun p => c <= p) (count_from c n).
Proof.
  revert c. induction n as [|n IH]; intros c; cbn; constructor; [lia|].
  eapply Forall_impl; [|apply IH]. cbn. intros; lia.
Qed.

Lemma counted_sorted A (key : A -> Z) : forall l c,
  map key l = count_from c (List.length l) ->
  StronglySorted (fun a b => key a < key b) l.
Proof.
  induction l as [|x l IH]; intros c E; [constructor|].
  cbn in E. injection E as Ex El. constructor; [now apply (IH (c + 1))|].
  pose proof (count_from_above (c + 1) (List.length l)) as Ab.
  rewrite <- El in Ab. rewrite Forall_map in Ab.
  eapply Forall_impl; [|exact Ab]. cbn. intros; lia.
Qed.

Lemma counted_by_index A (key : A -> Z) : forall l c,
  (forall k o, nth_error l k = Some o -> key o = c + Z.of_nat k) ->
  map key l = count_from c (List.length l).
Proof.
  induction l as [|x l IH]; intros c H; [reflexivity|].
  cbn. f_equal.
  - rewrite (H 0%nat x eq_refl). lia.
  - apply IH. intros k o Hk. rewrite (H (S k) o Hk). lia.
Qed.

Lemma filter_map_commute A (f : A -> A) (c : A -> bool) l :
  (forall x, c (f x) = c x) -> filter c (map f l) = map f (filter c l).
Proof.
  intros E. induction l as [|x l IH]; [reflexivity|].
  cbn. rewrite E. destruct (c x); cbn; now rewrite IH.
Qed.

Lemma filter_split A (c : A -> bool) l :
  Permutation l (filter c l ++ filter (fun x => negb (c x)) l).
Proof.
  induction l as [|x l IH]; [constructor|].
  cbn. destruct (c x); cbn.
  - now constructor.
  - now apply Permutation_cons_app.
Qed.

Lemma filter_by_key imageId t l :
  NoDup (map Image.id l) -> In t l -> Image.id t = imageId ->
  filter (has_id imageId) l = [t].
Proof.
  intros N I E. induction l as [|x l IH]; [destruct I|].
  inversion N as [|? ? Nx Nl]; subst. cbn. unfold has_id at 1.
  destruct I as [->|I].
  - rewrite String.eqb_refl. f_equal.
    clear IH N. induction l as [|y l IHl]; [reflexivity|].
    cbn. unfold has_id at 1.
    destruct (String.eqb_spec (Image.id y) (Image.id t)) as [Ey|_].
    + exfalso. apply Nx. left. exact Ey.
    + apply IHl; [intros J; apply Nx; now right | now inversion Nl].
  - destruct (String.eqb_spec (Image.id x) (Image.id t)) as [Ex|_].
    + exfalso. apply Nx. rewrite Ex. now apply in_map.
    + now apply IH.
Qed.

Lemma getEventImages_calm eventId w :
  faults w = [] ->
  getEventImages eventId w
  = (Ok (map (fun img => ImageView.mk img (Image.order_position img =? 0))
           (ordered Image.order_position true (filter (of_event eventId) (images w)))),
     w).
Proof.
  destruct w as [evs imgs lanes sp fs nw uu dr con tr]. cbn [faults]. intros ->.
  reflexivity.
Qed.

(** X8.  When its request succeeds, getEventImages changes nothing and
    returns the images of the event, each exactly once, in ascending
    order of position, flagging as primary exactly those at position 0. *)
Theorem getEventImages_sorted_and_flagged :
  forall eventId w,
    faults w = [] ->
    exists views,
      getEventImages eventId w = (Ok views, w)
      /\ Permutation (map ImageView.row views) (filter (of_event eventId) (images w))
      /\ StronglySorted
           (fun a b => Image.order_position a <= Image.order_position b)
           (map ImageView.row views)
      /\ forall v, In v views ->
           (ImageView.is_primary v = true
            <-> Image.order_position (ImageView.row v) = 0).
Proof.
  intros eventId w F. eexists. split; [apply (getEventImages_calm eventId w F)|].
  rewrite map_map. cbn [ImageView.row]. rewrite map_id.
  split; [apply sort_perm|]. split; [apply sort_sorted|].
  intros v Hv. apply in_map_iff in Hv. destruct Hv as (i & <- & _).
  cbn. apply Z.eqb_eq.
Qed.

Lemma getEventImages_sorted_and_flagged_witness :
  let w := Demo.world [] [Demo.image "a" 2; Demo.image "b" 0; Demo.image "c" 1] [] in
  faults w = []
  /\ exists views,
       getEventImages "E" w = (Ok views, w)
       /\ map (fun v => (Image.id (ImageView.row v), ImageView.is_primary v)) views
          = [("b", true); ("c", false); ("a", false)].
Proof.
  intros w. split; [reflexivity|].
  destruct (getEventImages_sorted_and_flagged "E" w eq_refl) as (views & G & _).
  exists views. split; [exact G|].
  assert (V : Ok views = fst (getEventImages "E" w)) by now rewrite G.
  vm_compute in V. injection V as ->. reflexivity.
Defined.

(** ** The gallery after a promotion *)

Lemma renumber_faults imageId imgs : forall position w,
  faults w = [] -> faults (snd (renumber imageId position imgs w)) = [].
Proof.
  induction imgs as [|image rest IH]; intros position w F; [exact F|].
  simpl. destruct (negb (Image.id image =? imageId)%string); [|now apply IH].
  destruct w as [evs tbl lanes sp fs nw uu dr con tr]. cbn [faults] in F. subst fs.
  step_more. apply IH. reflexivity.
Qed.

Lemma setPrimaryImage_faults imageId eventId w :
  faults w = [] -> faults (snd (setPrimaryImage imageId eventId w)) = [].
Proof.
  destruct w as [evs tbl lanes sp fs nw uu dr con tr]. cbn [faults]. intros ->.
  unfold setPrimaryImage. step_more. unfold query.
  match goal with
  | |- context [renumber ?i ?p ?l ?W] =>
      pose proof (renumber_faults i l p W eq_refl) as R1;
      destruct (renumber_calm i l p W eq_refl) as (R2 & _);
      destruct (renumber i p l W) as [r w2]
  end.
  cbn [fst snd] in *. subst r. exact R1.
Qed.

(** The images of the event after a promotion, in reading order. *)
Lemma promoted_image_order imageId eventId w t :
  faults w = [] ->
  NoDup (map Image.id (images w)) ->
  In t (images w) -> Image.id t = imageId -> of_event eventId t = true ->
  let final := fun x =>
    let x' := if has_id imageId x then Image.at_position 0 x else x in
    match assoc (Image.id x')
            (renumbering imageId 1
               (ordered Image.order_position true
                  (filter (of_event eventId) (images w)))) with
    | Some p => Image.at_position p x'
    | None => x'
    end in
  ordered Image.order_position true
    (filter (of_event eventId) (images (snd (setPrimaryImage imageId eventId w))))
  = final t :: map final (others imageId eventId w)
  /\ final t = Image.at_position 0 t.
Proof.
  intros F N It Et Vt final.
  set (w' := snd (setPrimaryImage imageId eventId w)).
  pose proof (promoted_images imageId eventId w F N) as T. fold w' in T.
  change (fun x => _) with final in T.
  assert (Fev : forall x, of_event eventId (final x) = of_event eventId x)
    by apply (final_event imageId eventId w).
  assert (Oth : forall k o, nth_error (others imageId eventId w) k = Some o ->
                final o = Image.at_position (1 + Z.of_nat k) o)
    by apply (final_other imageId eventId w N).
  assert (Tgt : final t = Image.at_position 0 t)
    by apply (final_target imageId eventId w t Et).
  split; [|exact Tgt].
  set (os := others imageId eventId w) in *.
  assert (Pos : map Image.order_position (map final os)
                = count_from 1 (List.length (map final os))).
  { apply counted_by_index. intros k o' Hk. rewrite nth_error_map in Hk.
    destruct (nth_error os k) as [o|] eqn:Ho; [|discriminate].
    injection Hk as <-. now rewrite (Oth k o Ho). }
  apply (sort_restores _ Image.order_position).
  - rewrite T, filter_map_commute by exact Fev.
    change (final t :: map final os) with (map final (t :: os)).
    apply Permutation_map.
    pose proof (sibs_perm eventId w) as SP.
    rewrite <- SP. clear SP.
    set (sibs := ordered Image.order_position true
                   (filter (of_event eventId) (images w))) in *.
    rewrite (filter_split _ (has_id imageId) sibs) at 1.
    rewrite (filter_by_key imageId t sibs); [reflexivity| |  |exact Et].
    + apply (Permutation_NoDup
               (l := map Image.id (filter (of_event eventId) (images w)))).
      * apply Permutation_map, Permutation_sym, sibs_perm.
      * now apply NoDup_map_filter.
    + apply (Permutation_in _ (Permutation_sym (sibs_perm eventId w))).
      apply filter_In. now split.
  - apply (counted_sorted _ Image.order_position _ 0).
    cbn [map List.length count_from]. rewrite Tgt.
    cbn [Image.order_position Image.at_position].
    f_equal. exact Pos.
Qed.

(** X9.  After a setPrimaryImage on an image of the event, with no failing
    request and unique image ids, getEventImages returns the promoted
    image first, flagged primary, followed by the other images of the
    event in the ascending order of the positions they had before, now at
    positions 1, 2, 3, ... and none of them flagged primary. *)
Theorem promoted_image_leads_the_gallery :
  forall imageId eventId w t,
    faults w = [] ->
    NoDup (map Image.id (images w)) ->
    In t (images w) -> Image.id t = imageId -> of_event eventId t = true ->
    exists v rest,
      fst (getEventImages eventId (snd (setPrimaryImage imageId eventId w)))
      = Ok (v :: rest)
      /\ Image.id (ImageView.row v) = imageId
      /\ ImageView.is_primary v = true
      /\ map (fun u => Image.id (ImageView.row u)) rest
         = map Image.id (others imageId eventId w)
      /\ map (fun u => Image.order_position (ImageView.row u)) rest
         = count_from 1 (List.length rest)
      /\ Forall (fun u => ImageView.is_primary u = false) rest.
Proof.
  intros imageId eventId w t F N It Et Vt.
  set (w' := snd (setPrimaryImage imageId eventId w)).
  pose proof (setPrimaryImage_faults imageId eventId w F) as F'. fold w' in F'.
  pose proof (promoted_images imageId eventId w F N) as T. fold w' in T.
  set (final := fun x => _) in T.
  assert (Fid : forall x, Image.id (final x) = Image.id x)
    by apply (final_id imageId eventId w).
  assert (Fev : forall x, of_event eventId (final x) = of_event eventId x)
    by apply (final_event imageId eventId w).
  assert (Oth : forall k o, nth_error (others imageId eventId w) k = Some o ->
                final o = Image.at_position (1 + Z.of_nat k) o)
    by apply (final_other imageId eventId w N).
  assert (Tgt : final t = Image.at_position 0 t)
    by apply (final_target imageId eventId w t Et).
  set (os := others imageId eventId w) in *.
  assert (Pos : map Image.order_position (map final os)
                = count_from 1 (List.length (map final os))).
  { apply counted_by_index. intros k o' Hk. rewrite nth_error_map in Hk.
    destruct (nth_error os k) as [o|] eqn:Ho; [|discriminate].
    injection Hk as <-. now rewrite (Oth k o Ho). }
  assert (Sorted : ordered Image.order_position true
                     (filter (of_event eventId) (images w'))
                   = final t :: map final os).
  { apply (sort_restores _ Image.order_position).
    - rewrite T, filter_map_commute by exact Fev.
      change (final t :: map final os) with (map final (t :: os)).
      apply Permutation_map.
      pose proof (sibs_perm eventId w) as SP.
      rewrite <- SP. clear SP.
      set (sibs := ordered Image.order_position true
                     (filter (of_event eventId) (images w))) in *.
      rewrite (filter_split _ (has_id imageId) sibs) at 1.
      rewrite (filter_by_key imageId t sibs); [reflexivity| |  |exact Et].
      + apply (Permutation_NoDup
                 (l := map Image.id (filter (of_event eventId) (images w)))).
        * apply Permutation_map, Permutation_sym, sibs_perm.
        * now apply NoDup_map_filter.
      + apply (Permutation_in _ (Permutation_sym (sibs_perm eventId w))).
        apply filter_In. now split.
    - apply (counted_sorted _ Image.order_position _ 0).
      cbn [map List.length count_from]. rewrite Tgt. cbn [Image.order_position Image.at_position].
      f_equal. exact Pos. }
  rewrite (getEventImages_calm eventId w' F'), Sorted. cbn [fst map].
  do 2 eexists. split; [reflexivity|]. cbn [ImageView.row ImageView.is_primary].
  split; [now rewrite Fid|]. split; [now rewrite Tgt|].
  rewrite !map_map. cbn [ImageView.row ImageView.is_primary].
  split; [now apply map_ext|]. split.
  - rewrite <- map_map, Pos. now rewrite !length_map.
  - rewrite Forall_map. rewrite Forall_forall. intros o Ho.
    apply In_nth_error in Ho. destruct Ho as (k & Hk).
    rewrite (Oth k o Hk).
    cbn [ImageView.is_primary Image.order_position Image.at_position].
    apply Z.eqb_neq. lia.
Qed.

Lemma promoted_image_leads_the_gallery_witness :
  let w := Demo.world [] [Demo.image "a" 4; Demo.image "b" 2; Demo.image "c" 7;
                          Demo.image "d" 7] [] in
  faults w = []
  /\ NoDup (map Image.id (images w))
  /\ In (Demo.image "c" 7) (images w)
  /\ exists v rest,
       fst (getEventImages "E" (snd (setPrimaryImage "c" "E" w))) = Ok (v :: rest)
       /\ Image.id (ImageView.row v) = "c"
       /\ ImageView.is_primary v = true
       /\ map (fun u => Image.id (ImageView.row u)) rest = ["b"; "a"; "d"]
       /\ map (fun u => Image.order_position (ImageView.row u)) rest
          = count_from 1 (List.length rest).
Proof.
  intros w.
  assert (K : NoDup (map Image.id (images w)))
    by (cbn; repeat constructor; cbn; intuition discriminate).
  assert (I : In (Demo.image "c" 7) (images w)) by (cbn; tauto).
  destruct (promoted_image_leads_the_gallery "c" "E" w (Demo.image "c" 7)
              eq_refl K I eq_refl eq_refl) as (v & rest & G & Hv & Pv & Ids & Ps & _).
  split; [reflexivity|]. split; [exact K|]. split; [exact I|].
  exists v, rest. split; [exact G|]. split; [exact Hv|]. split; [exact Pv|].
  split; [exact Ids | exact Ps].
Defined.

(** X10.  setPrimaryImage does not check that the image belongs to the
    event it is given.  With no failing request and unique image ids, if
    the image is one of another event, that image is put at position 0
    within its own event, and every image of the stated event is
    renumbered from 1, so that the stated event is left without an image
    at position 0. *)
Theorem promoting_a_foreign_image :
  forall imageId eventId w t,
    faults w = [] ->
    NoDup (map Image.id (images w)) ->
    In t (images w) -> Image.id t = imageId -> of_event eventId t = false ->
    let w' := snd (setPrimaryImage imageId eventId w) in
    fst (setPrimaryImage imageId eventId w) = Ok tt
    /\ In (Image.at_position 0 t) (images w')
    /\ forall i, In i (images w') -> of_event eventId i = true ->
                 1 <= Image.order_position i.
Proof.
  intros imageId eventId w t F N It Et Vt w'.
  pose proof (promoted_images imageId eventId w F N) as T. fold w' in T.
  set (final := fun x => _) in T.
  assert (Fev : forall x, of_event eventId (final x) = of_event eventId x)
    by apply (final_event imageId eventId w).
  assert (Oth : forall k o, nth_error (others imageId eventId w) k = Some o ->
                final o = Image.at_position (1 + Z.of_nat k) o)
    by apply (final_other imageId eventId w N).
  assert (Tgt : final t = Image.at_position 0 t)
    by apply (final_target imageId eventId w t Et).
  split; [apply (setPrimaryImage_calm imageId eventId w F)|]. split.
  - rewrite T, <- Tgt. now apply in_map.
  - intros i Hi Vi. rewrite T in Hi. apply in_map_iff in Hi.
    destruct Hi as (x & <- & Hx). rewrite Fev in Vi.
    assert (NE : Image.id x <> imageId).
    { intros E. assert (x = t) by (eapply NoDup_map_inj; eauto; congruence).
      subst x. congruence. }
    assert (Ho : In x (others imageId eventId w))
      by (apply (others_spec imageId eventId w); tauto).
    apply In_nth_error in Ho. destruct Ho as (k & Hk).
    rewrite (Oth k x Hk). cbn [Image.order_position Image.at_position]. lia.
Qed.

Lemma promoting_a_foreign_image_witness :
  let other := Image.mk "x" "F" "url" None None 3 None in
  let w := Demo.world [] [Demo.image "a" 0; Demo.image "b" 1; other] [] in
  faults w = []
  /\ NoDup (map Image.id (images w))
  /\ of_event "E" other = false
  /\ fst (setPrimaryImage "x" "E" w) = Ok tt
  /\ Demo.gallery (snd (setPrimaryImage "x" "E" w)) = [("a", 1); ("b", 2); ("x", 0)].
Proof.
  intros other w.
  assert (K : NoDup (map Image.id (images w)))
    by (cbn; repeat constructor; cbn; intuition discriminate).
  assert (I : In other (images w)) by (cbn; tauto).
  destruct (promoting_a_foreign_image "x" "E" w other eq_refl K I eq_refl eq_refl)
    as (R & _).
  split; [reflexivity|]. split; [exact K|]. split; [reflexivity|].
  split; [exact R | reflexivity].
Defined.

(** X11.  setPrimaryImage is idempotent: with no failing request and
    unique image ids, promoting an image of the event a second time
    leaves every image row as the first promotion left it. *)
Theorem setPrimaryImage_twice :
  forall imageId eventId w t,
    faults w = [] ->
    NoDup (map Image.id (images w)) ->
    In t (images w) -> Image.id t = imageId -> of_event eventId t = true ->
    let once := snd (setPrimaryImage imageId eventId w) in
    images (snd (setPrimaryImage imageId eventId once)) = images once.
Proof.
  intros imageId eventId w t F N It Et Vt once.
  pose proof (setPrimaryImage_faults imageId eventId w F) as F'. fold once in F'.
  pose proof (promoted_images imageId eventId w F N) as T. fold once in T.
  set (final := fun x => _) in T.
  assert (Fid : forall x, Image.id (final x) = Image.id x)
    by apply (final_id imageId eventId w).
  assert (Fev : forall x, of_event eventId (final x) = of_event eventId x)
    by apply (final_event imageId eventId w).
  assert (Oth : forall k o, nth_error (others imageId eventId w) k = Some o ->
                final o = Image.at_position (1 + Z.of_nat k) o)
    by apply (final_other imageId eventId w N).
  assert (Out : forall x, In x (images w) -> of_event eventId x = false ->
                Image.id x <> imageId -> final x = x)
    by apply (final_outside imageId eventId w N).
  assert (N' : NoDup (map Image.id (images once))).
  { rewrite T, map_map. erewrite map_ext; [exact N|]. exact Fid. }
  assert (Sorted : ordered Image.order_position true
                     (filter (of_event eventId) (images once))
                   = final t :: map final (others imageId eventId w))
    by apply (promoted_image_order imageId eventId w t F N It Et Vt).
  assert (Tgt : final t = Image.at_position 0 t)
    by apply (final_target imageId eventId w t Et).
  pose proof (promoted_images imageId eventId once F' N') as T2.
  set (final2 := fun x => _) in T2.
  assert (Oth2 : forall k o, nth_error (others imageId eventId once) k = Some o ->
                 final2 o = Image.at_position (1 + Z.of_nat k) o)
    by apply (final_other imageId eventId once N').
  assert (Out2 : forall x, In x (images once) -> of_event eventId x = false ->
                 Image.id x <> imageId -> final2 x = x)
    by apply (final_outside imageId eventId once N').
  assert (Tgt2 : forall x, Image.id x = imageId -> final2 x = Image.at_position 0 x)
    by apply (final_target imageId eventId once).
  assert (Os : others imageId eventId once = map final (others imageId eventId w)).
  { unfold others at 1. rewrite Sorted. cbn [filter]. unfold has_id at 1.
    rewrite Fid, Et, String.eqb_refl. cbn [negb].
    apply forallb_filter_id. apply forallb_forall. intros y Hy.
    apply in_map_iff in Hy. destruct Hy as (o & <- & Ho).
    apply (others_spec imageId eventId w) in Ho. destruct Ho as (_ & _ & NE).
    unfold has_id. rewrite Fid. apply String.eqb_neq in NE. now rewrite NE. }
  rewrite T2, T, map_map. apply map_ext_in. intros x Hx.
  destruct (String.eqb_spec (Image.id x) imageId) as [E|NE].
  - assert (x = t)
      by (apply (NoDup_map_inj _ _ Image.id (images w));
          [exact N | exact Hx | exact It | congruence]).
    subst x.
    rewrite (Tgt2 (final t)) by (now rewrite Fid). now rewrite Tgt.
  - destruct (of_event eventId x) eqn:V.
    + assert (Ho : In x (others imageId eventId w))
        by (apply (others_spec imageId eventId w); tauto).
      apply In_nth_error in Ho. destruct Ho as (k & Hk).
      rewrite (Oth2 k (final x)); [now rewrite (Oth k x Hk)|].
      rewrite Os, nth_error_map, Hk. reflexivity.
    + rewrite (Out x Hx V NE). apply Out2; try assumption.
      rewrite T. rewrite <- (Out x Hx V NE). now apply in_map.
Qed.

Lemma setPrimaryImage_twice_witness :
  let w := Demo.world [] [Demo.image "a" 4; Demo.image "b" 2; Demo.image "c" 7] [] in
  let once := snd (setPrimaryImage "c" "E" w) in
  faults w = []
  /\ NoDup (map Image.id (images w))
  /\ In (Demo.image "c" 7) (images w)
  /\ images (snd (setPrimaryImage "c" "E" once)) = images once.
Proof.
  intros w once.
  assert (K : NoDup (map Image.id (images w)))
    by (cbn; repeat constructor; cbn; intuition discriminate).
  assert (I : In (Demo.image "c" 7) (images w)) by (cbn; tauto).
  split; [reflexivity|]. split; [exact K|]. split; [exact I|].
  exact (setPrimaryImage_twice "c" "E" w (Demo.image "c" 7) eq_refl K I eq_refl eq_refl).
Defined.

(** ** Hard deletions *)

(** X12.  deleteImage removes rows and does nothing else: whatever
    happens, every image row left is a row that was there, unchanged, so
    the remaining positions keep their gaps.  When the request succeeds
    exactly the rows with the id are gone; if the images of an event at
    position 0 all had that id, the event is left without an image at
    position 0, no sibling being promoted. *)
Theorem deleteImage_removes_without_renumbering :
  forall id w,
    let w' := snd (deleteImage id w) in
    (forall i, In i (images w') -> In i (images w))
    /\ events w' = events w
    /\ (faults w = [] ->
        fst (deleteImage id w) = Ok tt
        /\ images w' = filter (fun i => negb (has_id id i)) (images w)
        /\ forall eventId,
             (forall i, In i (images w) -> of_event eventId i = true ->
                        Image.order_position i = 0 -> Image.id i = id) ->
             forall i, In i (images w') -> of_event eventId i = true ->
                       Image.order_position i <> 0).
Proof.
  intros id [evs tbl lanes sp fs nw uu dr con tr] w'. subst w'.
  unfold deleteImage. destruct fs as [|[e|] fs]; step_more.
  all: split; [intros i Hi; try exact Hi; apply filter_In in Hi; tauto|].
  all: split; [reflexivity|]; intros F; try discriminate F.
  split; [reflexivity|]. split; [reflexivity|].
  intros eventId Only i Hi Vi Pi. apply filter_In in Hi. destruct Hi as [Hi NI].
  specialize (Only i Hi Vi Pi). unfold has_id in NI.
  rewrite Only, String.eqb_refl in NI. discriminate.
Qed.

Lemma deleteImage_removes_without_renumbering_witness :
  let w := Demo.world [] [Demo.image "a" 0; Demo.image "b" 1; Demo.image "c" 2] [] in
  faults w = []
  /\ fst (deleteImage "a" w) = Ok tt
  /\ Demo.gallery (snd (deleteImage "a" w)) = [("b", 1); ("c", 2)]
  /\ forall i, In i (images (snd (deleteImage "a" w))) -> of_event "E" i = true ->
               Image.order_position i <> 0.
Proof.
  intros w.
  destruct (deleteImage_removes_without_renumbering "a" w) as (_ & _ & C).
  destruct (C eq_refl) as (R & I & P).
  split; [reflexivity|]. split; [exact R|]. split.
  - unfold Demo.gallery. rewrite I. reflexivity.
  - apply (P "E"). intros i Hi _ Pi. cbn in Hi.
    destruct Hi as [<-|[<-|[<-|[]]]]; [reflexivity | discriminate Pi | discriminate Pi].
Defined.

(** X13.  hardDeleteEvent sends its one delete request and nothing more:
    unlike deleteEvent it never enters the date-range recomputation and
    writes no lane row, so the lane keeps the range it had; when the
    request succeeds exactly the event rows with the id, live or
    soft-deleted, are gone, and no other event row changes. *)
Theorem hardDeleteEvent_never_recomputes :
  forall id w,
    let w' := snd (hardDeleteEvent id w) in
    recomputes (trace w') = recomputes (trace w)
    /\ memory_lanes w' = memory_lanes w
    /\ (forall e, In e (events w') -> In e (events w))
    /\ (faults w = [] ->
        fst (hardDeleteEvent id w) = Ok tt
        /\ events w'
           = filter (fun e => negb (Event.id e =? id)%string) (events w)).
Proof.
  intros id [evs tbl lanes sp fs nw uu dr con tr] w'. subst w'.
  unfold hardDeleteEvent. destruct fs as [|[e|] fs]; step_more.
  all: split; [rewrite ?recomputes_app; cbn; rewrite ?app_nil_r; reflexivity|].
  all: split; [reflexivity|].
  all: split; [intros x Hx; try exact Hx; apply filter_In in Hx; tauto|].
  all: intros F; try discriminate F; now split.
Qed.

Lemma hardDeleteEvent_never_recomputes_witness :
  let w := snd (createEvent Js.parseISO (Demo.new_event "2023-05-05" None)
                  (Demo.world [] [] [])) in
  faults w = []
  /\ bounds w = [("L", Some "2023-05-05T00:00:00.000Z", Some "2023-05-05T00:00:00.000Z")]
  /\ fst (hardDeleteEvent "id-0" w) = Ok tt
  /\ events (snd (hardDeleteEvent "id-0" w)) = []
  /\ bounds (snd (hardDeleteEvent "id-0" w)) = bounds w.
Proof.
  intros w.
  destruct (hardDeleteEvent_never_recomputes "id-0" w) as (_ & L & _ & C).
  destruct (C eq_refl) as (R & E).
  split; [reflexivity|]. split; [reflexivity|]. split; [exact R|]. split.
  - rewrite E. reflexivity.
  - unfold bounds. now rewrite L.
Defined.

(** ** Lanes *)

Lemma amend_nobody A (cond : A -> bool) (patch : A -> A) l :
  filter cond l = [] -> amend cond patch l = l.
Proof.
  intros E. unfold amend. rewrite <- (map_id l) at 2. apply map_ext_in.
  intros x Hx. destruct (cond x) eqn:C; [|reflexivity].
  assert (I : In x (filter cond l)) by (apply filter_In; now split).
  rewrite E in I. destruct I.
Qed.

Lemma amended_nobody A (cond : A -> bool) (patch : A -> A) l :
  filter cond l = [] -> amended cond patch l = [].
Proof. intros E. unfold amended. now rewrite E. Qed.

Lemma updateMemoryLane_calm id updates w :
  faults w = [] ->
  fst (updateMemoryLane id updates w)
  = Ok (match amended (live_lane id) (MemoryLaneUpdates.apply updates (now w))
                (memory_lanes w) with
        | l :: _ => Some l
        | [] => None
        end)
  /\ memory_lanes (snd (updateMemoryLane id updates w))
     = amend (live_lane id) (MemoryLaneUpdates.apply updates (now w)) (memory_lanes w)
  /\ events (snd (updateMemoryLane id updates w)) = events w
  /\ faults (snd (updateMemoryLane id updates w)) = [].
Proof.
  destruct w as [evs imgs lanes sp fs nw uu dr con tr]. cbn [faults]. intros ->.
  unfold updateMemoryLane. step_more. now repeat split.
Qed.

(** X14.  Writing to a lane that is missing or soft-deleted is silently
    dropped.  When no request fails and no live lane has the id,
    updateMemoryLane resolves to undefined and changes no lane row, and
    updateDateRange, over valid dates, still resolves to the range of the
    lane's live events while storing it nowhere. *)
Theorem writes_to_a_dead_lane_are_dropped :
  forall newDate id w,
    faults w = [] ->
    filter (live_lane id) (memory_lanes w) = [] ->
    (forall updates,
        fst (updateMemoryLane id updates w) = Ok None
        /\ memory_lanes (snd (updateMemoryLane id updates w)) = memory_lanes w)
    /\ ((forall d, In d (lane_dates newDate id w) -> d <> None) ->
        exists r w',
          updateDateRange newDate id w = (Ok r, w')
          /\ range_of (lane_dates newDate id w) r
          /\ memory_lanes w' = memory_lanes w).
Proof.
  intros newDate id w F Dead. split.
  - intros updates.
    destruct (updateMemoryLane_calm id updates w F) as (R & L & _).
    rewrite R, L, amended_nobody, amend_nobody by exact Dead. now split.
  - intros V. destruct (updateDateRange_calm newDate id w F V)
      as (r & w' & E & _ & _ & _ & L & R).
    exists r, w'. split; [exact E|]. split; [exact R|].
    rewrite L. now apply amend_nobody.
Qed.

Lemma writes_to_a_dead_lane_are_dropped_witness :
  let w := Demo.world [Demo.event "a" "2023-03-01" 1] [] [] in
  let w := set_memory_lanes [retire "t" Demo.lane] w in
  faults w = []
  /\ filter (live_lane "L") (memory_lanes w) = []
  /\ (exists r w',
        updateDateRange Js.parseISO "L" w = (Ok r, w')
        /\ start r = Some "2023-03-01T00:00:00.000Z"
        /\ bounds w' = [("L", None, None)]).
Proof.
  intros w0 w.
  destruct (writes_to_a_dead_lane_are_dropped Js.parseISO "L" w eq_refl eq_refl)
    as (_ & U).
  destruct U as (r & w' & E & R & L).
  { vm_compute. intros d [<-|[]]. discriminate. }
  split; [reflexivity|]. split; [reflexivity|].
  exists r, w'. split; [exact E|]. split.
  - assert (V : Ok r = fst (updateDateRange Js.parseISO "L" w)) by now rewrite E.
    vm_compute in V. injection V as ->. reflexivity.
  - unfold bounds. rewrite L. reflexivity.
Defined.

Lemma getMemoryLaneById_calm id w :
  faults w = [] ->
  getMemoryLaneById id w
  = (Ok (match filter (live_lane id) (memory_lanes w) with
         | [l] => Some l
         | _ => None
         end), w).
Proof.
  destruct w as [evs imgs lanes sp fs nw uu dr con tr]. cbn [faults]. intros ->.
  unfold getMemoryLaneById. step_more.
  destruct (filter (live_lane id) lanes) as [|l [|l2 r]]; reflexivity.
Qed.

Lemma retired_not_live id t lanes :
  filter (live_lane id)
    (amend (fun l => (MemoryLane.id l =? id)%string) (retire t) lanes) = [].
Proof.
  induction lanes as [|l lanes IH]; [reflexivity|].
  cbn [amend map filter].
  fold (amend (fun l => (MemoryLane.id l =? id)%string) (retire t) lanes).
  rewrite IH. unfold live_lane.
  destruct (MemoryLane.id l =? id)%string eqn:E;
    cbn [retire MemoryLane.id MemoryLane.deleted_at is_null]; now rewrite E.
Qed.

Lemma deleteMemoryLane_calm id w :
  faults w = [] ->
  fst (deleteMemoryLane id w) = Ok tt
  /\ events (snd (deleteMemoryLane id w)) = events w
  /\ memory_lanes (snd (deleteMemoryLane id w))
     = amend (fun l => (MemoryLane.id l =? id)%string) (retire (now w))
         (memory_lanes w).
Proof.
  destruct w as [evs imgs lanes sp fs nw uu dr con tr]. cbn [faults]. intros ->.
  now repeat split.
Qed.

(** X15.  deleteMemoryLane is a soft delete without cascade.  When its
    request succeeds the lane rows stay (same ids, same order) and the
    events table is untouched; afterwards, in any state of the same two
    tables with no failing request, getMemoryLaneById answers null for
    the lane while getMemoryLaneEvents still returns its live events,
    exactly as before the deletion. *)
Theorem deleted_lane_keeps_its_events :
  forall id w,
    faults w = [] ->
    let w' := snd (deleteMemoryLane id w) in
    fst (deleteMemoryLane id w) = Ok tt
    /\ events w' = events w
    /\ map MemoryLane.id (memory_lanes w') = map MemoryLane.id (memory_lanes w)
    /\ forall w2,
         memory_lanes w2 = memory_lanes w' -> events w2 = events w' ->
         faults w2 = [] ->
         fst (getMemoryLaneById id w2) = Ok None
         /\ fst (getMemoryLaneEvents id w2) = fst (getMemoryLaneEvents id w).
Proof.
  intros id w F w'. subst w'.
  destruct (deleteMemoryLane_calm id w F) as (R & E & L).
  split; [exact R|]. split; [exact E|]. split.
  - rewrite L. unfold amend. rewrite map_map. apply map_ext. intros l.
    now destruct (MemoryLane.id l =? id)%string.
  - intros w2 L2 E2 F2.
    rewrite (getMemoryLaneById_calm id w2 F2), L2, L, retired_not_live.
    split; [reflexivity|].
    rewrite (getMemoryLaneEvents_calm id w2 F2), E2, E.
    now rewrite (getMemoryLaneEvents_calm id w F).
Qed.

Lemma deleted_lane_keeps_its_events_witness :
  let w := Demo.world [Demo.event "a" "2023-03-01" 1] [] [] in
  let w' := snd (deleteMemoryLane "L" w) in
  faults w = []
  /\ fst (getMemoryLaneById "L" w) = Ok (Some Demo.lane)
  /\ fst (getMemoryLaneById "L" w') = Ok None
  /\ fst (getMemoryLaneEvents "L" w') = Ok [Demo.event "a" "2023-03-01" 1].
Proof.
  intros w w'.
  destruct (deleted_lane_keeps_its_events "L" w eq_refl) as (_ & _ & _ & A).
  destruct (A w' eq_refl eq_refl eq_refl) as (G & E).
  split; [reflexivity|]. split; [reflexivity|]. split; [exact G|].
  rewrite E. reflexivity.
Defined.

(** X16.  When no request fails and the generated id is not yet in the
    lanes table, the lane createMemoryLane resolves to carries the
    caller's fields and a null date range, getMemoryLaneById on its id
    returns that very lane, and formatDateRange of its bounds reads
    "No events yet". *)
Theorem created_lane_is_found_and_empty :
  forall memoryLane w,
    faults w = [] ->
    ~ In (uuids w (drawn w)) (map MemoryLane.id (memory_lanes w)) ->
    exists l w',
      createMemoryLane memoryLane w = (Ok (Some l), w')
      /\ MemoryLane.id l = uuids w (drawn w)
      /\ MemoryLane.user_id l = NewMemoryLane.user_id memoryLane
      /\ MemoryLane.title l = NewMemoryLane.title memoryLane
      /\ MemoryLane.is_public l = NewMemoryLane.is_public memoryLane
      /\ MemoryLane.date_range_start l = None
      /\ MemoryLane.date_range_end l = None
      /\ fst (getMemoryLaneById (MemoryLane.id l) w') = Ok (Some l)
      /\ forall newDate tz,
           formatDateRange newDate tz (MemoryLane.date_range_start l)
             (MemoryLane.date_range_end l) = "No events yet".
Proof.
  intros m [evs imgs lanes sp fs nw uu dr con tr]. cbn [faults uuids drawn memory_lanes].
  intros -> Fresh. unfold createMemoryLane. step_more.
  do 2 eexists. split; [reflexivity|]. cbn [MemoryLane.id MemoryLane.user_id
    MemoryLane.title MemoryLane.is_public MemoryLane.date_range_start
    MemoryLane.date_range_end].
  repeat (split; [reflexivity|]). split; [|reflexivity].
  rewrite getMemoryLaneById_calm by reflexivity. cbn [memory_lanes fst].
  rewrite filter_app.
  replace (filter (live_lane (uu dr)) lanes) with (@nil MemoryLane.t).
  - cbn. unfold live_lane. cbn. now rewrite String.eqb_refl.
  - symmetry. clear - Fresh. induction lanes as [|x l IH]; [reflexivity|].
    cbn in *. unfold live_lane at 1.
    destruct (String.eqb_spec (MemoryLane.id x) (uu dr)) as [E|_].
    + exfalso. apply Fresh. now left.
    + cbn. apply IH. tauto.
Qed.

Lemma created_lane_is_found_and_empty_witness :
  let w := Demo.world [] [] [] in
  let m := NewMemoryLane.mk "u" "Summer" None None false in
  faults w = []
  /\ ~ In (uuids w (drawn w)) (map MemoryLane.id (memory_lanes w))
  /\ exists l w',
       createMemoryLane m w = (Ok (Some l), w')
       /\ MemoryLane.id l = "id-0"
       /\ fst (getMemoryLaneById "id-0" w') = Ok (Some l).
Proof.
  intros w m.
  assert (Fresh : ~ In (uuids w (drawn w)) (map MemoryLane.id (memory_lanes w)))
    by (vm_compute; intros [E|[]]; discriminate E).
  split; [reflexivity|]. split; [exact Fresh|].
  destruct (created_lane_is_found_and_empty m w eq_refl Fresh)
    as (l & w' & C & I & _ & _ & _ & _ & _ & G & _).
  exists l, w'. split; [exact C|]. split; [exact I|]. rewrite I in G. exact G.
Defined.

(** ** Dates that do not parse *)

Lemma sort_of_invalid (ds : list Js.Date) :
  ds <> [] -> (forall d, In d ds -> d = None) ->
  hd None (Js.sort Js.byTime ds) = None.
Proof.
  intros NE All. pose proof (sort_perm _ Js.byTime ds) as P.
  destruct (Js.sort Js.byTime ds) as [|d s] eqn:E.
  - reflexivity.
  - cbn. apply All. apply (Permutation_in _ P). now left.
Qed.

(** X17.  A lane whose live events all carry a date the browser cannot
    parse cannot be recomputed: with no failing request, updateDateRange
    logs and rethrows the RangeError of toISOString, and the lane rows
    keep the range they had. *)
Theorem unparsable_dates_stop_the_recompute :
  forall newDate lane w,
    faults w = [] ->
    lane_dates newDate lane w <> [] ->
    (forall d, In d (lane_dates newDate lane w) -> d = None) ->
    fst (updateDateRange newDate lane w) = Throw (RangeError "Invalid time value")
    /\ memory_lanes (snd (updateDateRange newDate lane w)) = memory_lanes w
    /\ In ("Error updating date range:", RangeError "Invalid time value")
         (console (snd (updateDateRange newDate lane w))).
Proof.
  intros newDate lane [evs imgs lanes sp fs nw uu dr con tr]. cbn [faults].
  intros -> NE All. unfold lane_dates in *. cbn [events] in *.
  pose proof (fetched_events_perm lane evs) as P.
  set (fetched := query Event.order_position (live_in lane) (Some true) None evs) in *.
  assert (PD : Permutation (map (fun e => newDate (Event.event_date e)) fetched)
                 (map (fun e => newDate (Event.event_date e))
                    (filter (live_in lane) evs)))
    by now apply Permutation_map.
  assert (H : hd None (Js.sort Js.byTime
                         (map (fun e => newDate (Event.event_date e)) fetched))
              = None).
  { apply sort_of_invalid.
    - intros E. rewrite E in PD. apply Permutation_nil in PD. now apply NE.
    - intros d Hd. apply All. now apply (Permutation_in _ PD). }
  assert (L : (List.length fetched =? 0)%nat = false).
  { destruct fetched; [|reflexivity]. cbn in PD. apply Permutation_nil in PD.
    now destruct NE. }
  unfold updateDateRange, getMemoryLaneEvents, updateMemoryLane, toISOString.
  step_more. fold fetched. rewrite L, H. cbn [Js.toISOString]. step_more.
  split; [reflexivity|]. split; [reflexivity|]. apply in_or_app. right. now left.
Qed.

Lemma unparsable_dates_stop_the_recompute_witness :
  let w := Demo.world [Demo.event "a" "next week" 1] [] [] in
  faults w = []
  /\ lane_dates Js.parseISO "L" w <> []
  /\ fst (updateDateRange Js.parseISO "L" w) = Throw (RangeError "Invalid time value")
  /\ bounds (snd (updateDateRange Js.parseISO "L" w)) = [("L", None, None)].
Proof.
  intros w.
  assert (NE : lane_dates Js.parseISO "L" w <> []) by (vm_compute; discriminate).
  destruct (unparsable_dates_stop_the_recompute Js.parseISO "L" w eq_refl NE)
    as (T & L & _).
  { vm_compute. intros d [<-|[]]. reflexivity. }
  split; [reflexivity|]. split; [exact NE|]. split; [exact T|].
  unfold bounds. rewrite L. reflexivity.
Defined.

(** X18.  formatDateRange treats an empty start string like a null one,
    and does not guard against dates that fail to parse: an unparsable
    start yields "Invalid Date - " followed by the formatted end (itself
    "Invalid Date" when the end is missing), and a valid start with an
    unparsable end yields the start's month and year followed by
    " - Invalid Date". *)
Theorem formatDateRange_on_bad_input :
  forall newDate tz,
    (forall e, formatDateRange newDate tz (Some "") e = "No events yet")
    /\ (forall s, s <> "" -> newDate s = None ->
          formatDateRange newDate tz (Some s) None = "Invalid Date - Invalid Date"
          /\ forall e, e <> "" ->
               formatDateRange newDate tz (Some s) (Some e)
               = "Invalid Date - " ++ Js.toLocaleDateString tz true (newDate e))
    /\ (forall s e ts, s <> "" -> e <> "" ->
          newDate s = Some ts -> newDate e = None ->
          formatDateRange newDate tz (Some s) (Some e)
          = Js.toLocaleDateString tz true (Some ts) ++ " - Invalid Date").
Proof.
  intros newDate tz. split; [reflexivity|]. split.
  - intros s Hs Ps. apply String.eqb_neq in Hs. split.
    + unfold formatDateRange. cbn [Js.falsy_str dflt]. now rewrite Hs, Ps.
    + intros e He. apply String.eqb_neq in He.
      unfold formatDateRange. cbn [Js.falsy_str dflt]. now rewrite Hs, He, Ps.
  - intros s e ts Hs He Ps Pe. apply String.eqb_neq in Hs, He.
    unfold formatDateRange. cbn [Js.falsy_str dflt]. rewrite Hs, He, Ps, Pe.
    cbn [Js.getFullYear Js.getMonth option_map Js.strict_eq andb].
    reflexivity.
Qed.

Lemma formatDateRange_on_bad_input_witness :
  formatDateRange Js.parseISO Demo.utc (Some "soon") None = "Invalid Date - Invalid Date"
  /\ formatDateRange Js.parseISO Demo.utc (Some "2023-01-05") (Some "soon")
     = "January 2023 - Invalid Date".
Proof.
  destruct (formatDateRange_on_bad_input Js.parseISO Demo.utc) as (_ & B & C).
  assert (D : forall a b : string, (a =? b)%string = false -> a <> b)
    by (intros a b; apply String.eqb_neq).
  split.
  - apply (B "soon"); [now apply D | reflexivity].
  - apply (C "2023-01-05" "soon" 1672876800000);
      [now apply D | now apply D | now vm_compute | reflexivity].
Defined.

(** ** The pages *)

Lemma sort_of_sorted A (key : A -> Z) l :
  StronglySorted (fun a b => key a <= key b) l ->
  Js.sort (fun a b => Some (key a - key b)) l = l.
Proof.
  induction 1 as [|x l S IH F]; [reflexivity|].
  cbn. rewrite IH. destruct l as [|y l']; [reflexivity|].
  cbn. unfold Js.after. inversion F as [|? ? Hxy _]; subst.
  destruct (0 <? key x - key y) eqn:E; [|reflexivity].
  apply Z.ltb_lt in E. lia.
Qed.

(** X19.  The page's own sort of the events it has just fetched changes
    nothing: when the request succeeds, loading a lane's timeline returns
    exactly what getMemoryLaneEvents returned, the live events of the
    lane in ascending order of position, each once. *)
Theorem page_sort_is_redundant :
  forall laneId w,
    faults w = [] ->
    loadLaneEvents laneId w = getMemoryLaneEvents laneId w
    /\ exists l,
         fst (loadLaneEvents laneId w) = Ok l
         /\ Permutation l (filter (live_in laneId) (events w))
         /\ StronglySorted
              (fun a b => Event.order_position a <= Event.order_position b) l.
Proof.
  intros lane w F. unfold loadLaneEvents, bind.
  rewrite (getMemoryLaneEvents_calm lane w F). cbn [ret].
  assert (S : StronglySorted
                (fun a b => Event.order_position a <= Event.order_position b)
                (query Event.order_position (live_in lane) (Some true) None (events w)))
    by apply sort_sorted.
  rewrite (sort_of_sorted _ Event.order_position _ S).
  split; [reflexivity|]. eexists. split; [reflexivity|].
  split; [apply fetched_events_perm | exact S].
Qed.

Lemma page_sort_is_redundant_witness :
  let w := Demo.world [Demo.event "a" "2023-03-01" 2; Demo.event "b" "2023-01-10" 1;
                       soft_delete "t" (Demo.event "c" "2023-02-02" 0)] [] [] in
  faults w = []
  /\ fst (loadLaneEvents "L" w)
     = Ok [Demo.event "b" "2023-01-10" 1; Demo.event "a" "2023-03-01" 2].
Proof.
  intros w. split; [reflexivity|].
  destruct (page_sort_is_redundant "L" w eq_refl) as (E & _).
  rewrite E. reflexivity.
Defined.

Lemma count_from_In c n q :
  In q (count_from c n) <-> c <= q < c + Z.of_nat n.
Proof.
  revert c. induction n as [|n IH]; intros c.
  - cbn. lia.
  - cbn [count_from In]. rewrite IH. lia.
Qed.

Lemma count_from_snoc c n :
  (count_from c n ++ [c + Z.of_nat n])%list = count_from c (S n).
Proof.
  revert c. induction n as [|n IH]; intros c.
  - cbn. f_equal. lia.
  - cbn [count_from app]. f_equal.
    replace (c + Z.of_nat (S n)) with (c + 1 + Z.of_nat n) by lia.
    apply IH.
Qed.

(** A counter of appends kept in JavaScript numbers stops at 2^53. *)
Lemma plus_one_capped k :
  0 <= k ->
  Js.plus_one (Z.min (Js.MAX_SAFE_INTEGER + 1) k)
  = Z.min (Js.MAX_SAFE_INTEGER + 1) (k + 1).
Proof.
  intros K. unfold Js.MAX_SAFE_INTEGER.
  destruct (Z_le_gt_dec k 9007199254740991) as [L|G].
  - rewrite Z.min_r by lia. rewrite plus_one_safe.
    + rewrite Z.min_r by lia. reflexivity.
    + unfold Js.isSafeInteger, Js.MAX_SAFE_INTEGER.
      apply andb_true_iff. split; apply Z.leb_le; lia.
  - rewrite !Z.min_l by lia. vm_compute. reflexivity.
Qed.

Lemma next_position_count n p :
  next_position (map (Z.min (Js.MAX_SAFE_INTEGER + 1)) (count_from 0 (S n))) p ->
  p = Z.min (Js.MAX_SAFE_INTEGER + 1) (Z.of_nat (S n)).
Proof.
  intros [[E _]|(m & Hm & Max & ->)]; [discriminate|].
  apply in_map_iff in Hm. destruct Hm as (q & <- & Hq).
  apply count_from_In in Hq.
  assert (Top : In (Z.min (Js.MAX_SAFE_INTEGER + 1) (Z.of_nat n))
                  (map (Z.min (Js.MAX_SAFE_INTEGER + 1)) (count_from 0 (S n)))).
  { apply in_map. apply count_from_In. lia. }
  specialize (Max _ Top).
  replace (Z.min (Js.MAX_SAFE_INTEGER + 1) q)
    with (Z.min (Js.MAX_SAFE_INTEGER + 1) (Z.of_nat n)) by lia.
  rewrite plus_one_capped by lia. f_equal. lia.
Qed.

Lemma capped_below l :
  (forall q, In q l -> q <= Js.MAX_SAFE_INTEGER + 1) ->
  map (Z.min (Js.MAX_SAFE_INTEGER + 1)) l = l.
Proof.
  intros B. rewrite <- (map_id l) at 2. apply map_ext_in.
  intros q Hq. specialize (B q Hq). lia.
Qed.

Lemma addEventImage_append_frame eventId imageUrl altText w :
  faults w = [] ->
  exists i w',
    addEventImage eventId imageUrl altText false w = (Ok i, w')
    /\ faults w' = []
    /\ images w' = (images w ++ [i])%list
    /\ Image.event_id i = eventId
    /\ Image.url i = imageUrl
    /\ next_position (gallery_positions eventId w) (Image.order_position i).
Proof.
  intros F. destruct (addEventImage eventId imageUrl altText false w) as [r w'] eqn:E.
  pose proof (addEventImage_append_effect _ _ _ _ _ _ E) as Eff.
  revert E Eff. destruct w as [evs imgs lanes sp fs nw uu dr con tr].
  cbn [faults] in F. subst fs. unfold addEventImage. step_more.
  intros [= <- <-] (_ & [((x & X) & _)|(i & R & Im & Ev & P)]); [discriminate|].
  injection R as <-. do 2 eexists. split; [reflexivity|].
  split; [reflexivity|]. split; [reflexivity|]. split; [reflexivity|].
  split; [reflexivity|]. exact P.
Qed.

Lemma addEventImage_primary_first eventId imageUrl altText w :
  faults w = [] -> shift_image_positions w = None ->
  filter (of_event eventId) (images w) = [] ->
  exists i w',
    addEventImage eventId imageUrl altText true w = (Ok i, w')
    /\ faults w' = []
    /\ images w' = (images w ++ [i])%list
    /\ Image.event_id i = eventId
    /\ Image.url i = imageUrl
    /\ Image.order_position i = 0.
Proof.
  destruct w as [evs imgs lanes sp fs nw uu dr con tr].
  cbn [faults shift_image_positions images]. intros -> -> Empty.
  unfold addEventImage. step_more. unfold query. rewrite Empty.
  cbn [shift_each]. step_more. do 2 eexists. now repeat split.
Qed.

Lemma bind_ok A B (c : M A) (k : A -> M B) w a w1 :
  c w = (Ok a, w1) -> bind c k w = k a w1.
Proof. intros E. unfold bind. now rewrite E. Qed.

Lemma addImages_rest eventId files : forall w n,
  faults w = [] ->
  gallery_positions eventId w
  = map (Z.min (Js.MAX_SAFE_INTEGER + 1)) (count_from 0 (S n)) ->
  fst (addImages eventId false files w) = Ok tt
  /\ gallery_positions eventId (snd (addImages eventId false files w))
     = map (Z.min (Js.MAX_SAFE_INTEGER + 1)) (count_from 0 (S n + List.length files))
  /\ map Image.url (filter (of_event eventId)
                      (images (snd (addImages eventId false files w))))
     = (map Image.url (filter (of_event eventId) (images w)) ++ map fst files)%list.
Proof.
  induction files as [|[imageUrl name] rest IH]; intros w n F G.
  - cbn. rewrite Nat.add_0_r, app_nil_r. now repeat split.
  - cbn [addImages List.length map fst].
    destruct (addEventImage_append_frame eventId imageUrl (Some name) w F)
      as (i & w1 & E & F1 & Im & Ev & Url & P).
    rewrite (bind_ok _ _ _ _ _ _ _ E).
    rewrite G in P. apply next_position_count in P.
    assert (G1 : gallery_positions eventId w1
                 = map (Z.min (Js.MAX_SAFE_INTEGER + 1)) (count_from 0 (S (S n)))).
    { rewrite (gallery_positions_snoc eventId w _ _ Im). unfold of_event.
      rewrite Ev, String.eqb_refl, G, P.
      rewrite <- (count_from_snoc 0 (S n)), map_app. reflexivity. }
    destruct (IH w1 (S n) F1 G1) as (R & GP & U).
    split; [exact R|]. split.
    + rewrite GP. do 2 f_equal. lia.
    + rewrite U, Im, filter_app, map_app. cbn [filter].
      replace (of_event eventId i) with true
        by (unfold of_event; now rewrite Ev, String.eqb_refl).
      cbn [map]. rewrite Url, <- app_assoc. reflexivity.
Qed.

(** X20.  The image loop of the creation page, run on an event that has no
    image yet, with the stored procedure unavailable and no failing
    request, stores the uploaded files at the positions 0, 1, 2, ... in
    upload order: the first file becomes the primary image and each later
    one is appended behind it.  The positions are counted in JavaScript
    numbers, where the count stops at 2^53; up to 2^53 files, more than an
    array holds, they are exactly 0, 1, ..., n - 1. *)
Theorem uploaded_images_are_numbered_from_zero :
  forall eventId files w,
    faults w = [] ->
    shift_image_positions w = None ->
    filter (of_event eventId) (images w) = [] ->
    let w' := snd (addImages eventId true files w) in
    fst (addImages eventId true files w) = Ok tt
    /\ gallery_positions eventId w'
       = map (Z.min (Js.MAX_SAFE_INTEGER + 1)) (count_from 0 (List.length files))
    /\ (Z.of_nat (List.length files) <= Js.MAX_SAFE_INTEGER + 1 ->
        gallery_positions eventId w' = count_from 0 (List.length files))
    /\ map Image.url (filter (of_event eventId) (images w')) = map fst files.
Proof.
  intros eventId files w F S Empty w'. subst w'.
  assert (Exact : forall ps,
            ps = map (Z.min (Js.MAX_SAFE_INTEGER + 1))
                   (count_from 0 (List.length files)) ->
            Z.of_nat (List.length files) <= Js.MAX_SAFE_INTEGER + 1 ->
            ps = count_from 0 (List.length files)).
  { intros ps -> B. apply capped_below. intros q Hq.
    apply count_from_In in Hq. lia. }
  destruct files as [|[imageUrl name] rest].
  - cbn. unfold gallery_positions. rewrite Empty. now repeat split.
  - cbn [addImages List.length map fst] in *.
    destruct (addEventImage_primary_first eventId imageUrl (Some name) w F S Empty)
      as (i & w1 & E & F1 & Im & Ev & Url & P).
    rewrite (bind_ok _ _ _ _ _ _ _ E).
    assert (G1 : gallery_positions eventId w1
                 = map (Z.min (Js.MAX_SAFE_INTEGER + 1)) (count_from 0 1)).
    { rewrite (gallery_positions_snoc eventId w _ _ Im). unfold of_event.
      rewrite Ev, String.eqb_refl. unfold gallery_positions. rewrite Empty, P.
      reflexivity. }
    destruct (addImages_rest eventId rest w1 0%nat F1 G1) as (R & GP & U).
    split; [exact R|]. split; [exact GP|]. split; [now apply Exact|].
    rewrite U, Im, filter_app, Empty. cbn [filter app].
    replace (of_event eventId i) with true
      by (unfold of_event; now rewrite Ev, String.eqb_refl).
    cbn [map app]. now rewrite Url.
Qed.

Lemma uploaded_images_are_numbered_from_zero_witness :
  let w := Demo.world [] [Image.mk "x" "F" "url" None None 3 None] [] in
  let files := [("u1", "one.jpg"); ("u2", "two.jpg"); ("u3", "three.jpg")] in
  faults w = []
  /\ shift_image_positions w = None
  /\ filter (of_event "E") (images w) = []
  /\ fst (addImages "E" true files w) = Ok tt
  /\ gallery_positions "E" (snd (addImages "E" true files w)) = [0; 1; 2]
  /\ map Image.url (filter (of_event "E") (images (snd (addImages "E" true files w))))
     = ["u1"; "u2"; "u3"].
Proof.
  intros w files.
  destruct (uploaded_images_are_numbered_from_zero "E" files w eq_refl eq_refl eq_refl)
    as (R & _ & G & U).
  split; [reflexivity|]. split; [reflexivity|]. split; [reflexivity|].
  split; [exact R|]. split; [|exact U].
  apply G. vm_compute. discriminate.
Defined.

(** ** Positions and lanes after a mutation *)

Lemma soft_deleted_live_rows id t lane evs :
  filter (live_in lane)
    (amend (fun e => (Event.id e =? id)%string) (soft_delete t) evs)
  = filter (fun e => live_in lane e && negb (Event.id e =? id)%string) evs.
Proof.
  induction evs as [|e evs IH]; [reflexivity|].
  cbn [amend map filter].
  fold (amend (fun e => (Event.id e =? id)%string) (soft_delete t) evs).
  rewrite IH. destruct (Event.id e =? id)%string eqn:E.
  - unfold live_in at 1. cbn [soft_delete Event.deleted_at Event.memory_lane_id is_null].
    rewrite andb_false_r. cbn [negb]. now rewrite andb_false_r.
  - cbn [negb]. now rewrite andb_true_r.
Qed.

(** X21.  A soft-deleted event stops counting for positions.  After a
    deleteEvent that resolves, a createEvent without a usable position
    places the new event by the live events other than the deleted one:
    at 1 if there is none, else at the JavaScript sum of their greatest
    position and 1, which is that position plus 1 when it is a safe
    integer (magnitude at most 2^53 - 1); it may be the position the
    deleted row still holds. *)
Theorem deleted_event_frees_its_position :
  forall newDate id w w' event w2 r w3,
    deleteEvent newDate id w = (Ok tt, w') ->
    events w2 = events w' ->
    Js.falsy_num (NewEvent.order_position event) = true ->
    createEvent newDate event w2 = (Ok r, w3) ->
    let others :=
      map Event.order_position
        (filter (fun x => live_in (NewEvent.memory_lane_id event) x
                          && negb (Event.id x =? id)%string)
           (events w)) in
    exists e,
      r = Some e
      /\ next_position others (Event.order_position e)
      /\ (safe_top others = true -> appended_after others (Event.order_position e)).
Proof.
  intros newDate id w w' event w2 r w3 D E2 P C others.
  apply deleteEvent_effect in D. destruct D as (cur & post & _ & Ev & _).
  apply createEvent_effect in C.
  destruct C as (_ & [((x & X) & _)|(e & post' & R & _ & _ & _ & A & _)]);
    [discriminate|].
  injection R as ->. exists e. split; [reflexivity|].
  rewrite P in A. unfold lane_positions in A.
  rewrite E2, Ev, soft_deleted_live_rows in A. fold others in A.
  split; [exact A|]. intros S. now apply next_position_exact.
Qed.

Lemma deleted_event_frees_its_position_witness :
  let w := Demo.world [Demo.event "a" "2023-03-01" 1; Demo.event "b" "2023-01-10" 2]
             [] [] in
  let event := Demo.new_event "2023-05-05" None in
  exists w' r w3,
    deleteEvent Js.parseISO "b" w = (Ok tt, w')
    /\ createEvent Js.parseISO event w' = (Ok r, w3)
    /\ (exists e, r = Some e /\ appended_after [1] (Event.order_position e))
    /\ map (fun e => (Event.order_position e, is_null (Event.deleted_at e))) (events w3)
       = [(1, true); (2, false); (2, true)].
Proof.
  intros w event.
  set (w' := snd (deleteEvent Js.parseISO "b" w)).
  set (c := createEvent Js.parseISO event w').
  assert (D : deleteEvent Js.parseISO "b" w = (Ok tt, w'))
    by (vm_compute; reflexivity).
  assert (C : exists e, c = (Ok (Some e), snd c))
    by (vm_compute; eexists; reflexivity).
  destruct C as (e0 & C).
  exists w', (Some e0), (snd c).
  split; [exact D|]. split; [exact C|]. split; [|vm_compute; reflexivity].
  destruct (deleted_event_frees_its_position Js.parseISO "b" w w' event w'
              (Some e0) (snd c) D eq_refl eq_refl C) as (e & R & _ & A).
  exists e. split; [exact R|]. exact (A eq_refl).
Defined.

Lemma refresh_lane_scope newDate lane w :
  Forall2 (fun l l' => l' = l \/ MemoryLane.id l = lane)
    (memory_lanes w) (memory_lanes (snd (refresh_date_range newDate lane w))).
Proof.
  assert (A : forall patch lanes,
             Forall2 (fun l l' => l' = l \/ MemoryLane.id l = lane) lanes
               (amend (live_lane lane) patch lanes)).
  { intros patch lanes. apply Forall2_amend; [|now left].
    intros l L. right. unfold live_lane in L. apply andb_prop in L.
    now apply String.eqb_eq. }
  assert (I : forall lanes,
             Forall2 (fun l l' => l' = l \/ MemoryLane.id l = lane) lanes lanes)
    by (intros; apply Forall2_same; now left).
  destruct w as [evs imgs lanes sp fs nw uu dr con tr].
  unfold refresh_date_range, updateDateRange, getMemoryLaneEvents,
    updateMemoryLane, toISOString.
  destruct fs as [|[e1|] [|[e2|] fs]]; step_more; run_cases;
    solve [apply I | apply A].
Qed.

(** X22.  updateEvent writes no lane row other than those of the lane
    the event was in before the update, whatever requests fail: an update
    that moves an event to another lane, with or without a new date,
    leaves the stored range of the lane it moves to as it was. *)
Theorem updateEvent_recomputes_only_the_old_lane :
  forall newDate id updates w cur,
    filter (live_event id) (events w) = [cur] ->
    Forall2 (fun l l' => l' = l \/ MemoryLane.id l = Event.memory_lane_id cur)
      (memory_lanes w)
      (memory_lanes (snd (updateEvent newDate id updates w))).
Proof.
  intros newDate id updates [evs imgs lanes sp fs nw uu dr con tr] cur.
  cbn [events memory_lanes]. intros Q.
  assert (I : Forall2 (fun l l' => l' = l \/ MemoryLane.id l = Event.memory_lane_id cur)
                lanes lanes) by (apply Forall2_same; now left).
  unfold updateEvent, getEventById.
  destruct (Js.falsy_str (EventUpdates.event_date updates)) eqn:F;
    destruct fs as [|[e1|] [|[e2|] fs]]; step_more; rewrite ?Q; cbn [negb];
    try destruct (code e1 =? "PGRST116")%string; step_more; try exact I.
  all: match goal with
       | |- context [refresh_date_range ?d ?l ?W] =>
           pose proof (refresh_lane_scope d l W) as S;
           destruct (refresh_date_range d l W) as [[[]|x] w2]
       end; exact S.
Qed.

Lemma updateEvent_recomputes_only_the_old_lane_witness :
  let other := MemoryLane.mk "M" "u" "Other" None None true None None None None None in
  let w := set_memory_lanes [Demo.lane; other]
             (Demo.world [Demo.event "a" "2023-03-01" 1] [] []) in
  let move := EventUpdates.mk (Some "M") None (Some "2023-04-01") None None None in
  filter (live_event "a") (events w) = [Demo.event "a" "2023-03-01" 1]
  /\ map Event.memory_lane_id (events (snd (updateEvent Js.parseISO "a" move w))) = ["M"]
  /\ bounds (snd (updateEvent Js.parseISO "a" move w))
     = [("L", None, None); ("M", None, None)].
Proof.
  intros other w move.
  pose proof (updateEvent_recomputes_only_the_old_lane Js.parseISO "a" move w
                (Demo.event "a" "2023-03-01" 1) eq_refl) as S.
  split; [reflexivity|]. split; [reflexivity|].
  unfold bounds.
  destruct (memory_lanes (snd (updateEvent Js.parseISO "a" move w)))
    as [|l1 [|l2 [|l3 ls]]] eqn:E; inversion S as [|? ? ? ? S1 S'];
    subst; inversion S' as [|? ? ? ? S2 S'']; subst; inversion S''; subst.
  revert E. vm_compute. intros [= <- <-]. reflexivity.
Defined.
